(** * Transcript cleaning and subtitle assembly (TranslationSubtitlesLambda.py)

    A shallow embedding of [filter_low_confidence_items_and_segments] and of
    the translation loop of [lambda_handler], followed by the properties the
    specification states about them.

    Conventions of the embedding:
    - a Python [str] is a list of Unicode code points;
    - a Python [float] is a binary64 number (the kernel's primitive floats,
      specified by [SpecFloat]); the records hold the value [float(...)]
      returns for the text found in the JSON document;
    - the document is typed as the transcription service writes it: ids
      are integers, contents are strings, an item has its ["type"], ["id"]
      and ["alternatives"] keys and a segment its ["items"] key; a key
      whose absence the code provides for, or runs into, is an optional
      field, and a list the code indexes may be empty;
    - a raised exception is the [Raise] outcome of [result];
    - a [for] loop over a list is [for_each], which threads the loop's
      mutable locals and stops at the first exception;
    - the keys of a JSON object that the code never reads are kept in a
      field of an arbitrary type [Extra];
    - [filter_low_confidence_items_and_segments] changes the document it
      is given and returns it: its model takes the document before the
      call to the document after it;
    - the storage calls around the loop are left out: [lambda_handler]
      goes from the parsed document to the list it serialises. *)

From Stdlib Require Import ZArith NArith Lia String Ascii Floats.
From stdpp Require Import base option list gmap.

Local Open Scope Z_scope.

(** ** Exceptions and outcomes *)

Inductive exn :=
| KeyError (key : string)
| IndexError
| ValueError
| OverflowError
| RuntimeError.

Inductive result (A : Type) :=
| Ok (a : A)
| Raise (e : exn).
Arguments Ok {A} a.
Arguments Raise {A} e.

Global Instance result_ret : MRet result := fun A a => Ok a.
Global Instance result_bind : MBind result := fun A B f r =>
  match r with
  | Ok a => f a
  | Raise e => Raise e
  end.

(** [d[key]] on an object whose key may be absent. *)
Definition subscript {A} (key : string) (field : option A) : result A :=
  match field with
  | Some a => Ok a
  | None => Raise (KeyError key)
  end.

(** [for x in l: s = body(s, x)], stopping at the first exception. *)
Fixpoint for_each {S A} (body : S -> A -> result S) (l : list A) (s : S)
  : result S :=
  match l with
  | [] => Ok s
  | x :: l' => s' ← body s x; for_each body l' s'
  end.

(** ** Python strings *)

Definition str := list N.

(** An ASCII literal of the source. *)
Definition lit (s : string) : str := map N_of_ascii (list_ascii_of_string s).

(** [str.isspace] on one code point: the white-space table of CPython. *)
Definition is_space (c : N) : bool :=
  ((9 <=? c) && (c <=? 13) || (28 <=? c) && (c <=? 32)
   || (c =? 133) || (c =? 160) || (c =? 5760)
   || (8192 <=? c) && (c <=? 8202)
   || (c =? 8232) || (c =? 8233) || (c =? 8239) || (c =? 8287)
   || (c =? 12288))%N.

Fixpoint lstrip (s : str) : str :=
  match s with
  | [] => []
  | c :: s' => if is_space c then lstrip s' else s
  end.

Definition rstrip (s : str) : str := rev (lstrip (rev s)).

(** [s.strip()] *)
Definition strip (s : str) : str := rstrip (lstrip s).

(** [" ".join(words)] *)
Fixpoint join_space (words : list str) : str :=
  match words with
  | [] => []
  | [w] => w
  | w :: ws => w ++ 32%N :: join_space ws
  end.

(** Truth value of a string: [if s:]. *)
Definition truthy (s : str) : bool :=
  match s with
  | [] => false
  | _ :: _ => true
  end.

(** ** The transcription document *)

Record alternative := {
  confidence : option float;
  content : str
}.

Record item := {
  i_type : str;
  i_alternatives : list alternative;
  i_id : Z
}.

Section Transcript.

Context {Extra : Type}.

Record segment := {
  seg_items : list Z;
  seg_transcript : option str;
  seg_start_time : option float;
  seg_end_time : option float;
  seg_alternatives : option (list alternative);
  seg_rest : Extra
}.

Record results := {
  r_items : option (list item);
  r_audio_segments : option (list segment);
  r_audio : option (list segment);
  r_rest : Extra
}.

Record transcript := {
  t_results : results;
  t_rest : Extra
}.

(** [seg["items"] = new_items; seg["transcript"] = new_transcript] *)
Definition set_items_transcript (seg : segment) (new_items : list Z)
    (new_transcript : str) : segment :=
  {| seg_items := new_items;
     seg_transcript := Some new_transcript;
     seg_start_time := seg_start_time seg;
     seg_end_time := seg_end_time seg;
     seg_alternatives := seg_alternatives seg;
     seg_rest := seg_rest seg |}.

(** [data["results"]["audio_segments"] = cleaned_segments] *)
Definition set_audio_segments (data : transcript) (cleaned : list segment)
  : transcript :=
  {| t_results :=
       {| r_items := r_items (t_results data);
          r_audio_segments := Some cleaned;
          r_audio := r_audio (t_results data);
          r_rest := r_rest (t_results data) |};
     t_rest := t_rest data |}.

(** ** filter_low_confidence_items_and_segments *)

(** [x["alternatives"][0]] *)
Definition first_alternative (it : item) : result alternative :=
  match i_alternatives it with
  | [] => Raise IndexError
  | a :: _ => Ok a
  end.

(** [float(alt.get("confidence", "1.0"))] *)
Definition confidence_of (a : alternative) : float :=
  default 1%float (confidence a).

(** Step 1, the body of [for item in items]. *)
Definition low_confidence_step (threshold : float) (low : gset Z) (it : item)
  : result (gset Z) :=
  if decide (i_type it = lit "pronunciation") then
    a ← first_alternative it;
    if (confidence_of a <? threshold)%float
    then Ok ({[ i_id it ]} ∪ low)
    else Ok low
  else Ok low.

Definition low_confidence_ids (items : list item) (threshold : float)
  : result (gset Z) :=
  for_each (low_confidence_step threshold) items ∅.

(** [next((i for i in items if i["id"] == item_id), None)] *)
Definition matched_item (items : list item) (item_id : Z) : option item :=
  find (fun i => bool_decide (i_id i = item_id)) items.

(** Step 2, the body of [for item_id in seg["items"]]; the state is
    [(new_items, new_transcript_words)]. The test [if matched_item:]
    holds for every item found, an item being an object with keys. *)
Definition collect_step (low : gset Z) (items : list item)
    (acc : list Z * list str) (item_id : Z) : result (list Z * list str) :=
  if decide (item_id ∈ low) then Ok acc
  else
    match matched_item items item_id with
    | None => Ok acc
    | Some m =>
        a ← first_alternative m;
        Ok (acc.1 ++ [item_id], acc.2 ++ [content a])
    end.

(** Step 2, the body of [for seg in segments]; the state is
    [cleaned_segments]. *)
Definition segment_step (low : gset Z) (items : list item)
    (cleaned : list segment) (seg : segment) : result (list segment) :=
  acc ← for_each (collect_step low items) (seg_items seg) ([], []);
  let new_transcript := join_space acc.2 in
  if truthy (strip new_transcript)
  then Ok (cleaned ++ [set_items_transcript seg acc.1 new_transcript])
  else Ok cleaned.

Definition filter_low_confidence_items_and_segments (data : transcript)
    (threshold : float) : result transcript :=
  items ← subscript "items" (r_items (t_results data));
  segments ← subscript "audio_segments" (r_audio_segments (t_results data));
  low ← low_confidence_ids items threshold;
  cleaned ← for_each (segment_step low items) segments [];
  Ok (set_audio_segments data cleaned).

End Transcript.

(** ** Numbers *)

(** Truncation toward zero of a binary64 number; infinities and NaN have
    no integer value. *)
Definition sf_int (x : spec_float) : result Z :=
  match x with
  | S754_zero _ => Ok 0
  | S754_finite s m e => Ok (cond_Zopp s (Z.shiftl (Zpos m) e))
  | S754_infinity _ => Raise OverflowError
  | S754_nan => Raise ValueError
  end.

(** The largest integer not above a binary64 number. *)
Definition sf_floor (x : spec_float) : result Z :=
  match x with
  | S754_zero _ => Ok 0
  | S754_finite s m e => Ok (Z.shiftl (cond_Zopp s (Zpos m)) e)
  | S754_infinity _ => Raise OverflowError
  | S754_nan => Raise ValueError
  end.

(** [int(x)] for a float. *)
Definition py_int (x : float) : result Z := sf_int (Prim2SF x).

(** [math.floor(x)], the reference the budget is compared with. *)
Definition py_floor (x : float) : result Z := sf_floor (Prim2SF x).

(** [math.isfinite(x)] *)
Definition isfinite (x : float) : bool :=
  match Prim2SF x with
  | S754_zero _ | S754_finite _ _ _ => true
  | S754_infinity _ | S754_nan => false
  end.

(** The literal [5.68] of the source, as the binary64 number Python reads. *)
Definition chars_per_second : float := 0x1.6b851eb851eb8p+2%float.

(** [int((end_time - start_time) * 5.68)] *)
Definition max_translated_characters (start_time end_time : float)
  : result Z :=
  py_int ((end_time - start_time) * chars_per_second)%float.

(** The budget of a duration: [int(d * 5.68)]. *)
Definition duration_budget (d : float) : result Z :=
  py_int (d * chars_per_second)%float.

(** The mantissa of [5.68] in binary64, its exponent being -50. *)
Definition rate_mantissa : positive := 6395111470866104.

(** The largest integer not above [m * 2^e * num / den], in exact
    arithmetic, for a positive [den]. *)
Definition scaled_floor (m e num den : Z) : Z :=
  if 0 <=? e then (m * 2 ^ e * num) / den
  else (m * num) / (den * 2 ^ (- e)).

(** The floor of the exact product of a binary64 number and the ratio
    [num / den]; infinities and NaN have none. *)
Definition exact_floor (num den : Z) (x : spec_float) : option Z :=
  match x with
  | S754_zero _ => Some 0
  | S754_finite s m e => Some (scaled_floor (cond_Zopp s (Z.pos m)) e num den)
  | S754_infinity _ | S754_nan => None
  end.

(** [floor(d * 5.68)], the product taken exactly, 5.68 being 568/100. *)
Definition exact_budget (d : float) : option Z :=
  exact_floor 568 100 (Prim2SF d).

(** The floor of the exact product of [d] and the binary64 number that
    the literal [5.68] denotes. *)
Definition exact_rate_floor (d : float) : option Z :=
  exact_floor (Z.pos rate_mantissa) (2 ^ 50) (Prim2SF d).

(** A binary64 number that is not negative (a NaN has no sign). *)
Definition not_negative (x : spec_float) : Prop :=
  match x with
  | S754_finite true _ _ | S754_infinity true => False
  | _ => True
  end.

(** The order [x <= y] of two positive canonical numbers. *)
Definition canonical_le (m1 : positive) (e1 : Z) (m2 : positive) (e2 : Z)
  : Prop :=
  e1 < e2 \/ (e1 = e2 /\ Z.pos m1 <= Z.pos m2).

(** Round to nearest, ties to even, of [M / 2^n]. *)
Definition rne_div (M n : Z) : Z :=
  let q := M / 2 ^ n in
  match 2 * (M mod 2 ^ n) ?= 2 ^ n with
  | Lt => q
  | Eq => if Z.even q then q else q + 1
  | Gt => q + 1
  end.

(** After [k] one-bit shifts of [M]: the quotient, the round bit and the
    sticky bit. *)
Definition shifted (M : Z) (k : Z) (mrs : shr_record) : Prop :=
  exists low,
    0 <= low < 2 ^ (k - 1) /\
    M = shr_m mrs * 2 ^ k + (if shr_r mrs then 2 ^ (k - 1) else 0) + low /\
    shr_s mrs = negb (low =? 0) /\
    0 <= shr_m mrs.

(** ** The translation service *)

Record content_block := { text : option str }.

(** What one [invoke_model] call leads to, as far as the code looks:
    an exception while calling, reading or decoding, or a decoded body
    with or without an ["error"] key and with its ["content"] list. *)
Inductive reply :=
| InvokeFailed (e : exn)
| Body (has_error : bool) (blocks : option (list content_block)).

(** The two values the prompt is built from. *)
Record request := {
  req_max_characters : Z;
  req_english_text : str
}.

Record subtitle := {
  start_time : float;
  end_time : float;
  sub_text : str;
  ja_text : str
}.

(** U+3000, the character written in place of an empty translation. *)
Definition placeholder : str := [12288%N].

Definition error_tag : str := lit "[TRANSLATION_ERROR] ".

Definition fillers : list str :=
  map lit ["um"; "uh"; "so"; "well"; "you know"; "i mean";
           "uh,"; "um,"; "so,"; "well,"; "you know,"; "i mean,"]%string.

(** The body of the [try] block after the call, up to the assignment of
    [translated_text]. *)
Definition read_translation (r : reply) : result str :=
  match r with
  | InvokeFailed e => Raise e
  | Body has_error blocks =>
      if has_error then Raise RuntimeError
      else
        match default [] blocks with
        | [] => Raise ValueError
        | b :: _ =>
            match text b with
            | None => Raise ValueError
            | Some t =>
                let translated := strip t in
                Ok (if decide (translated = []) then placeholder
                    else translated)
            end
        end
  end.

Section Handler.

Context {Extra : Type}.

(** [str.lower]: the Unicode case tables are Python's, not the
    repository's. *)
Variable lower : str -> str.

(** The translation service: the reply to the [n]-th request. *)
Variable bedrock : nat -> request -> reply.

(** The [except] block. *)
Definition fallback_text (english_text : str) : str :=
  if decide (lower (strip english_text) ∈ fillers) then placeholder
  else error_tag ++ english_text.

(** [translated_text] when the [try] statement is left. *)
Definition translated_text (english_text : str) (r : reply) : str :=
  match read_translation r with
  | Ok t => t
  | Raise _ => fallback_text english_text
  end.

(** The text of a loop entry, or [None] where the loop [continue]s. *)
Definition english_text_of (entry : @segment Extra) : option str :=
  match seg_transcript entry with
  | Some t => Some t
  | None =>
      match seg_alternatives entry with
      | Some (a :: _) => Some (content a)
      | _ => None
      end
  end.

(** The body of [for item in segments_to_translate]; the state is
    [subtitles] and the number of requests sent so far. *)
Definition translate_step (st : list subtitle * nat) (entry : @segment Extra)
  : result (list subtitle * nat) :=
  let start_time := default 0%float (seg_start_time entry) in
  let end_time := default 0%float (seg_end_time entry) in
  limit ← max_translated_characters start_time end_time;
  match english_text_of entry with
  | None => Ok st
  | Some english_text =>
      let r := bedrock st.2 {| req_max_characters := limit;
                               req_english_text := english_text |} in
      let translated := translated_text english_text r in
      Ok (st.1 ++ [{| start_time := start_time;
                      end_time := end_time;
                      sub_text := english_text;
                      ja_text := if truthy translated then translated
                                 else [] |}],
          S st.2)
  end.

(** The subtitle the loop appends for an entry, given the number of
    requests sent before. *)
Definition subtitle_of (n : nat) (entry : @segment Extra) (limit : Z)
    (english_text : str) : subtitle :=
  {| start_time := default 0%float (seg_start_time entry);
     end_time := default 0%float (seg_end_time entry);
     sub_text := english_text;
     ja_text := translated_text english_text
                  (bedrock n {| req_max_characters := limit;
                                req_english_text := english_text |}) |}.

(** The limit of an entry is computed. *)
Definition timed (entry : @segment Extra) (limit : Z) : Prop :=
  max_translated_characters (default 0%float (seg_start_time entry))
                            (default 0%float (seg_end_time entry)) = Ok limit.

(** The choice of [segments_to_translate]. *)
Definition segments_to_translate (data : @transcript Extra)
  : result (list segment) :=
  match r_audio_segments (t_results data) with
  | Some segments => Ok segments
  | None =>
      match r_items (t_results data) with
      | Some _ => subscript "audio" (r_audio (t_results data))
      | None => Raise ValueError
      end
  end.

(** [lambda_handler], from the parsed transcription document to the list
    written to the output document. *)
Definition lambda_handler (data : @transcript Extra) : result (list subtitle) :=
  data' ← filter_low_confidence_items_and_segments data 0.25%float;
  segments ← segments_to_translate data';
  st ← for_each translate_step segments ([], 0%nat);
  Ok st.1.

End Handler.

(** ** A lower-casing function for ASCII text and sample data *)

Definition ascii_lower_char (c : N) : N :=
  if ((65 <=? c) && (c <=? 90))%N then (c + 32)%N else c.

Definition ascii_lower (s : str) : str := map ascii_lower_char s.

Module Sample.

Definition word (n : Z) (c : float) (w : string) : item :=
  {| i_type := lit "pronunciation";
     i_alternatives := [{| confidence := Some c; content := lit w |}];
     i_id := n |}.

Definition seg (ids : list Z) (t : string) (s e : float) : @segment unit :=
  {| seg_items := ids; seg_transcript := Some (lit t);
     seg_start_time := Some s; seg_end_time := Some e;
     seg_alternatives := None; seg_rest := tt |}.

Definition doc (items : list item) (segs : list (@segment unit))
  : @transcript unit :=
  {| t_results := {| r_items := Some items; r_audio_segments := Some segs;
                     r_audio := None; r_rest := tt |};
     t_rest := tt |}.

(** The end-to-end scenario of the specification. *)
#[warnings="-inexact-float"]
Definition items : list item :=
  [word 1 0.9 "Hello"; word 2 0.1 "ignored"; word 3 0.9 "Goodbye"].

Definition segments : list (@segment unit) :=
  [seg [1; 2] "Hello ignored" 0 2; seg [3] "Goodbye" 2 4].

Definition hello_goodbye : @transcript unit := doc items segments.

(** The excluded ids of the scenario, as Step 1 builds them. *)
Definition low : gset Z := {[ 2 ]} ∪ ∅.

(** The scenario after the step. *)
Definition hello_goodbye_cleaned : @transcript unit :=
  doc items [seg [1] "Hello" 0 2; seg [3] "Goodbye" 2 4].

(** A pronunciation with no confidence recorded. *)
Definition unscored : item :=
  {| i_type := lit "pronunciation";
     i_alternatives := [{| confidence := None; content := lit "maybe" |}];
     i_id := 7 |}.

(** A translator that answers with the text it was given. *)
Definition echo (n : nat) (r : request) : reply :=
  Body false (Some [{| text := Some (req_english_text r) |}]).

(** A document of one sentence, every word of it recognised with high
    confidence, as the transcription service writes it. *)
Definition full_stop : item :=
  {| i_type := lit "punctuation";
     i_alternatives := [{| confidence := Some 0%float; content := lit "." |}];
     i_id := 1 |}.

#[warnings="-inexact-float"]
Definition sentence : @transcript unit :=
  doc [word 0 0.9 "Hello"; full_stop] [seg [0; 1] "Hello." 0 1].

#[warnings="-inexact-float"]
Definition sentence_cleaned : @transcript unit :=
  doc [word 0 0.9 "Hello"; full_stop] [seg [0; 1] "Hello ." 0 1].

(** A segment that names an id no item carries, and a segment whose only
    word is below the threshold. *)
#[warnings="-inexact-float"]
Definition dangling : @transcript unit :=
  doc [word 1 0.9 "Hello"; word 2 0.1 "ignored"]
      [seg [1; 99] "Hello there" 0 1; seg [2] "ignored" 1 2].

#[warnings="-inexact-float"]
Definition dangling_cleaned : @transcript unit :=
  doc [word 1 0.9 "Hello"; word 2 0.1 "ignored"] [seg [1] "Hello" 0 1].

(** A document with word-level items and no segment list. *)
Definition words_only : @transcript unit :=
  {| t_results := {| r_items := Some items; r_audio_segments := None;
                     r_audio := None; r_rest := tt |};
     t_rest := tt |}.

(** A translator that is out of service. *)
Definition down (n : nat) (r : request) : reply := InvokeFailed RuntimeError.

End Sample.

(** ** What the loops compute, stated without loops

    The definitions below follow the words of the specification; the
    properties relate them to the loops above. *)

(** The confidence the filter compares: that of the first alternative,
    1.0 when the item has none recorded. *)
Definition item_confidence (it : item) : float :=
  match i_alternatives it with
  | a :: _ => confidence_of a
  | [] => 1%float
  end.

(** The content found for an id: that of the first alternative of the
    first item carrying the id. *)
Definition content_of (items : list item) (item_id : Z) : str :=
  match matched_item items item_id with
  | Some {| i_alternatives := a :: _ |} => content a
  | _ => []
  end.

(** The ids of a segment that are kept: not excluded, and resolved by an
    item. *)
Definition retained_ids (low : gset Z) (items : list item) (ids : list Z)
  : list Z :=
  filter (fun item_id =>
            (item_id ∉ low) /\ is_Some (matched_item items item_id)) ids.

Definition rebuilt_transcript (low : gset Z) (items : list item)
    (ids : list Z) : str :=
  join_space (map (content_of items) (retained_ids low items ids)).

(** An item that Step 1 marks: a pronunciation whose confidence is
    strictly below the threshold. *)
Definition marked (threshold : float) (it : item) : Prop :=
  i_type it = lit "pronunciation" /\
  (item_confidence it <? threshold)%float = true.

(** The first item carrying the id, if any, has a first alternative. *)
Definition readable_at (items : list item) (n : Z) : Prop :=
  forall m, matched_item items n = Some m -> i_alternatives m <> [].

(** The state a completed inner loop leaves, from the state it starts in. *)
Definition collected (low : gset Z) (items : list item) (ids : list Z)
    (acc : list Z * list str) : list Z * list str :=
  (acc.1 ++ retained_ids low items ids,
   acc.2 ++ map (content_of items) (retained_ids low items ids)).

(** A string with nothing but white space in it, the empty one included. *)
Definition blank (s : str) : Prop := Forall (fun c => is_space c = true) s.

Global Instance blank_dec (s : str) : Decision (blank s).
Proof. unfold blank. apply _. Defined.

(** Every item has a first alternative to read. *)
Definition readable (items : list item) : Prop :=
  Forall (fun it => i_alternatives it <> []) items.

(** The filler words of the specification. *)
Definition filler_words : list str :=
  map lit ["um"; "uh"; "so"; "well"; "you know"; "i mean"]%string.

(** The source text, trimmed and lower-cased, is a filler word, with or
    without a trailing comma. *)
Definition filler_match (lower : str -> str) (s : str) : Prop :=
  exists w, w ∈ filler_words /\
            (lower (strip s) = w \/ lower (strip s) = w ++ lit ",").

(** The replies that count as a failed request: a request error, an
    error-shaped response, a response without a usable content list. *)
Inductive failure : reply -> Prop :=
| request_error e : failure (InvokeFailed e)
| error_response blocks : failure (Body true blocks)
| content_missing : failure (Body false None)
| content_empty : failure (Body false (Some []))
| text_missing b blocks :
    text b = None -> failure (Body false (Some (b :: blocks))).

(** [needle] occurs in [s]. *)
Definition occurs_in (needle s : str) : Prop :=
  exists before after, s = before ++ needle ++ after.

Section Reconstruct.

Context {Extra : Type}.

(** The segment as rewritten by the step, [None] when it is dropped. *)
Definition rebuild (low : gset Z) (items : list item) (seg : @segment Extra)
  : option segment :=
  let t := rebuilt_transcript low items (seg_items seg) in
  if truthy (strip t)
  then Some (set_items_transcript seg (retained_ids low items (seg_items seg)) t)
  else None.

(** The inner loops of Step 2 complete on every segment. *)
Definition collectable (low : gset Z) (items : list item)
    (segs : list (@segment Extra)) : Prop :=
  Forall (fun seg =>
            Forall (readable_at items)
                   (retained_ids low items (seg_items seg))) segs.

End Reconstruct.

(** * Properties *)

(** ** Strings *)

Lemma lstrip_nil_iff (s : str) : lstrip s = [] <-> blank s.
Proof.
  unfold blank. induction s as [|c s IH]; simpl.
  - split; [constructor | reflexivity].
  - destruct (is_space c) eqn:Hc.
    + rewrite IH. split; [by constructor | by inversion 1].
    + split; [discriminate | inversion 1; congruence].
Qed.

Lemma lstrip_blank (s : str) : blank s -> lstrip s = [].
Proof. apply lstrip_nil_iff. Qed.

Lemma lstrip_idem (s : str) : lstrip (lstrip s) = lstrip s.
Proof.
  induction s as [|c s IH]; simpl; [done|].
  destruct (is_space c) eqn:Hc; [done|]. simpl. by rewrite Hc.
Qed.

(** [strip] gives the empty string exactly on blank strings. *)
Lemma strip_nil_iff (s : str) : strip s = [] <-> blank s.
Proof.
  unfold strip, rstrip. split.
  - intros H. apply lstrip_nil_iff.
    assert (Hr : lstrip (rev (lstrip s)) = []).
    { apply (f_equal (@rev N)) in H. by rewrite rev_involutive in H. }
    apply lstrip_nil_iff in Hr. unfold blank in Hr.
    apply Forall_rev in Hr. rewrite rev_involutive in Hr.
    apply lstrip_nil_iff in Hr. by rewrite lstrip_idem in Hr.
  - intros H. by rewrite (lstrip_blank s H).
Qed.

Lemma truthy_strip (s : str) : truthy (strip s) = true <-> ~ blank s.
Proof.
  rewrite <- strip_nil_iff. destruct (strip s); simpl; split; try done.
Qed.

Lemma truthy_strip_false (s : str) : truthy (strip s) = false <-> blank s.
Proof.
  rewrite <- strip_nil_iff. by destruct (strip s).
Qed.

(** ** Lists and loops *)

Lemma filter_ext_elem {A} (P Q : A -> Prop) `{!forall x, Decision (P x)}
    `{!forall x, Decision (Q x)} (l : list A) :
  (forall x, x ∈ l -> P x <-> Q x) -> filter P l = filter Q l.
Proof.
  induction l as [|x l IH]; intros Hl; [done|].
  rewrite !filter_cons, IH by (intros y Hy; apply Hl; by right).
  destruct (decide (P x)) as [HP|HP].
  - rewrite decide_True; [done|]. apply Hl; [by left | done].
  - rewrite decide_False; [done|]. intros HQ. apply HP, Hl; [by left | done].
Qed.

Lemma length_omap_le {A B} (f : A -> option B) (l : list A) :
  (length (omap f l) <= length l)%nat.
Proof.
  induction l as [|x l IH]; simpl; [done|].
  change (list_omap A B f l) with (omap f l). destruct (f x); simpl; lia.
Qed.

(** A loop whose body cannot raise on the elements it meets returns. *)
Lemma for_each_total {S A} (body : S -> A -> result S) (l : list A) (s : S) :
  Forall (fun x => forall s, exists s', body s x = Ok s') l ->
  exists s', for_each body l s = Ok s'.
Proof.
  intros H. revert s. induction H as [|x l Hx _ IH]; intros s; simpl.
  - by exists s.
  - destruct (Hx s) as [s' ->]. simpl. apply IH.
Qed.

(** ** Step 1: the excluded ids *)

Lemma low_confidence_step_ok threshold low it low' :
  low_confidence_step threshold low it = Ok low' ->
  forall n, n ∈ low' <-> n ∈ low \/ (i_id it = n /\ marked threshold it).
Proof.
  unfold low_confidence_step, marked, first_alternative, item_confidence.
  intros H n. destruct (decide (i_type it = lit "pronunciation")) as [Ht|Ht].
  - destruct (i_alternatives it) as [|a alts]; simpl in H; [done|].
    destruct (confidence_of a <? threshold)%float eqn:Hc;
      inversion H; subst; clear H; [|intuition congruence].
    rewrite elem_of_union, elem_of_singleton. intuition congruence.
  - inversion H; subst. tauto.
Qed.

Lemma low_confidence_loop threshold items low low' :
  for_each (low_confidence_step threshold) items low = Ok low' ->
  forall n, n ∈ low' <->
            n ∈ low \/ exists it, it ∈ items /\ i_id it = n /\ marked threshold it.
Proof.
  revert low. induction items as [|it items IH]; intros low H n; simpl in H.
  - inversion H; subst. split; [tauto|]. intros [?|(it & Hin & _)]; [done|].
    by apply not_elem_of_nil in Hin.
  - destruct (low_confidence_step threshold low it) as [low1|] eqn:Hstep;
      simpl in H; [|done].
    rewrite (IH _ H n), (low_confidence_step_ok _ _ _ _ Hstep n).
    split.
    + intros [[?|[? ?]]|(it' & ? & ? & ?)]; [tauto| |].
      * right. exists it. split; [left|]; done.
      * right. exists it'. split; [by right|]; done.
    + intros [?|(it' & Hin & ? & ?)]; [tauto|].
      apply elem_of_cons in Hin as [->|Hin]; [tauto|].
      right. by exists it'.
Qed.

Lemma low_confidence_step_total threshold low it :
  i_alternatives it <> [] -> exists low', low_confidence_step threshold low it = Ok low'.
Proof.
  unfold low_confidence_step, first_alternative. intros H.
  destruct (decide _); [|by eexists].
  destruct (i_alternatives it) as [|a alts]; [done|]. simpl.
  destruct (_ <? _)%float; by eexists.
Qed.

Lemma low_confidence_ids_total items threshold :
  readable items -> exists low, low_confidence_ids items threshold = Ok low.
Proof.
  intros H. apply for_each_total. eapply Forall_impl; [exact H|].
  intros it Hit low. by apply low_confidence_step_total.
Qed.

(** ** Step 2: the rewritten segments *)

Lemma matched_item_elem items n m :
  matched_item items n = Some m -> m ∈ items /\ i_id m = n.
Proof.
  unfold matched_item. intros H. apply find_some in H as [Hin Hb].
  apply list_elem_of_In in Hin. by apply bool_decide_eq_true in Hb.
Qed.

Lemma readable_readable_at items n : readable items -> readable_at items n.
Proof.
  unfold readable. rewrite Forall_forall. intros Hr m Hm.
  apply matched_item_elem in Hm as [Hin _]. by apply Hr.
Qed.

Lemma retained_ids_cons low items n ids :
  retained_ids low items (n :: ids) =
  retained_ids low items [n] ++ retained_ids low items ids.
Proof. unfold retained_ids. by rewrite <- filter_app. Qed.

Lemma retained_ids_idem low items ids :
  retained_ids low items (retained_ids low items ids) =
  retained_ids low items ids.
Proof.
  unfold retained_ids. rewrite list_filter_filter.
  apply list_filter_iff. tauto.
Qed.

Lemma collect_step_iff low items acc n acc' :
  collect_step low items acc n = Ok acc' <->
  Forall (readable_at items) (retained_ids low items [n]) /\
  acc' = collected low items [n] acc.
Proof.
  unfold collected, retained_ids, collect_step.
  rewrite filter_cons, filter_nil.
  destruct (decide (n ∈ low)) as [Hlow|Hlow].
  - rewrite decide_False by tauto. simpl. rewrite !app_nil_r.
    destruct acc. split; [intros [= <-]; by split | by intros [_ ->]].
  - destruct (matched_item items n) as [m|] eqn:Hm.
    + rewrite decide_True by (split; [done | by exists m]).
      rewrite Forall_singleton. unfold readable_at. rewrite Hm. simpl.
      unfold content_of, first_alternative. rewrite Hm.
      destruct m as [t [|a alts] k]; simpl.
      * split; [done|]. intros [H _]. by destruct (H _ eq_refl).
      * split; [intros [= <-]; split; [by intros ? [= <-]|done]
               | by intros [_ ->]].
    + rewrite decide_False by (intros [_ [? ?]]; done).
      simpl. rewrite !app_nil_r.
      destruct acc. split; [intros [= <-]; by split | by intros [_ ->]].
Qed.

Lemma collect_loop_iff low items ids acc acc' :
  for_each (collect_step low items) ids acc = Ok acc' <->
  Forall (readable_at items) (retained_ids low items ids) /\
  acc' = collected low items ids acc.
Proof.
  revert acc. induction ids as [|n ids IH]; intros acc; simpl.
  - unfold collected, retained_ids. rewrite filter_nil. simpl.
    rewrite !app_nil_r. destruct acc.
    split; [intros [= <-]; by split | by intros [_ ->]].
  - rewrite (retained_ids_cons _ _ n ids), Forall_app.
    destruct (collect_step low items acc n) as [acc1|] eqn:Hstep; simpl.
    + apply collect_step_iff in Hstep as [Hr ->]. rewrite IH.
      unfold collected. simpl.
      rewrite (retained_ids_cons _ _ n ids), map_app, <- !app_assoc. tauto.
    + split; [done|]. intros [[Hr _] _].
      assert (Hok : collect_step low items acc n =
                    Ok (collected low items [n] acc))
        by (by apply collect_step_iff).
      congruence.
Qed.

Section Filter.

Context {Extra : Type}.
Implicit Types (seg : @segment Extra) (data : @transcript Extra).
Implicit Types (segs cleaned : list (@segment Extra)).

Lemma segment_step_iff low items cleaned seg cleaned' :
  segment_step low items cleaned seg = Ok cleaned' <->
  Forall (readable_at items) (retained_ids low items (seg_items seg)) /\
  cleaned' = cleaned ++ option_list (rebuild low items seg).
Proof.
  unfold segment_step, rebuild, rebuilt_transcript.
  destruct (for_each _ _ _) as [acc|] eqn:Hloop; simpl.
  - apply collect_loop_iff in Hloop as [Hr ->]. unfold collected. simpl.
    destruct (truthy _); simpl; rewrite ?app_nil_r;
      (split; [intros [= <-]; by split | by intros [_ ->]]).
  - split; [done|]. intros [Hr _].
    assert (Hok : for_each (collect_step low items) (seg_items seg) ([], []) =
                  Ok (collected low items (seg_items seg) ([], [])))
      by (by apply collect_loop_iff).
    congruence.
Qed.

Lemma segment_loop_iff low items segs cleaned cleaned' :
  for_each (segment_step low items) segs cleaned = Ok cleaned' <->
  collectable low items segs /\
  cleaned' = cleaned ++ omap (rebuild low items) segs.
Proof.
  unfold collectable.
  revert cleaned. induction segs as [|seg segs IH]; intros cleaned; simpl.
  - rewrite app_nil_r. split; [intros [= <-]; by split | by intros [_ ->]].
  - rewrite Forall_cons.
    destruct (segment_step low items cleaned seg) as [c1|] eqn:Hstep; simpl.
    + apply segment_step_iff in Hstep as [Hr ->]. rewrite IH.
      rewrite <- app_assoc.
      destruct (rebuild low items seg); simpl; tauto.
    + split; [done|]. intros [[Hr _] _].
      assert (Hok : segment_step low items cleaned seg =
                    Ok (cleaned ++ option_list (rebuild low items seg)))
        by (by apply segment_step_iff).
      congruence.
Qed.

Lemma readable_collectable low items segs :
  readable items -> collectable low items segs.
Proof.
  intros Hr. apply Forall_forall. intros seg _. apply Forall_forall.
  intros n _. by apply readable_readable_at.
Qed.

(** The step as a whole: when it returns, and what. *)
Lemma filter_iff data threshold data' :
  filter_low_confidence_items_and_segments data threshold = Ok data' <->
  exists items segs low,
    r_items (t_results data) = Some items /\
    r_audio_segments (t_results data) = Some segs /\
    low_confidence_ids items threshold = Ok low /\
    collectable low items segs /\
    data' = set_audio_segments data (omap (rebuild low items) segs).
Proof.
  unfold filter_low_confidence_items_and_segments. split.
  - intros H.
    destruct (r_items (t_results data)) as [items|]; simpl in H; [|done].
    destruct (r_audio_segments (t_results data)) as [segs|]; simpl in H;
      [|done].
    destruct (low_confidence_ids items threshold) as [low|] eqn:Hlow;
      simpl in H; [|done].
    destruct (for_each _ segs []) as [cleaned|] eqn:Hseg; simpl in H; [|done].
    apply segment_loop_iff in Hseg as [Hc ->]. simpl in H.
    inversion H; subst. by exists items, segs, low.
  - intros (items & segs & low & -> & -> & Hlow & Hc & ->). simpl.
    rewrite Hlow. simpl.
    assert (Hseg : for_each (segment_step low items) segs [] =
                   Ok ([] ++ omap (rebuild low items) segs))
      by (by apply segment_loop_iff).
    by rewrite Hseg.
Qed.

Lemma filter_ok data threshold data' :
  filter_low_confidence_items_and_segments data threshold = Ok data' ->
  exists items segs low,
    r_items (t_results data) = Some items /\
    r_audio_segments (t_results data) = Some segs /\
    low_confidence_ids items threshold = Ok low /\
    data' = set_audio_segments data (omap (rebuild low items) segs).
Proof.
  intros H. apply filter_iff in H as (items & segs & low & ? & ? & ? & _ & ?).
  by exists items, segs, low.
Qed.

(** The step returns on every document that has both lists and whose
    items can be read. *)
Lemma filter_total data threshold items segs :
  r_items (t_results data) = Some items ->
  r_audio_segments (t_results data) = Some segs ->
  readable items ->
  exists low,
    low_confidence_ids items threshold = Ok low /\
    filter_low_confidence_items_and_segments data threshold =
    Ok (set_audio_segments data (omap (rebuild low items) segs)).
Proof.
  intros Hi Hs Hr.
  destruct (low_confidence_ids_total items threshold Hr) as [low Hlow].
  exists low. split; [done|]. apply filter_iff.
  exists items, segs, low. repeat split; try done.
  by apply readable_collectable.
Qed.

(** What a rewritten segment looks like. *)
Lemma rebuild_Some low items seg seg' :
  rebuild low items seg = Some seg' <->
  ~ blank (rebuilt_transcript low items (seg_items seg)) /\
  seg' = set_items_transcript seg (retained_ids low items (seg_items seg))
           (rebuilt_transcript low items (seg_items seg)).
Proof.
  unfold rebuild.
  destruct (truthy (strip _)) eqn:Ht.
  - apply truthy_strip in Ht. split; [intros [= <-]; by split | by intros [_ ->]].
  - apply truthy_strip_false in Ht. split; [done | tauto].
Qed.

Lemma rebuild_None low items seg :
  rebuild low items seg = None <->
  blank (rebuilt_transcript low items (seg_items seg)).
Proof.
  unfold rebuild. destruct (truthy (strip _)) eqn:Ht.
  - apply truthy_strip in Ht. split; [done | tauto].
  - by apply truthy_strip_false in Ht.
Qed.

End Filter.

(** ** The confidence filter *)

(** C1 (as amended). Step 1 completes on every item list that can be
    read, and whenever it completes, the ids it marks for exclusion are
    exactly the ids of the items whose kind is "pronunciation" and whose
    confidence is strictly below the threshold; an id carried only by
    items of other kinds is never marked, whatever their confidence; an
    item with no confidence recorded is compared as confidence 1.0, so
    that, for a threshold that is not above 1.0, an id whose pronunciation
    items all lack a confidence is never marked. *)
Theorem excluded_ids_exact (items : list item) (threshold : float) :
  (readable items -> exists low, low_confidence_ids items threshold = Ok low) /\
  forall low, low_confidence_ids items threshold = Ok low ->
    (forall n, n ∈ low <->
       exists it, it ∈ items /\ i_id it = n /\
                  i_type it = lit "pronunciation" /\
                  (item_confidence it <? threshold)%float = true) /\
    (forall n, (forall it, it ∈ items -> i_id it = n ->
                           i_type it <> lit "pronunciation") ->
               n ∉ low) /\
    (forall it a alts, i_alternatives it = a :: alts -> confidence a = None ->
                       item_confidence it = 1%float) /\
    ((1 <? threshold)%float = false ->
     forall n, (forall it, it ∈ items -> i_id it = n ->
                           i_type it = lit "pronunciation" ->
                           exists a alts, i_alternatives it = a :: alts /\
                                          confidence a = None) ->
               n ∉ low).
Proof.
  split; [apply low_confidence_ids_total|].
  intros low H. unfold low_confidence_ids in H.
  pose proof (low_confidence_loop _ _ _ _ H) as Hlow.
  assert (Hnone : forall it a alts, i_alternatives it = a :: alts ->
                    confidence a = None -> item_confidence it = 1%float).
  { intros it a alts Ha Hc. unfold item_confidence, confidence_of.
    by rewrite Ha, Hc. }
  repeat split.
  - intros Hn. apply Hlow in Hn as [Hn|(it & ? & ? & ? & ?)].
    + by apply not_elem_of_empty in Hn.
    + by exists it.
  - intros (it & ? & ? & ? & ?). apply Hlow. right. by exists it.
  - intros n Hother Hn. apply Hlow in Hn as [Hn|(it & Hin & Hid & Ht & _)].
    + by apply not_elem_of_empty in Hn.
    + by apply (Hother it).
  - exact Hnone.
  - intros Hth n Hall Hn.
    apply Hlow in Hn as [Hn|(it & Hin & Hid & Ht & Hc)].
    + by apply not_elem_of_empty in Hn.
    + destruct (Hall it Hin Hid Ht) as (a & alts & Ha & Hnc).
      rewrite (Hnone it a alts Ha Hnc) in Hc. congruence.
Qed.

Lemma excluded_ids_exact_witness :
  readable Sample.items /\
  low_confidence_ids Sample.items 0.25 = Ok Sample.low /\
  (2 ∈ Sample.low <->
     exists it, it ∈ Sample.items /\ i_id it = 2 /\
                i_type it = lit "pronunciation" /\
                (item_confidence it <? 0.25)%float = true).
Proof.
  split; [repeat constructor; discriminate|]. split; [reflexivity|].
  apply (excluded_ids_exact Sample.items 0.25). reflexivity.
Defined.

(** C1, as stated, fails for a threshold above 1.0: a pronunciation with
    no confidence recorded is then marked for exclusion. *)
Lemma unscored_item_excluded_above_one :
  exists low, low_confidence_ids [Sample.unscored] 2 = Ok low /\
              confidence <$> head (i_alternatives Sample.unscored) = Some None /\
              i_id Sample.unscored ∈ low.
Proof.
  exists ({[ 7 ]} ∪ ∅). split; [reflexivity|]. split; [reflexivity|].
  apply elem_of_union_l, elem_of_singleton. reflexivity.
Qed.

(** ** Segment reconstruction *)

Section Reconstruction.

Context {Extra : Type}.
Implicit Types (seg : @segment Extra) (data : @transcript Extra).
Implicit Types (segs cleaned : list (@segment Extra)).

(** C2. On a document whose items can be read the step returns, ids
    without an item included; and whenever it returns, every segment that
    survives carries, as its new id list, the ids of the original list
    that are not excluded and are resolved by an item (all the ids that
    are not excluded, when none is dangling), and, as its new transcript,
    the contents of the items its new ids resolve to, in the original
    order, joined by single spaces. *)
Theorem surviving_segment_rebuilt data threshold items segs :
  r_items (t_results data) = Some items ->
  r_audio_segments (t_results data) = Some segs ->
  (readable items ->
   exists data',
     filter_low_confidence_items_and_segments data threshold = Ok data') /\
  forall data',
    filter_low_confidence_items_and_segments data threshold = Ok data' ->
    exists low cleaned,
      low_confidence_ids items threshold = Ok low /\
      r_audio_segments (t_results data') = Some cleaned /\
      forall seg', seg' ∈ cleaned ->
        exists seg, seg ∈ segs /\
          seg_items seg' =
            filter (fun n => (n ∉ low) /\ is_Some (matched_item items n))
                   (seg_items seg) /\
          (Forall (fun n => is_Some (matched_item items n)) (seg_items seg) ->
           seg_items seg' = filter (fun n => n ∉ low) (seg_items seg)) /\
          exists words,
            Forall2 (fun n w => exists m a alts,
                       matched_item items n = Some m /\
                       i_alternatives m = a :: alts /\ w = content a)
                    (seg_items seg') words /\
            seg_transcript seg' = Some (join_space words).
Proof.
  intros Hi Hs. split.
  { intros Hr.
    destruct (filter_total data threshold items segs Hi Hs Hr) as (low & _ & Hf).
    by eexists. }
  intros data' Hf.
  apply filter_iff in Hf as (items' & segs' & low & Hi' & Hs' & Hlow & Hc & ->).
  rewrite Hi in Hi'. injection Hi' as <-.
  rewrite Hs in Hs'. injection Hs' as <-.
  exists low, (omap (rebuild low items) segs).
  split; [done|]. split; [done|].
  intros seg' Hin. apply list_elem_of_omap in Hin as (seg & Hin & Hre).
  apply rebuild_Some in Hre as [_ ->]. exists seg. simpl.
  split; [done|]. split; [done|]. split.
  - intros Hall. unfold retained_ids. apply filter_ext_elem.
    rewrite Forall_forall in Hall. intros n Hn.
    specialize (Hall n Hn). tauto.
  - exists (map (content_of items) (retained_ids low items (seg_items seg))).
    split; [|done]. apply Forall2_fmap_r, Forall_Forall2_diag, Forall_forall.
    intros n Hn.
    unfold collectable in Hc. rewrite Forall_forall in Hc.
    specialize (Hc seg Hin). rewrite Forall_forall in Hc.
    specialize (Hc n Hn).
    apply list_elem_of_filter in Hn as [[_ [m Hm]] _].
    specialize (Hc m Hm).
    destruct (i_alternatives m) as [|a alts] eqn:Ha; [done|].
    exists m, a, alts. repeat split; try done.
    unfold content_of. rewrite Hm. destruct m; simpl in *. by rewrite Ha.
Qed.

(** C9. On a document whose items can be read the step returns; and it
    leaves the item list and every other key of the document as they
    were: only the segment list is replaced; and each surviving segment is
    one of the input, in the input's order, with only its id list and its
    transcript rewritten. *)
Theorem filter_frame data threshold items segs :
  r_items (t_results data) = Some items ->
  r_audio_segments (t_results data) = Some segs ->
  (readable items ->
   exists data',
     filter_low_confidence_items_and_segments data threshold = Ok data') /\
  forall data',
    filter_low_confidence_items_and_segments data threshold = Ok data' ->
    r_items (t_results data') = r_items (t_results data) /\
    r_audio (t_results data') = r_audio (t_results data) /\
    r_rest (t_results data') = r_rest (t_results data) /\
    t_rest data' = t_rest data /\
    exists cleaned kept,
      r_audio_segments (t_results data') = Some cleaned /\
      kept `sublist_of` segs /\
      Forall2 (fun seg seg' =>
                 seg_start_time seg' = seg_start_time seg /\
                 seg_end_time seg' = seg_end_time seg /\
                 seg_alternatives seg' = seg_alternatives seg /\
                 seg_rest seg' = seg_rest seg) kept cleaned.
Proof.
  intros Hi Hs. split.
  { intros Hr.
    destruct (filter_total data threshold items segs Hi Hs Hr) as (low & _ & Hf).
    by eexists. }
  intros data' H.
  apply filter_ok in H as (items' & segs' & low & Hi' & Hs' & Hlow & ->).
  rewrite Hi in Hi'. injection Hi' as <-.
  rewrite Hs in Hs'. injection Hs' as <-.
  simpl. repeat split; try done.
  exists (omap (rebuild low items) segs),
         (filter (fun seg => is_Some (rebuild low items seg)) segs).
  repeat split; try done; [apply sublist_filter|].
  clear Hs. induction segs as [|seg segs IH]; simpl; [constructor|].
  rewrite filter_cons.
  destruct (rebuild low items seg) as [seg'|] eqn:Hre.
  - rewrite decide_True by (by eexists). constructor; [|done].
    by apply rebuild_Some in Hre as [_ ->].
  - rewrite decide_False by (by intros [? ?]). done.
Qed.

(** C8 (as amended). The step is idempotent on its own outputs: applied,
    with the same threshold, to a document it has returned, it returns
    that document unchanged. *)
Theorem filter_idempotent data threshold data' :
  filter_low_confidence_items_and_segments data threshold = Ok data' ->
  filter_low_confidence_items_and_segments data' threshold = Ok data'.
Proof.
  intros H. apply filter_iff in H as (items & segs & low & Hi & Hs & Hlow & Hc & ->).
  apply filter_iff.
  exists items, (omap (rebuild low items) segs), low. simpl.
  repeat split; try done.
  - unfold collectable in *. apply Forall_forall. intros seg' Hin.
    apply list_elem_of_omap in Hin as (seg & Hin & Hre).
    apply rebuild_Some in Hre as [_ ->]. simpl.
    rewrite retained_ids_idem. rewrite Forall_forall in Hc. by apply Hc.
  - unfold set_audio_segments. simpl. do 2 f_equal. f_equal.
    clear Hs Hc. induction segs as [|seg segs IH]; simpl; [done|].
    destruct (rebuild low items seg) as [seg'|] eqn:Hre; simpl; [|done].
    assert (Hfix : rebuild low items seg' = Some seg').
    { apply rebuild_Some in Hre as [Hnb ->]. apply rebuild_Some.
      unfold rebuilt_transcript in *. simpl. rewrite retained_ids_idem.
      split; [done|]. done. }
    rewrite Hfix. by f_equal.
Qed.

End Reconstruction.

Lemma surviving_segment_rebuilt_witness :
  readable Sample.items /\
  filter_low_confidence_items_and_segments Sample.hello_goodbye 0.25
    = Ok Sample.hello_goodbye_cleaned /\
  exists low cleaned,
    low_confidence_ids Sample.items 0.25 = Ok low /\
    r_audio_segments (t_results Sample.hello_goodbye_cleaned) = Some cleaned.
Proof.
  split; [repeat constructor; discriminate|]. split; [reflexivity|].
  destruct (surviving_segment_rebuilt Sample.hello_goodbye 0.25
              Sample.items Sample.segments eq_refl eq_refl) as [_ H].
  destruct (H Sample.hello_goodbye_cleaned eq_refl)
    as (low & cleaned & H1 & H2 & _).
  exists low, cleaned. split; assumption.
Defined.

(** A dangling id is skipped without an exception, and a segment left
    without words is dropped. *)
Example dangling_id_skipped :
  filter_low_confidence_items_and_segments Sample.dangling 0.25
    = Ok Sample.dangling_cleaned.
Proof. reflexivity. Qed.

Lemma filter_frame_witness :
  filter_low_confidence_items_and_segments Sample.hello_goodbye 0.25
    = Ok Sample.hello_goodbye_cleaned /\
  r_items (t_results Sample.hello_goodbye_cleaned)
    = r_items (t_results Sample.hello_goodbye).
Proof.
  split; [reflexivity|].
  apply (filter_frame Sample.hello_goodbye 0.25 Sample.items Sample.segments
           eq_refl eq_refl).
  reflexivity.
Defined.

Lemma filter_idempotent_witness :
  filter_low_confidence_items_and_segments Sample.hello_goodbye 0.25
    = Ok Sample.hello_goodbye_cleaned /\
  filter_low_confidence_items_and_segments Sample.hello_goodbye_cleaned 0.25
    = Ok Sample.hello_goodbye_cleaned.
Proof.
  split; [reflexivity|].
  apply (filter_idempotent Sample.hello_goodbye 0.25). reflexivity.
Defined.

(** C8, as stated, fails: in this document no item is below the
    threshold, yet the step rewrites the transcript of its segment, which
    was not the space-joined contents of its items. *)
Lemma filter_changes_unfiltered_document :
  (exists items, r_items (t_results Sample.sentence) = Some items /\
                 low_confidence_ids items 0.25 = Ok ∅) /\
  filter_low_confidence_items_and_segments Sample.sentence 0.25
    = Ok Sample.sentence_cleaned /\
  Sample.sentence_cleaned <> Sample.sentence.
Proof.
  split; [by eexists|]. split; [reflexivity|]. discriminate.
Qed.

(** ** The translator's replies *)

Lemma failure_iff (r : reply) :
  failure r <-> exists e, read_translation r = Raise e.
Proof.
  split.
  - intros [e|blocks| | |b blocks Hb]; simpl; try by eexists.
    rewrite Hb. by eexists.
  - intros [e H]. destruct r as [e'|[] blocks]; simpl in H;
      [constructor | constructor |].
    destruct blocks as [[|b blocks]|]; simpl in H; try constructor.
    destruct (text b) eqn:Hb; [done | by constructor].
Qed.

Lemma read_translation_nonempty (r : reply) (t : str) :
  read_translation r = Ok t -> t <> [].
Proof.
  destruct r as [e|[] blocks]; simpl; try done.
  destruct (default [] blocks) as [|b ?]; [done|].
  destruct (text b) as [t'|]; [|done].
  intros [= <-]. by destruct (decide (strip t' = [])).
Qed.

(** Tries each filler word as the witness of a match. *)
Ltac pick_filler_word :=
  let try_word w :=
    exists (lit w);
    split; [rewrite !elem_of_cons; tauto | (left; reflexivity) || (right; reflexivity)]
  in
  first [ try_word "um"%string | try_word "uh"%string | try_word "so"%string
        | try_word "well"%string | try_word "you know"%string
        | try_word "i mean"%string ].

Lemma fillers_filler_words (s : str) :
  s ∈ fillers <-> exists w, w ∈ filler_words /\ (s = w \/ s = w ++ lit ",").
Proof.
  unfold fillers, filler_words. simpl.
  rewrite !elem_of_cons, elem_of_nil. split.
  - intros H. repeat (destruct H as [->|H]; [pick_filler_word|]). done.
  - intros (w & Hw & H). rewrite !elem_of_cons, elem_of_nil in Hw.
    repeat (destruct Hw as [->|Hw]; [destruct H as [-> | ->]; tauto|]).
    done.
Qed.

Lemma occurs_in_app_r (needle before : str) : occurs_in needle (before ++ needle).
Proof. exists before, []. by rewrite app_nil_r. Qed.

Section Translation.

Context {Extra : Type}.
Variable lower : str -> str.
Variable bedrock : nat -> request -> reply.
Implicit Types (entry seg : @segment Extra) (data : @transcript Extra).
Implicit Types (segs cleaned : list (@segment Extra)).
Implicit Types (st : list subtitle * nat).

Lemma fallback_text_filler (english_text : str) :
  filler_match lower english_text ->
  fallback_text lower english_text = placeholder.
Proof.
  unfold fallback_text, filler_match. intros H.
  by rewrite decide_True by (by apply fillers_filler_words).
Qed.

Lemma fallback_text_other (english_text : str) :
  ~ filler_match lower english_text ->
  fallback_text lower english_text = error_tag ++ english_text.
Proof.
  unfold fallback_text, filler_match. intros H.
  by rewrite decide_False by (by rewrite fillers_filler_words).
Qed.

Lemma translated_text_nonempty (english_text : str) (r : reply) :
  translated_text lower english_text r <> [].
Proof.
  unfold translated_text.
  destruct (read_translation r) as [t|e] eqn:Hr.
  - by apply read_translation_nonempty in Hr.
  - unfold fallback_text. by destruct (decide _).
Qed.

Lemma or_empty (t : str) : (if truthy t then t else []) = t.
Proof. by destruct t. Qed.

Lemma translate_step_text st entry limit english_text :
  timed entry limit -> english_text_of entry = Some english_text ->
  translate_step lower bedrock st entry =
  Ok (st.1 ++ [subtitle_of lower bedrock st.2 entry limit english_text], S st.2).
Proof.
  unfold translate_step, timed, subtitle_of. intros -> ->. simpl.
  by rewrite or_empty.
Qed.

Lemma translate_step_ok st entry st' :
  translate_step lower bedrock st entry = Ok st' ->
  exists limit, timed entry limit /\
    match english_text_of entry with
    | Some english_text =>
        st' = (st.1 ++ [subtitle_of lower bedrock st.2 entry limit english_text], S st.2)
    | None => st' = st
    end.
Proof.
  unfold translate_step, timed, subtitle_of.
  destruct (max_translated_characters _ _) as [limit|]; simpl; [|done].
  intros H. exists limit. split; [done|].
  destruct (english_text_of entry); inversion H; [|done].
  by rewrite or_empty.
Qed.

(** The loop completes, whatever the translator replies, as soon as the
    limit of every entry is computed. *)
Lemma translate_loop_total segs st :
  Forall (fun entry => exists limit, timed entry limit) segs ->
  exists st', for_each (translate_step lower bedrock) segs st = Ok st'.
Proof.
  intros H. apply for_each_total. eapply Forall_impl; [exact H|].
  intros entry [limit Hl] s. unfold translate_step. unfold timed in Hl.
  rewrite Hl. simpl. destruct (english_text_of entry); by eexists.
Qed.

(** The subtitles a completed loop has appended: one for each entry with a
    text, in the order of the entries. *)
Lemma translate_loop_ok segs st st' :
  for_each (translate_step lower bedrock) segs st = Ok st' ->
  exists new,
    st'.1 = st.1 ++ new /\
    Forall2 (fun entry sub =>
               exists n limit english_text,
                 timed entry limit /\
                 english_text_of entry = Some english_text /\
                 sub = subtitle_of lower bedrock n entry limit english_text)
            (filter (fun entry => is_Some (english_text_of entry)) segs) new.
Proof.
  revert st. induction segs as [|entry segs IH]; intros st H; simpl in H.
  - inversion H. exists []. by rewrite app_nil_r.
  - destruct (translate_step lower bedrock st entry) as [st1|] eqn:Hstep;
      simpl in H; [|done].
    apply translate_step_ok in Hstep as (limit & Hl & Hst1).
    apply IH in H as (new & Hnew & Hall). rewrite filter_cons.
    destruct (english_text_of entry) as [english_text|] eqn:Ht.
    + rewrite decide_True by (by eexists). subst st1. simpl in Hnew.
      exists (subtitle_of lower bedrock st.2 entry limit english_text :: new).
      split; [by rewrite Hnew, <- app_assoc|].
      constructor; [|done]. by exists st.2, limit, english_text.
    + rewrite decide_False by (by intros [? ?]). subst st1. by exists new.
Qed.

(** What [lambda_handler] returns when it returns. *)
Lemma lambda_handler_ok data subs :
  lambda_handler lower bedrock data = Ok subs ->
  exists data' cleaned k,
    filter_low_confidence_items_and_segments data 0.25 = Ok data' /\
    r_audio_segments (t_results data') = Some cleaned /\
    for_each (translate_step lower bedrock) cleaned ([], 0%nat) = Ok (subs, k).
Proof.
  unfold lambda_handler. intros H.
  destruct (filter_low_confidence_items_and_segments data 0.25)
    as [data'|] eqn:Hf; simpl in H; [|done].
  pose proof Hf as Hf'.
  apply filter_ok in Hf' as (items & segs & low & _ & _ & _ & ->).
  unfold segments_to_translate in H. simpl in H.
  destruct (for_each _ _ _) as [[subs' k]|] eqn:Hloop; simpl in H; [|done].
  inversion H; subst. by eexists _, _, k.
Qed.

(** [lambda_handler] returns, whatever the translator replies, on every
    document that has both lists, whose items can be read and whose
    segments have a limit. *)
Lemma lambda_handler_total data items segs :
  r_items (t_results data) = Some items ->
  r_audio_segments (t_results data) = Some segs ->
  readable items ->
  Forall (fun seg => exists limit, timed seg limit) segs ->
  exists subs, lambda_handler lower bedrock data = Ok subs.
Proof.
  intros Hi Hs Hr Ht. unfold lambda_handler.
  destruct (filter_total data 0.25 items segs Hi Hs Hr) as (low & _ & ->).
  simpl.
  destruct (translate_loop_total (omap (rebuild low items) segs) ([], 0%nat))
    as [st ->]; [|by eexists].
  apply Forall_forall. intros seg' Hin.
  apply list_elem_of_omap in Hin as (seg & Hin & Hre).
  apply rebuild_Some in Hre as [_ ->].
  rewrite Forall_forall in Ht. exact (Ht seg Hin).
Qed.

End Translation.

(** ** The translation loop *)

Section Subtitles.

Context {Extra : Type}.
Variable lower : str -> str.
Variable bedrock : nat -> request -> reply.
Implicit Types (entry seg : @segment Extra) (data : @transcript Extra).
Implicit Types (segs cleaned : list (@segment Extra)).
Implicit Types (st : list subtitle * nat).

(** C4. When the request for a segment fails (request error, error-shaped
    response, response without a usable content), the target text is the
    single placeholder character, and not the tagged error string, if the
    source text, trimmed and lower-cased, is one of the filler words "um",
    "uh", "so", "well", "you know", "i mean", with or without a trailing
    comma; otherwise it is the error tag followed by the untranslated
    source text; in both cases the loop goes on with the subtitle
    appended, and the loop as a whole completes whatever the replies are,
    once the limit of every entry is computed. *)
Theorem failed_translation_fallback (english_text : str) (r : reply) :
  failure r ->
  (filler_match lower english_text ->
     translated_text lower english_text r = placeholder /\
     length placeholder = 1%nat /\
     placeholder <> error_tag ++ english_text) /\
  (~ filler_match lower english_text ->
     translated_text lower english_text r = error_tag ++ english_text /\
     occurs_in english_text (translated_text lower english_text r)) /\
  (forall st entry limit,
     timed entry limit ->
     english_text_of entry = Some english_text ->
     bedrock st.2 {| req_max_characters := limit;
                     req_english_text := english_text |} = r ->
     translate_step lower bedrock st entry =
     Ok (st.1 ++ [{| start_time := default 0%float (seg_start_time entry);
                     end_time := default 0%float (seg_end_time entry);
                     sub_text := english_text;
                     ja_text := fallback_text lower english_text |}],
         S st.2)) /\
  (forall segs st,
     Forall (fun entry => exists limit, timed entry limit) segs ->
     exists st', for_each (translate_step lower bedrock) segs st = Ok st').
Proof.
  intros Hf. apply failure_iff in Hf as [e He].
  assert (Ht : translated_text lower english_text r =
               fallback_text lower english_text).
  { unfold translated_text. by rewrite He. }
  rewrite Ht. split; [|split; [|split]].
  - intros Hm. rewrite (fallback_text_filler lower _ Hm). by repeat split.
  - intros Hm. rewrite (fallback_text_other lower _ Hm).
    split; [done | apply occurs_in_app_r].
  - intros st entry limit Hl Htext Hr.
    rewrite (translate_step_text lower bedrock st entry limit english_text Hl Htext).
    unfold subtitle_of. by rewrite Hr, Ht.
  - intros segs st. apply translate_loop_total.
Qed.

(** C5. When the request for a segment succeeds and the returned text is
    empty once trimmed, the target text recorded in the subtitle is the
    single placeholder character, so the entry is not empty. *)
Theorem empty_translation_placeholder (english_text t : str)
    (b : content_block) (blocks : list content_block) :
  text b = Some t ->
  strip t = [] ->
  read_translation (Body false (Some (b :: blocks))) = Ok placeholder /\
  length placeholder = 1%nat /\
  (forall st entry limit,
     timed entry limit ->
     english_text_of entry = Some english_text ->
     bedrock st.2 {| req_max_characters := limit;
                     req_english_text := english_text |}
       = Body false (Some (b :: blocks)) ->
     translate_step lower bedrock st entry =
     Ok (st.1 ++ [{| start_time := default 0%float (seg_start_time entry);
                     end_time := default 0%float (seg_end_time entry);
                     sub_text := english_text;
                     ja_text := placeholder |}],
         S st.2)).
Proof.
  intros Hb Ht.
  assert (Hr : read_translation (Body false (Some (b :: blocks)))
               = Ok placeholder).
  { simpl. rewrite Hb, Ht. by rewrite decide_True. }
  repeat split; [done|].
  intros st entry limit Hl Htext Hreply.
  rewrite (translate_step_text lower bedrock st entry limit english_text Hl Htext).
  unfold subtitle_of, translated_text. by rewrite Hreply, Hr.
Qed.

(** C10. Every subtitle that [lambda_handler] emits has a target text of
    at least one character; and it does emit its subtitles, whatever the
    translator replies, on every document that has both lists, whose items
    can be read and whose segments have a limit. *)
Theorem subtitles_have_text data items segs :
  r_items (t_results data) = Some items ->
  r_audio_segments (t_results data) = Some segs ->
  (readable items ->
   Forall (fun seg => exists limit, timed seg limit) segs ->
   exists subs, lambda_handler lower bedrock data = Ok subs) /\
  forall subs, lambda_handler lower bedrock data = Ok subs ->
    Forall (fun sub => (1 <= length (ja_text sub))%nat) subs.
Proof.
  intros Hi Hs. split; [by apply lambda_handler_total|].
  intros subs H.
  apply lambda_handler_ok in H as (data' & cleaned & k & _ & _ & Hloop).
  apply translate_loop_ok in Hloop as (new & Hnew & Hall). simpl in Hnew.
  subst new. apply Forall2_Forall_r with (1 := Hall).
  apply Forall_forall. intros entry _ sub (n & limit & english & _ & _ & ->).
  simpl. pose proof (translated_text_nonempty lower english
    (bedrock n {| req_max_characters := limit; req_english_text := english |})).
  destruct (translated_text _ _ _); [done | simpl; lia].
Qed.

(** C6. On a document whose items can be read the step returns; and the
    segments it returns are exactly the input segments whose rebuilt
    transcript is not blank, rewritten, in the input's order: a
    sub-sequence of the input, in which no segment with an empty or
    white-space transcript remains; and [lambda_handler] emits no more
    subtitles than the input has segments. *)
Theorem blank_segments_dropped data threshold items segs :
  r_items (t_results data) = Some items ->
  r_audio_segments (t_results data) = Some segs ->
  (readable items ->
   exists data',
     filter_low_confidence_items_and_segments data threshold = Ok data') /\
  (forall data',
     filter_low_confidence_items_and_segments data threshold = Ok data' ->
     exists low cleaned,
       low_confidence_ids items threshold = Ok low /\
       r_audio_segments (t_results data') = Some cleaned /\
       let kept :=
         filter (fun seg =>
                   ~ blank (rebuilt_transcript low items (seg_items seg)))
                segs in
       kept `sublist_of` segs /\
       cleaned =
         map (fun seg =>
                set_items_transcript seg
                  (retained_ids low items (seg_items seg))
                  (rebuilt_transcript low items (seg_items seg))) kept /\
       Forall (fun seg' => exists t, seg_transcript seg' = Some t /\ ~ blank t)
              cleaned /\
       (length cleaned <= length segs)%nat) /\
  (forall subs, lambda_handler lower bedrock data = Ok subs ->
                (length subs <= length segs)%nat).
Proof.
  intros Hi Hs. split; [|split].
  { intros Hr.
    destruct (filter_total data threshold items segs Hi Hs Hr) as (low & _ & Hf).
    by eexists. }
  - intros data' H.
    apply filter_ok in H as (items' & segs' & low & Hi' & Hs' & Hlow & ->).
    rewrite Hi in Hi'. injection Hi' as <-.
    rewrite Hs in Hs'. injection Hs' as <-.
    exists low, (omap (rebuild low items) segs).
    do 2 (split; [done|]). cbv zeta.
    assert (Hmap : omap (rebuild low items) segs =
              map (fun seg =>
                     set_items_transcript seg
                       (retained_ids low items (seg_items seg))
                       (rebuilt_transcript low items (seg_items seg)))
                  (filter (fun seg =>
                     ~ blank (rebuilt_transcript low items (seg_items seg)))
                     segs)).
    { clear Hs. induction segs as [|seg segs IH]; [done|].
      simpl. rewrite filter_cons.
      destruct (rebuild low items seg) as [seg'|] eqn:Hre.
      - apply rebuild_Some in Hre as [Hnb ->].
        rewrite decide_True by done. simpl. by f_equal.
      - apply rebuild_None in Hre. by rewrite decide_False by tauto. }
    split; [apply sublist_filter|]. split; [done|].
    split; [|apply length_omap_le].
    apply Forall_forall. intros seg' Hin.
    apply list_elem_of_omap in Hin as (seg & _ & Hre).
    apply rebuild_Some in Hre as [Hnb ->]. by eexists.
  - intros subs Hsubs.
    apply lambda_handler_ok in Hsubs as (data2 & cleaned2 & k & Hf & Hc & Hloop).
    apply filter_ok in Hf as (items2 & segs2 & low2 & _ & Hs2 & _ & ->).
    simpl in Hc. rewrite Hs in Hs2. injection Hs2 as <-. injection Hc as <-.
    apply translate_loop_ok in Hloop as (new & Hnew & Hall). simpl in Hnew.
    subst new. apply Forall2_length in Hall. rewrite <- Hall.
    etransitivity; [apply length_filter | apply length_omap_le].
Qed.

(** C7 (what the code does). On a document with an item list and no
    segment list, [lambda_handler] stops with the [KeyError] that Step 2
    raises on ["audio_segments"]; the branch written for this case would
    read the key ["audio"], which the document does not have either. *)
Theorem missing_segments_abort data (items : list item) :
  r_items (t_results data) = Some items ->
  r_audio_segments (t_results data) = None ->
  lambda_handler lower bedrock data = Raise (KeyError "audio_segments") /\
  segments_to_translate data = subscript "audio" (r_audio (t_results data)).
Proof.
  intros Hi Hs. unfold lambda_handler, segments_to_translate,
    filter_low_confidence_items_and_segments.
  by rewrite Hi, Hs.
Qed.

End Subtitles.

(** The end-to-end scenario of the specification: two subtitles, in the
    order of the segments, the low-confidence word left out of the
    first. *)
Example end_to_end_scenario :
  exists a b,
    lambda_handler ascii_lower Sample.echo Sample.hello_goodbye = Ok [a; b] /\
    sub_text a = lit "Hello" /\ sub_text b = lit "Goodbye" /\
    (start_time a, end_time a) = (0, 2)%float /\
    (start_time b, end_time b) = (2, 4)%float.
Proof. eexists _, _. repeat split. Qed.

Lemma failed_translation_fallback_witness :
  failure (InvokeFailed RuntimeError) /\
  filler_match ascii_lower (lit " Um, ") /\
  translated_text ascii_lower (lit " Um, ") (InvokeFailed RuntimeError)
    = placeholder /\
  ~ filler_match ascii_lower (lit "Hello world") /\
  translated_text ascii_lower (lit "Hello world") (InvokeFailed RuntimeError)
    = lit "[TRANSLATION_ERROR] Hello world".
Proof.
  assert (Hf : failure (InvokeFailed RuntimeError)) by constructor.
  assert (Hum : filler_match ascii_lower (lit " Um, ")).
  { exists (lit "um"). split; [by left | by right]. }
  assert (Hhello : ~ filler_match ascii_lower (lit "Hello world")).
  { unfold filler_match. rewrite <- fillers_filler_words.
    apply (bool_decide_eq_false_1 _). reflexivity. }
  split; [exact Hf|]. split; [exact Hum|]. split; [|split; [exact Hhello|]].
  - apply (@failed_translation_fallback unit ascii_lower Sample.down
             (lit " Um, ") _ Hf), Hum.
  - apply (@failed_translation_fallback unit ascii_lower Sample.down
             (lit "Hello world") _ Hf), Hhello.
Defined.

Lemma empty_translation_placeholder_witness :
  strip (lit "  ") = [] /\
  read_translation (Body false (Some [{| text := Some (lit "  ") |}]))
    = Ok placeholder.
Proof.
  split; [reflexivity|].
  apply (@empty_translation_placeholder unit ascii_lower Sample.echo
           (lit "um") (lit "  ") {| text := Some (lit "  ") |} []);
    reflexivity.
Defined.

Lemma subtitles_have_text_witness :
  exists subs,
    lambda_handler ascii_lower Sample.echo Sample.hello_goodbye = Ok subs /\
    Forall (fun sub => (1 <= length (ja_text sub))%nat) subs.
Proof.
  eexists. split; [reflexivity|].
  apply (@subtitles_have_text unit ascii_lower Sample.echo
           Sample.hello_goodbye Sample.items Sample.segments eq_refl eq_refl).
  reflexivity.
Defined.

Lemma blank_segments_dropped_witness :
  filter_low_confidence_items_and_segments Sample.hello_goodbye 0.25
    = Ok Sample.hello_goodbye_cleaned /\
  exists cleaned,
    r_audio_segments (t_results Sample.hello_goodbye_cleaned) = Some cleaned /\
    (length cleaned <= length Sample.segments)%nat.
Proof.
  split; [reflexivity|].
  destruct (@blank_segments_dropped unit ascii_lower Sample.echo
              Sample.hello_goodbye 0.25 Sample.items Sample.segments
              eq_refl eq_refl) as (_ & H & _).
  destruct (H Sample.hello_goodbye_cleaned eq_refl)
    as (low & cleaned & _ & Hc & _ & _ & _ & Hlen).
  exists cleaned. split; assumption.
Defined.

Lemma missing_segments_abort_witness :
  r_audio_segments (t_results Sample.words_only) = None /\
  lambda_handler ascii_lower Sample.echo Sample.words_only
    = Raise (KeyError "audio_segments").
Proof.
  split; [reflexivity|].
  apply (@missing_segments_abort unit ascii_lower Sample.echo
           Sample.words_only Sample.items); reflexivity.
Defined.

(** ** Binary64 rounding, in integer arithmetic *)

Lemma rne_div_bounds M n : 0 <= n -> M / 2 ^ n <= rne_div M n <= M / 2 ^ n + 1.
Proof.
  intros Hn. unfold rne_div.
  destruct (_ ?= _); [destruct (Z.even _)| |]; lia.
Qed.

Lemma rne_div_mono A B n : 0 <= n -> A <= B -> rne_div A n <= rne_div B n.
Proof.
  intros Hn HAB.
  assert (Hp : 0 < 2 ^ n) by (apply Z.pow_pos_nonneg; lia).
  pose proof (Z.div_le_mono A B (2 ^ n) Hp HAB) as Hq.
  destruct (Z.eq_dec (A / 2 ^ n) (B / 2 ^ n)) as [Heq|Hne].
  - assert (Hr : A mod 2 ^ n <= B mod 2 ^ n).
    { rewrite !Z.mod_eq by lia. rewrite Heq. lia. }
    unfold rne_div. rewrite Heq. clear Heq Hq HAB.
    revert Hr. generalize (A mod 2 ^ n). intros rA.
    generalize (B mod 2 ^ n). intros rB. generalize (B / 2 ^ n). intros q.
    generalize (2 ^ n). intros p Hr.
    destruct (Z.compare_spec (2 * rA) p); destruct (Z.compare_spec (2 * rB) p);
      destruct (Z.even q); lia.
  - pose proof (rne_div_bounds A n Hn). pose proof (rne_div_bounds B n Hn). lia.
Qed.

Lemma rne_div_scale M n k :
  0 <= n -> 0 <= k -> rne_div (M * 2 ^ k) (n + k) = rne_div M n.
Proof.
  intros Hn Hk.
  assert (Hpn : 0 < 2 ^ n) by (apply Z.pow_pos_nonneg; lia).
  assert (Hpk : 0 < 2 ^ k) by (apply Z.pow_pos_nonneg; lia).
  unfold rne_div. rewrite Z.pow_add_r by lia.
  rewrite Z.div_mul_cancel_r by lia.
  rewrite Z.mul_mod_distr_r by lia.
  rewrite Z.mul_assoc, <- Zmult_compare_compat_r by lia. reflexivity.
Qed.

(** ** The shift-and-round of [SpecFloat], read arithmetically *)

Lemma iter_pos_nat {A} (f : A -> A) (p : positive) (x : A) :
  SpecFloat.iter_pos f p x = Nat.iter (Pos.to_nat p) f x.
Proof.
  revert x. induction p as [p IH|p IH|]; intros x; cbn [SpecFloat.iter_pos].
  - rewrite !IH, Pos2Nat.inj_xI, <- Nat.iter_succ_r, <- Nat.iter_add.
    f_equal. lia.
  - rewrite !IH, Pos2Nat.inj_xO, <- Nat.iter_add. f_equal. lia.
  - reflexivity.
Qed.

Lemma shr_1_nonneg (m : Z) (r s : bool) :
  0 <= m ->
  shr_1 {| shr_m := m; shr_r := r; shr_s := s |} =
  {| shr_m := Z.div2 m; shr_r := Z.odd m; shr_s := r || s |}.
Proof. destruct m as [|[p|p|]|p]; simpl; intros H; try reflexivity; lia. Qed.

Lemma shifted_succ M k mrs :
  1 <= k -> shifted M k mrs -> shifted M (k + 1) (shr_1 mrs).
Proof.
  intros Hk (low & Hlow & HM & Hs & Hm).
  destruct mrs as [m r s]. cbn [shr_m shr_r shr_s] in *.
  rewrite shr_1_nonneg by done.
  exists ((if r then 2 ^ (k - 1) else 0) + low). cbn [shr_m shr_r shr_s].
  replace (k + 1 - 1) with k by lia.
  assert (Hp : 2 ^ k = 2 * 2 ^ (k - 1)).
  { rewrite <- Z.pow_succ_r by lia. f_equal. lia. }
  assert (Hp1 : 2 ^ (k + 1) = 2 * 2 ^ k) by (rewrite Z.pow_add_r; lia).
  assert (Hpos : 0 < 2 ^ (k - 1)) by (apply Z.pow_pos_nonneg; lia).
  pose proof (Z.div2_odd m) as Hodd.
  assert (0 <= Z.div2 m) by (apply Z.div2_nonneg; lia).
  repeat split.
  - destruct r; lia.
  - destruct r; lia.
  - rewrite Hp1, HM. destruct (Z.odd m); simpl in Hodd; destruct r; nia.
  - rewrite Hs. destruct r; simpl.
    + destruct (Z.eqb_spec (2 ^ (k - 1) + low) 0); [lia | done].
    + done.
  - done.
Qed.

Lemma shifted_iter M (k : nat) :
  0 <= M ->
  shifted M (Z.of_nat (S k))
    (Nat.iter (S k) shr_1 {| shr_m := M; shr_r := false; shr_s := false |}).
Proof.
  intros HM. induction k as [|k IH].
  - cbn [Nat.iter nat_rect]. rewrite shr_1_nonneg by done. exists 0.
    cbn [shr_m shr_r shr_s]. simpl (Z.of_nat 1).
    pose proof (Z.div2_odd M). assert (0 <= Z.div2 M) by (apply Z.div2_nonneg; lia).
    repeat split; try lia. destruct (Z.odd M); simpl in *; lia.
  - replace (Z.of_nat (S (S k))) with (Z.of_nat (S k) + 1) by lia.
    change (Nat.iter (S (S k)) shr_1 ?x) with (shr_1 (Nat.iter (S k) shr_1 x)).
    apply shifted_succ; [lia | exact IH].
Qed.

Lemma shifted_round M k mrs :
  1 <= k -> shifted M k mrs ->
  round_nearest_even (shr_m mrs) (loc_of_shr_record mrs) = rne_div M k.
Proof.
  intros Hk (low & Hlow & HM & Hs & Hm).
  destruct mrs as [m r s]. simpl in *.
  assert (Hp : 2 ^ k = 2 * 2 ^ (k - 1)).
  { rewrite <- Z.pow_succ_r by lia. f_equal. lia. }
  assert (Hpos : 0 < 2 ^ (k - 1)) by (apply Z.pow_pos_nonneg; lia).
  set (rem := (if r then 2 ^ (k - 1) else 0) + low).
  assert (Hrem : 0 <= rem < 2 ^ k) by (unfold rem; destruct r; lia).
  assert (Hq : M / 2 ^ k = m).
  { symmetry. apply (Z.div_unique_pos M (2 ^ k) m rem); [done|]. unfold rem. lia. }
  assert (Hr : M mod 2 ^ k = rem).
  { symmetry. apply (Z.mod_unique_pos M (2 ^ k) m rem); [done|]. unfold rem. lia. }
  unfold rne_div. rewrite Hq, Hr. subst s.
  destruct (Z.compare_spec (2 * rem) (2 ^ k)) as [Hc|Hc|Hc];
    unfold rem in Hc; destruct r; destruct (Z.eqb_spec low 0);
    simpl; try reflexivity; lia.
Qed.

(** A right shift by [n] positions followed by the rounding. *)
Lemma shr_round (M E n : Z) :
  0 <= M -> 0 < n ->
  let '(mrs, e) := shr {| shr_m := M; shr_r := false; shr_s := false |} E n in
  round_nearest_even (shr_m mrs) (loc_of_shr_record mrs) = rne_div M n /\
  e = E + n.
Proof.
  intros HM Hn. destruct n as [|p|p]; try lia. simpl.
  split; [|done]. rewrite iter_pos_nat.
  destruct (Pos.to_nat p) as [|k] eqn:Hk; [lia|].
  apply shifted_round; [lia|].
  replace (Z.pos p) with (Z.of_nat (S k)) by lia.
  by apply shifted_iter.
Qed.

(** ** Binary64 *)

Lemma fexp_64 (e : Z) : SpecFloat.fexp prec emax e = Z.max (e - 53) (-1074).
Proof. reflexivity. Qed.

Lemma digits2_pos_size (p : positive) : digits2_pos p = Pos.size p.
Proof. induction p; simpl; congruence. Qed.

Lemma digits2_pos_bounds (p : positive) :
  2 ^ (Z.pos (digits2_pos p) - 1) <= Z.pos p < 2 ^ Z.pos (digits2_pos p).
Proof.
  rewrite digits2_pos_size.
  pose proof (Pos.size_gt p) as Hgt. pose proof (Pos.size_le p) as Hle.
  apply Pos2Z.pos_lt_pos in Hgt. apply Pos2Z.pos_le_pos in Hle.
  rewrite Pos2Z.inj_pow in Hgt, Hle.
  change (Z.pos p~0) with (2 * Z.pos p) in Hle.
  assert (H2 : 2 ^ Z.pos (Pos.size p) = 2 * 2 ^ (Z.pos (Pos.size p) - 1)).
  { rewrite <- Z.pow_succ_r by lia. f_equal. lia. }
  lia.
Qed.

(** The rounding of [M * 2^E], for a mantissa that has to be shifted. *)
Lemma binary_round_aux_shift (sx : bool) (M : positive) (E : Z) :
  let f := SpecFloat.fexp prec emax (Z.pos (digits2_pos M) + E) in
  let m' := rne_div (Z.pos M) (f - E) in
  E < f ->
  0 <= m' <= 2 ^ 53 /\
  binary_round_aux prec emax sx (Z.pos M) E loc_Exact =
    if m' =? 0 then S754_zero sx
    else if m' =? 2 ^ 53 then
      if f + 1 <=? 971 then S754_finite sx (2 ^ 52)%positive (f + 1)
      else S754_infinity sx
    else
      if f <=? 971 then S754_finite sx (Z.to_pos m') f
      else S754_infinity sx.
Proof.
  intros f m' Hshift.
  assert (Hm' : 0 <= m' <= 2 ^ 53).
  { pose proof (rne_div_bounds (Z.pos M) (f - E) ltac:(lia)) as [Hlo Hhi].
    fold m' in Hlo, Hhi.
    pose proof (digits2_pos_bounds M) as [_ HM].
    assert (Hq : 0 <= Z.pos M / 2 ^ (f - E)) by (apply Z.div_pos; lia).
    assert (Z.pos M / 2 ^ (f - E) < 2 ^ 53); [|lia].
    apply Z.div_lt_upper_bound; [lia|].
    rewrite <- Z.pow_add_r by lia.
    eapply Z.lt_le_trans; [exact HM|]. apply Z.pow_le_mono_r; [lia|].
    unfold f. rewrite fexp_64. lia. }
  split; [exact Hm'|].
  unfold binary_round_aux, shr_fexp. cbn [shr_record_of_loc Zdigits2].
  fold f.
  pose proof (shr_round (Z.pos M) E (f - E) ltac:(lia) ltac:(lia)) as Hsr.
  destruct (shr _ E (f - E)) as [mrs e]. destruct Hsr as [Hround ->].
  rewrite Hround. fold m'. replace (E + (f - E)) with f by lia.
  assert (Hf : -1074 <= f) by (unfold f; rewrite fexp_64; lia).
  destruct (Z.eqb_spec m' 0) as [H0|H0].
  - rewrite H0. cbn [Zdigits2]. rewrite fexp_64.
    replace (Z.max (0 + f - 53) (-1074) - f) with (- (f - Z.max (f - 53) (-1074)))
      by lia.
    destruct (f - Z.max (f - 53) (-1074)) eqn:Hd; try lia; reflexivity.
  - destruct (Z.eqb_spec m' (2 ^ 53)) as [H53|H53].
    + rewrite H53. change (Zdigits2 (2 ^ 53)) with 54. rewrite fexp_64.
      replace (Z.max (54 + f - 53) (-1074) - f) with 1 by lia.
      reflexivity.
    + destruct m' as [|p|p]; try lia. cbn [Zdigits2].
      pose proof (digits2_pos_bounds p) as [Hlo Hhi].
      assert (Hd : Z.pos (digits2_pos p) <= 53).
      { destruct (Z.le_gt_cases (Z.pos (digits2_pos p)) 53) as [?|Hgt]; [done|].
        assert (2 ^ 53 <= 2 ^ (Z.pos (digits2_pos p) - 1))
          by (apply Z.pow_le_mono_r; lia).
        lia. }
      rewrite fexp_64.
      replace (Z.max (Z.pos (digits2_pos p) + f - 53) (-1074) - f)
        with (- (f - Z.max (Z.pos (digits2_pos p) + f - 53) (-1074))) by lia.
      destruct (f - Z.max (Z.pos (digits2_pos p) + f - 53) (-1074)) eqn:Hz;
        try lia; reflexivity.
Qed.

Lemma shiftl_mono (a b f k : Z) :
  0 <= k -> a <= b * 2 ^ k -> Z.shiftl a f <= Z.shiftl b (f + k).
Proof.
  intros Hk Hab.
  rewrite (Z.add_comm f k), <- Z.shiftl_shiftl by done.
  rewrite (Z.shiftl_mul_pow2 b k) by done.
  destruct (Z.le_gt_cases 0 f) as [Hf|Hf].
  - rewrite !Z.shiftl_mul_pow2 by done.
    apply Z.mul_le_mono_nonneg_r; [apply Z.pow_nonneg; lia | done].
  - rewrite !Z.shiftl_div_pow2 by lia.
    apply Z.div_le_mono; [apply Z.pow_pos_nonneg; lia | done].
Qed.

(** Rounding is monotone: of two numbers [M1 * 2^E1 <= M2 * 2^E2] that
    both have to be shifted, the first gets the smaller exponent and the
    smaller mantissa at that exponent. *)
Lemma round_mono (M1 M2 : positive) (E1 E2 : Z) :
  let f1 := SpecFloat.fexp prec emax (Z.pos (digits2_pos M1) + E1) in
  let f2 := SpecFloat.fexp prec emax (Z.pos (digits2_pos M2) + E2) in
  E1 <= E2 -> Z.pos M1 <= Z.pos M2 * 2 ^ (E2 - E1) ->
  E1 < f1 -> E2 < f2 ->
  f1 <= f2 /\
  rne_div (Z.pos M1) (f1 - E1) <=
  rne_div (Z.pos M2) (f2 - E2) * 2 ^ (f2 - f1).
Proof.
  intros f1 f2 HE Hle Hs1 Hs2.
  pose proof (digits2_pos_bounds M1) as [Hlo1 Hhi1].
  pose proof (digits2_pos_bounds M2) as [Hlo2 Hhi2].
  set (d1 := Z.pos (digits2_pos M1)) in *.
  set (d2 := Z.pos (digits2_pos M2)) in *.
  assert (Hd : d1 + E1 <= d2 + E2).
  { destruct (Z.le_gt_cases (d1 + E1) (d2 + E2)) as [?|Hgt]; [done|].
    assert (Z.pos M2 * 2 ^ (E2 - E1) < 2 ^ (d2 + (E2 - E1))).
    { rewrite Z.pow_add_r by lia.
      apply Z.mul_lt_mono_pos_r; [apply Z.pow_pos_nonneg; lia | done]. }
    assert (2 ^ (d2 + (E2 - E1)) <= 2 ^ (d1 - 1))
      by (apply Z.pow_le_mono_r; lia).
    lia. }
  assert (Hf1 : f1 = Z.max (d1 + E1 - 53) (-1074)) by reflexivity.
  assert (Hf2 : f2 = Z.max (d2 + E2 - 53) (-1074)) by reflexivity.
  assert (Hf : f1 <= f2) by lia.
  split; [exact Hf|].
  destruct (Z.eq_dec f1 f2) as [Heq|Hne].
  - rewrite <- Heq, Z.sub_diag, Z.pow_0_r, Z.mul_1_r.
    rewrite <- (rne_div_scale (Z.pos M2) (f1 - E2) (E2 - E1)) by lia.
    replace (f1 - E2 + (E2 - E1)) with (f1 - E1) by lia.
    apply rne_div_mono; [lia | done].
  - pose proof (binary_round_aux_shift false M1 E1 Hs1) as [[_ Hm1] _].
    fold f1 in Hm1.
    assert (Hn2 : f2 = d2 + E2 - 53) by lia.
    pose proof (rne_div_bounds (Z.pos M2) (f2 - E2) ltac:(lia)) as [Hq _].
    assert (Hq2 : 2 ^ 52 <= Z.pos M2 / 2 ^ (f2 - E2)).
    { apply Z.div_le_lower_bound; [apply Z.pow_pos_nonneg; lia|].
      rewrite <- Z.pow_add_r by lia.
      replace (f2 - E2 + 52) with (d2 - 1) by lia. done. }
    assert (Hp : 2 * 1 <= 2 ^ (f2 - f1)).
    { replace (f2 - f1) with (1 + (f2 - f1 - 1)) by lia.
      rewrite Z.pow_add_r by lia. change (2 ^ 1) with 2.
      apply Z.mul_le_mono_nonneg_l; [lia|].
      assert (0 < 2 ^ (f2 - f1 - 1)) by (apply Z.pow_pos_nonneg; lia). lia. }
    change (2 ^ 53) with (2 ^ 52 * 2) in Hm1.
    etransitivity; [exact Hm1|].
    apply Z.mul_le_mono_nonneg; lia.
Qed.

(** The integer value of a rounded non-negative number. *)
Lemma sf_int_round (M : positive) (E : Z) :
  let f := SpecFloat.fexp prec emax (Z.pos (digits2_pos M) + E) in
  let m' := rne_div (Z.pos M) (f - E) in
  E < f ->
  sf_int (binary_round_aux prec emax false (Z.pos M) E loc_Exact) =
  if (m' =? 0) || ((if m' =? 2 ^ 53 then f + 1 else f) <=? 971)
  then Ok (Z.shiftl m' f) else Raise OverflowError.
Proof.
  intros f m' Hs.
  destruct (binary_round_aux_shift false M E Hs) as [Hm ->].
  fold f. fold m'. fold f in Hm. fold m' in Hm.
  destruct (Z.eqb_spec m' 0) as [->|H0]; [by rewrite Z.shiftl_0_l|].
  destruct (Z.eqb_spec m' (2 ^ 53)) as [->|H53]; simpl orb.
  - destruct (f + 1 <=? 971); [|done]. simpl. f_equal.
    change (Z.pos (2 ^ 52)) with (Z.shiftl (2 ^ 52) 0).
    change (2 ^ 53) with (Z.shiftl (2 ^ 52) 1).
    rewrite !Z.shiftl_shiftl by lia. f_equal. lia.
  - destruct (f <=? 971); [|done]. simpl. by rewrite Z2Pos.id by lia.
Qed.

(** ** Binary64 numbers in canonical form *)

Lemma bounded_canonical (m : positive) (e : Z) :
  bounded prec emax m e = true ->
  e = Z.max (Z.pos (digits2_pos m) + e - 53) (-1074).
Proof.
  unfold bounded, canonical_mantissa. rewrite fexp_64.
  intros H. apply andb_prop in H as [H _]. apply Z.eqb_eq in H. lia.
Qed.

(** The comparison of [SpecFloat], which looks at the exponents first, is
    the comparison of the values on canonical numbers. *)
Lemma canonical_lt (m1 m2 : positive) (e1 e2 : Z) :
  bounded prec emax m1 e1 = true -> bounded prec emax m2 e2 = true ->
  e1 < e2 -> Z.pos m1 < Z.pos m2 * 2 ^ (e2 - e1).
Proof.
  intros H1 H2 He.
  apply bounded_canonical in H1, H2.
  pose proof (digits2_pos_bounds m1) as [_ Hhi].
  pose proof (digits2_pos_bounds m2) as [Hlo _].
  assert (Hd2 : Z.pos (digits2_pos m2) = 53) by lia.
  assert (Hd1 : Z.pos (digits2_pos m1) <= 53) by lia.
  rewrite Hd2 in Hlo. change (2 ^ (53 - 1)) with (2 ^ 52) in Hlo.
  assert (Z.pos m1 < 2 ^ 53).
  { eapply Z.lt_le_trans; [exact Hhi|]. apply Z.pow_le_mono_r; lia. }
  assert (2 * 1 <= 2 ^ (e2 - e1)).
  { replace (e2 - e1) with (1 + (e2 - e1 - 1)) by lia.
    rewrite Z.pow_add_r by lia. change (2 ^ 1) with 2.
    assert (0 < 2 ^ (e2 - e1 - 1)) by (apply Z.pow_pos_nonneg; lia). lia. }
  change (2 ^ 53) with (2 ^ 52 * 2) in *. nia.
Qed.

Lemma SFleb_positive (m1 m2 : positive) (e1 e2 : Z) :
  SFleb (S754_finite false m1 e1) (S754_finite false m2 e2) = true ->
  canonical_le m1 e1 m2 e2.
Proof.
  unfold SFleb, SFcompare, canonical_le.
  destruct (Z.compare_spec e1 e2) as [->|?|?]; [|tauto|done].
  change (Pos.compare_cont Eq m1 m2) with (m1 ?= m2)%positive.
  destruct (Pos.compare_spec m1 m2) as [->|?|?]; intros; try done;
    right; split; lia.
Qed.

Lemma SFleb_negative (m1 m2 : positive) (e1 e2 : Z) :
  SFleb (S754_finite true m1 e1) (S754_finite true m2 e2) = true ->
  canonical_le m2 e2 m1 e1.
Proof.
  unfold SFleb, SFcompare, canonical_le.
  destruct (Z.compare_spec e1 e2) as [->|?|?]; [|done|tauto].
  change (Pos.compare_cont Eq m1 m2) with (m1 ?= m2)%positive.
  destruct (Pos.compare_spec m1 m2) as [->|?|?]; simpl; intros; try done;
    right; split; lia.
Qed.

(** ** The product with the speech rate *)

Lemma chars_per_second_spec :
  Prim2SF chars_per_second = S754_finite false rate_mantissa (-50).
Proof. reflexivity. Qed.

Lemma rate_mantissa_bounds : 2 ^ 52 <= Z.pos rate_mantissa < 2 ^ 53.
Proof. split; [by apply Z.leb_le | by apply Z.ltb_lt]. Qed.

(** The product of a canonical number and the rate always has bits to
    round away. *)
Lemma product_shift (m : positive) (e : Z) :
  bounded prec emax m e = true ->
  e + -50 <
  SpecFloat.fexp prec emax
    (Z.pos (digits2_pos (m * rate_mantissa)) + (e + -50)).
Proof.
  intros Hb. apply bounded_canonical in Hb. rewrite fexp_64.
  pose proof (digits2_pos_bounds m) as [Hlo _].
  pose proof (digits2_pos_bounds (m * rate_mantissa)) as [_ Hhi].
  pose proof rate_mantissa_bounds as [HK _].
  set (d := Z.pos (digits2_pos m)) in *.
  set (D := Z.pos (digits2_pos (m * rate_mantissa))) in *.
  assert (Hd : 0 < d) by (unfold d; lia).
  assert (HD : d + 52 <= D).
  { destruct (Z.le_gt_cases (d + 52) D) as [?|Hgt]; [done|].
    assert (2 ^ D <= 2 ^ (d - 1 + 52)) by (apply Z.pow_le_mono_r; lia).
    rewrite Z.pow_add_r in * by lia. rewrite Pos2Z.inj_mul in Hhi. nia. }
  lia.
Qed.

(** [int(d * 5.68)] does not decrease when the positive number [d]
    grows, and is computed for the smaller number when it is for the
    larger. *)
Lemma product_int_mono (m1 m2 : positive) (e1 e2 : Z) (t2 : Z) :
  bounded prec emax m1 e1 = true -> bounded prec emax m2 e2 = true ->
  canonical_le m1 e1 m2 e2 ->
  sf_int (SF64mul (S754_finite false m2 e2)
                  (S754_finite false rate_mantissa (-50))) = Ok t2 ->
  exists t1,
    sf_int (SF64mul (S754_finite false m1 e1)
                    (S754_finite false rate_mantissa (-50))) = Ok t1 /\
    0 <= t1 <= t2.
Proof.
  intros Hb1 Hb2 Hle. unfold SF64mul, SFmul. cbn [xorb].
  pose proof (product_shift m1 e1 Hb1) as Hs1.
  pose proof (product_shift m2 e2 Hb2) as Hs2.
  rewrite (sf_int_round _ _ Hs1), (sf_int_round _ _ Hs2).
  destruct (binary_round_aux_shift false _ _ Hs1) as [Hm1 _].
  destruct (binary_round_aux_shift false _ _ Hs2) as [Hm2 _].
  assert (Hord : Z.pos (m1 * rate_mantissa) <=
                 Z.pos (m2 * rate_mantissa) * 2 ^ (e2 + -50 - (e1 + -50))).
  { replace (e2 + -50 - (e1 + -50)) with (e2 - e1) by lia.
    rewrite !Pos2Z.inj_mul.
    destruct Hle as [Hlt|[-> Hm]].
    - pose proof (canonical_lt m1 m2 e1 e2 Hb1 Hb2 Hlt). nia.
    - rewrite Z.sub_diag, Z.pow_0_r. nia. }
  assert (HE : e1 + -50 <= e2 + -50) by (destruct Hle; lia).
  destruct (round_mono _ _ _ _ HE Hord Hs1 Hs2) as [Hf Hm].
  set (f1 := SpecFloat.fexp prec emax
               (Z.pos (digits2_pos (m1 * rate_mantissa)) + (e1 + -50))) in *.
  set (f2 := SpecFloat.fexp prec emax
               (Z.pos (digits2_pos (m2 * rate_mantissa)) + (e2 + -50))) in *.
  set (r1 := rne_div (Z.pos (m1 * rate_mantissa)) (f1 - (e1 + -50))) in *.
  set (r2 := rne_div (Z.pos (m2 * rate_mantissa)) (f2 - (e2 + -50))) in *.
  assert (Hp : 0 < 2 ^ (f2 - f1)) by (apply Z.pow_pos_nonneg; lia).
  assert (Ht : 0 <= Z.shiftl r1 f1 <= Z.shiftl r2 f2).
  { split; [apply Z.shiftl_nonneg; lia|].
    pose proof (shiftl_mono r1 r2 f1 (f2 - f1) ltac:(lia) Hm) as Hsh.
    by replace (f1 + (f2 - f1)) with f2 in Hsh by lia. }
  destruct (Z.eqb_spec r2 0) as [H20|H20].
  - assert (r1 = 0) by nia. subst r1. rewrite H, Z.eqb_refl in *.
    intros [= <-]. by eexists.
  - simpl orb. destruct (_ <=? 971) eqn:He2; [|done]. intros [= <-].
    exists (Z.shiftl r1 f1). split; [|done].
    destruct (Z.eqb_spec r1 0) as [H10|H10]; [done|]. simpl orb.
    assert (Hexp : (if r1 =? 2 ^ 53 then f1 + 1 else f1) <= 971); [|].
    { apply Z.leb_le in He2.
      destruct (Z.eqb_spec r1 (2 ^ 53)) as [H1|H1];
        destruct (Z.eqb_spec r2 (2 ^ 53)) as [H2|H2]; try lia.
      destruct (Z.eq_dec f1 f2) as [Heq|Hne]; [|lia].
      rewrite Heq, Z.sub_diag, Z.pow_0_r in Hm. lia. }
    apply Z.leb_le in Hexp. by rewrite Hexp.
Qed.

(** ** Durations *)

Lemma binary_round_aux_sign (sx : bool) (mx ex : Z) (lx : location) :
  match binary_round_aux prec emax sx mx ex lx with
  | S754_zero s | S754_infinity s | S754_finite s _ _ => s = sx
  | S754_nan => True
  end.
Proof.
  unfold binary_round_aux. destruct (shr_fexp _ _ _ _ _) as [mrs' e'].
  destruct (shr_fexp _ _ _ _ _) as [mrs'' e''].
  destruct (shr_m mrs''); [done| |done]. by destruct (_ <=? _).
Qed.

Lemma binary_normalize_not_negative (m e : Z) :
  0 <= m -> not_negative (binary_normalize prec emax m e false).
Proof.
  intros Hm. destruct m as [|p|p]; [done| |lia].
  unfold binary_normalize, binary_round. destruct (shl_align _ _ _) as [mz ez].
  pose proof (binary_round_aux_sign false (Z.pos mz) ez loc_Exact) as Hs.
  destruct (binary_round_aux _ _ _ _ _ _) as [s|s| |s ? ?]; try done;
    by subst s.
Qed.

Lemma iter_xO (m d : positive) :
  Z.pos (Pos.iter xO m d) = Z.pos m * 2 ^ Z.pos d.
Proof.
  induction d as [|d IH] using Pos.peano_ind.
  - simpl. lia.
  - rewrite Pos.iter_succ, Pos2Z.inj_xO, IH, Pos2Z.inj_succ.
    rewrite Z.pow_succ_r by lia. lia.
Qed.

Lemma shl_align_spec (m : positive) (e e' : Z) :
  e' <= e -> Z.pos (fst (shl_align m e e')) = Z.pos m * 2 ^ (e - e').
Proof.
  intros He. unfold shl_align. destruct (e' - e) as [|d|d] eqn:Hd; simpl.
  - replace (e - e') with 0 by lia. lia.
  - lia.
  - rewrite iter_xO. f_equal. f_equal. lia.
Qed.

(** The two mantissas of a subtraction, once aligned, are ordered as the
    numbers are. *)
Lemma aligned_le (m1 m2 : positive) (e1 e2 : Z) :
  bounded prec emax m1 e1 = true -> bounded prec emax m2 e2 = true ->
  canonical_le m1 e1 m2 e2 ->
  Z.pos (fst (shl_align m1 e1 (Z.min e2 e1))) <=
  Z.pos (fst (shl_align m2 e2 (Z.min e2 e1))).
Proof.
  intros Hb1 Hb2 [Hlt|[-> Hle]].
  - rewrite !shl_align_spec by lia. rewrite Z.min_r by lia.
    rewrite Z.sub_diag, Z.pow_0_r.
    pose proof (canonical_lt m1 m2 e1 e2 Hb1 Hb2 Hlt). lia.
  - rewrite !shl_align_spec by lia. rewrite Z.min_id, Z.sub_diag, Z.pow_0_r.
    lia.
Qed.

(** [end - start] is not negative when [start <= end]. *)
Lemma sub_not_negative (x y : spec_float) :
  valid_binary x = true -> valid_binary y = true ->
  SFleb y x = true -> not_negative (SF64sub x y).
Proof.
  intros Hx Hy Hle.
  destruct x as [sx|sx| |sx mx ex], y as [sy|sy| |sy my ey];
    try done; try (by destruct sx, sy); try (by destruct sx);
    try (by destruct sy).
  unfold SF64sub, SFsub. apply binary_normalize_not_negative.
  simpl in Hx, Hy.
  destruct sx, sy; try done; unfold cond_Zopp.
  - apply SFleb_negative in Hle.
    pose proof (aligned_le mx my ex ey Hx Hy Hle).
    rewrite (Z.min_comm ex ey). lia.
  - apply SFleb_positive in Hle.
    pose proof (aligned_le my mx ey ex Hy Hx Hle). lia.
Qed.

Lemma product_not_negative (x : spec_float) :
  not_negative x ->
  not_negative (SF64mul x (S754_finite false rate_mantissa (-50))).
Proof.
  destruct x as [sx|sx| |sx mx ex]; try done; try (by destruct sx).
  destruct sx; [done|]. intros _. unfold SF64mul, SFmul. cbn [xorb].
  pose proof (binary_round_aux_sign false (Z.pos (mx * rate_mantissa))
                (ex + -50) loc_Exact) as Hs.
  destruct (binary_round_aux _ _ _ _ _ _) as [s|s| |s ? ?]; try done;
    by subst s.
Qed.

Lemma sf_int_floor (x : spec_float) :
  not_negative x -> sf_int x = sf_floor x.
Proof. destruct x as [s|s| |[] m e]; done. Qed.

Lemma sf_int_not_negative (x : spec_float) (t : Z) :
  not_negative x -> sf_int x = Ok t -> 0 <= t.
Proof.
  destruct x as [s|s| |[] m e]; try done.
  - by intros _ [= <-].
  - intros _ [= <-]. simpl. apply Z.shiftl_nonneg. lia.
Qed.

Lemma duration_budget_spec (d : float) :
  duration_budget d =
  sf_int (SF64mul (Prim2SF d) (S754_finite false rate_mantissa (-50))).
Proof.
  unfold duration_budget, py_int. by rewrite mul_spec, chars_per_second_spec.
Qed.

(** The budget does not decrease when the duration grows, and is computed
    for the shorter duration when it is for the longer one. *)
Lemma duration_budget_mono (d1 d2 : float) (b2 : Z) :
  not_negative (Prim2SF d1) -> not_negative (Prim2SF d2) ->
  (d1 <=? d2)%float = true ->
  duration_budget d2 = Ok b2 ->
  exists b1, duration_budget d1 = Ok b1 /\ 0 <= b1 <= b2.
Proof.
  rewrite FloatAxioms.leb_spec, !duration_budget_spec.
  pose proof (Prim2SF_valid d1) as Hv1. pose proof (Prim2SF_valid d2) as Hv2.
  intros Hn1 Hn2 Hle Hb2.
  pose proof (sf_int_not_negative _ _ (product_not_negative _ Hn2) Hb2) as H0.
  destruct (Prim2SF d1) as [s1|[]| |[] m1 e1]; try done.
  - exists 0. split; [done|lia].
  - destruct (Prim2SF d2) as [s2|[]| |[] m2 e2]; done.
  - destruct (Prim2SF d2) as [s2|[]| |[] m2 e2]; try done.
    apply SFleb_positive in Hle.
    by apply (product_int_mono m1 m2 e1 e2 b2 Hv1 Hv2 Hle).
Qed.

Lemma duration_not_negative (start_time end_time : float) :
  (start_time <=? end_time)%float = true ->
  not_negative (Prim2SF (end_time - start_time)).
Proof.
  rewrite FloatAxioms.leb_spec, sub_spec.
  apply sub_not_negative; apply Prim2SF_valid.
Qed.

Lemma SFeqb_finite (s1 s2 : bool) (m1 m2 : positive) (e1 e2 : Z) :
  SFeqb (S754_finite s1 m1 e1) (S754_finite s2 m2 e2) = true ->
  s1 = s2 /\ m1 = m2 /\ e1 = e2.
Proof.
  unfold SFeqb, SFcompare.
  change (Pos.compare_cont Eq m1 m2) with (m1 ?= m2)%positive.
  destruct s1, s2; try done;
    destruct (Z.compare_spec e1 e2); try done;
    destruct (Pos.compare_spec m1 m2); try done; by subst.
Qed.

(** A duration of zero has a budget of zero; infinite bounds have none. *)
Lemma zero_duration_budget (start_time end_time : float) :
  (start_time =? end_time)%float = true ->
  max_translated_characters start_time end_time =
  if isfinite start_time then Ok 0 else Raise ValueError.
Proof.
  rewrite FloatAxioms.eqb_spec. unfold max_translated_characters, isfinite.
  fold (duration_budget (end_time - start_time)).
  rewrite duration_budget_spec, sub_spec.
  destruct (Prim2SF start_time) as [s1|s1| |s1 m1 e1],
           (Prim2SF end_time) as [s2|s2| |s2 m2 e2];
    try done; try (by destruct s1, s2); try (by destruct s1);
    try (by destruct s2).
  intros Heq. apply SFeqb_finite in Heq as (-> & -> & ->).
  unfold SF64sub, SFsub. by rewrite Z.sub_diag.
Qed.

(** ** The budget and the exact product *)

Lemma div_succ_le (a c : Z) : 0 < c -> (a + 1) / c <= a / c + 1.
Proof.
  intros Hc. rewrite <- (Z.div_add a 1 c) by lia.
  apply Z.div_le_mono; lia.
Qed.

Lemma div_add_small (a b c : Z) :
  0 < c -> 0 <= b < c -> a / c <= (a + b) / c <= a / c + 1.
Proof.
  intros Hc Hb. split; [apply Z.div_le_mono; lia|].
  rewrite <- (Z.div_add a 1 c) by lia. apply Z.div_le_mono; lia.
Qed.

(** The integer value of the rounded product of a positive canonical
    number and the rate, as long as it is below 2^53, is the floor of the
    exact product or one more; and the floor of the exact product with
    5.68 itself is that floor or one more. *)
Lemma product_int_exact (m : positive) (e b : Z) :
  bounded prec emax m e = true ->
  sf_int (SF64mul (S754_finite false m e)
                  (S754_finite false rate_mantissa (-50))) = Ok b ->
  b < 2 ^ 53 ->
  let y := scaled_floor (Z.pos m) e (Z.pos rate_mantissa) (2 ^ 50) in
  let x := scaled_floor (Z.pos m) e 568 100 in
  y <= b <= y + 1 /\ y <= x <= y + 1.
Proof.
  intros Hb. unfold SF64mul, SFmul. cbn [xorb].
  pose proof (product_shift m e Hb) as Hs.
  rewrite (sf_int_round _ _ Hs).
  destruct (binary_round_aux_shift false _ _ Hs) as [Hq _].
  pose proof (digits2_pos_bounds (m * rate_mantissa)) as [HDlo HDhi].
  pose proof rate_mantissa_bounds as [HR _].
  rewrite fexp_64 in *. rewrite Pos2Z.inj_mul in *.
  set (D := Z.pos (digits2_pos (m * rate_mantissa))) in *.
  set (f := Z.max (D + (e + -50) - 53) (-1074)) in *.
  set (M := Z.pos m * Z.pos rate_mantissa) in *.
  set (q := rne_div M (f - (e + -50))) in *.
  intros Hint Hsmall.
  assert (Hbq : b = Z.shiftl q f).
  { destruct (_ || _); [by injection Hint as <- | done]. }
  pose proof (rne_div_bounds M (f - (e + -50)) ltac:(lia)) as Hrne.
  fold q in Hrne.
  assert (Hf : f <= 0).
  { destruct (Z.le_gt_cases f 0) as [?|Hpos]; [done|].
    assert (HfD : f = D + (e + -50) - 53) by lia.
    assert (Hn : f - (e + -50) = D - 53) by lia.
    rewrite Hn in Hrne.
    assert (H52 : 2 ^ 52 <= M / 2 ^ (D - 53)).
    { apply Z.div_le_lower_bound; [apply Z.pow_pos_nonneg; lia|].
      rewrite <- Z.pow_add_r by lia.
      by replace (D - 53 + 52) with (D - 1) by lia. }
    rewrite Z.shiftl_mul_pow2 in Hbq by lia.
    assert (2 * 1 <= 2 ^ f).
    { replace f with (1 + (f - 1)) by lia. rewrite Z.pow_add_r by lia.
      assert (0 < 2 ^ (f - 1)) by (apply Z.pow_pos_nonneg; lia).
      change (2 ^ 1) with 2. lia. }
    change (2 ^ 53) with (2 ^ 52 * 2) in Hsmall. nia. }
  set (n := f - (e + -50)) in *. set (k := - f).
  assert (Hpn : 0 < 2 ^ n) by (apply Z.pow_pos_nonneg; lia).
  assert (Hpk : 0 < 2 ^ k) by (apply Z.pow_pos_nonneg; lia).
  assert (Hsplit : 2 ^ (50 - e) = 2 ^ n * 2 ^ k).
  { rewrite <- Z.pow_add_r by lia. f_equal. lia. }
  assert (Hy : scaled_floor (Z.pos m) e (Z.pos rate_mantissa) (2 ^ 50)
               = M / 2 ^ (50 - e)).
  { unfold scaled_floor. destruct (Z.leb_spec 0 e) as [He|He].
    - replace (2 ^ 50) with (2 ^ (50 - e) * 2 ^ e)
        by (rewrite <- Z.pow_add_r by lia; f_equal; lia).
      replace (Z.pos m * 2 ^ e * Z.pos rate_mantissa) with (M * 2 ^ e)
        by (unfold M; ring).
      apply Z.div_mul_cancel_r; apply Z.pow_nonzero; lia.
    - rewrite <- Z.pow_add_r by lia. fold M.
      by replace (50 + - e) with (50 - e) by lia. }
  assert (Hx : scaled_floor (Z.pos m) e 568 100
               = (100 * M + 32 * Z.pos m) / (100 * 2 ^ (50 - e))).
  { assert (Hrate : 568 * 2 ^ 50 = 100 * Z.pos rate_mantissa + 32)
      by reflexivity.
    replace (100 * M + 32 * Z.pos m) with (Z.pos m * (568 * 2 ^ 50))
      by (unfold M; rewrite Hrate; ring).
    unfold scaled_floor. destruct (Z.leb_spec 0 e) as [He|He].
    - replace (2 ^ 50) with (2 ^ e * 2 ^ (50 - e))
        by (rewrite <- Z.pow_add_r by lia; f_equal; lia).
      replace (Z.pos m * (568 * (2 ^ e * 2 ^ (50 - e))))
        with (Z.pos m * 2 ^ e * 568 * 2 ^ (50 - e)) by ring.
      symmetry. apply Z.div_mul_cancel_r; [lia|].
      apply Z.pow_nonzero; lia.
    - replace (2 ^ (50 - e)) with (2 ^ (- e) * 2 ^ 50)
        by (rewrite <- Z.pow_add_r by lia; f_equal; lia).
      replace (Z.pos m * (568 * 2 ^ 50)) with (Z.pos m * 568 * 2 ^ 50)
        by ring.
      rewrite Z.mul_assoc. symmetry.
      apply Z.div_mul_cancel_r; [|lia].
      assert (0 < 2 ^ (- e)) by (apply Z.pow_pos_nonneg; lia). lia. }
  cbv zeta. rewrite Hy, Hx. split.
  - rewrite Hbq, Z.shiftl_div_pow2 by lia. fold k.
    rewrite Hsplit, <- Z.div_div by lia.
    split; [apply Z.div_le_mono; lia|].
    etransitivity; [|apply div_succ_le; lia].
    apply Z.div_le_mono; lia.
  - replace (M / 2 ^ (50 - e)) with (100 * M / (100 * 2 ^ (50 - e)))
      by (apply Z.div_mul_cancel_l; lia).
    apply div_add_small; [lia|]. split; [lia|].
    assert (HM : M < 2 ^ (103 - e)).
    { eapply Z.lt_le_trans; [exact HDhi|]. apply Z.pow_le_mono_r; lia. }
    replace (103 - e) with (52 + 1 + (50 - e)) in HM by lia.
    rewrite !Z.pow_add_r in HM by lia. change (2 ^ 1) with 2 in HM.
    assert (0 < 2 ^ (50 - e)) by lia. unfold M in HM. nia.
Qed.

(** The same for a duration. *)
Lemma duration_budget_exact (d : float) (b : Z) :
  not_negative (Prim2SF d) -> duration_budget d = Ok b -> b < 2 ^ 53 ->
  exists x y,
    exact_budget d = Some x /\ exact_rate_floor d = Some y /\
    y <= b <= y + 1 /\ y <= x <= y + 1.
Proof.
  rewrite duration_budget_spec. unfold exact_budget, exact_rate_floor.
  pose proof (Prim2SF_valid d) as Hv. intros Hn Hb Hsmall.
  destruct (Prim2SF d) as [s|s| |[] m e]; try done.
  - exists 0, 0. injection Hb as <-. by repeat split.
  - simpl. eexists _, _. split; [done|]. split; [done|].
    by apply product_int_exact.
Qed.

(** ** The character budget *)

(** C3 (as amended). For every start and end time with [start <= end],
    the budget is the floor of the binary64 product
    [(end - start) * 5.68], rounded to nearest as the code computes it,
    and not the floor of the exact product: a budget below 2^53 is the
    floor of the exact product of the binary64 duration and the binary64
    number that [5.68] denotes, or one more, and so within one of the
    floor of the exact product with 5.68. The budget is computed
    whenever the binary64 product is finite, as it is for every duration
    up to 2^1000 seconds; it is 0 when the two times are equal and finite
    (on equal infinite times the conversion raises);
    it does not decrease when the duration [end - start] grows; and it is
    56 for the times 0.0 and 10.0. *)
Theorem character_budget (start_time end_time : float) :
  (start_time <=? end_time)%float = true ->
  max_translated_characters start_time end_time
    = py_floor ((end_time - start_time) * chars_per_second)%float /\
  (forall b,
     max_translated_characters start_time end_time = Ok b -> b < 2 ^ 53 ->
     exists x y,
       exact_budget (end_time - start_time) = Some x /\
       exact_rate_floor (end_time - start_time) = Some y /\
       y <= b <= y + 1 /\ y <= x <= y + 1) /\
  (isfinite ((end_time - start_time) * chars_per_second)%float = true ->
   exists b, max_translated_characters start_time end_time = Ok b /\ 0 <= b) /\
  ((end_time - start_time <=? 0x1p1000)%float = true ->
   exists b, max_translated_characters start_time end_time = Ok b /\ 0 <= b) /\
  ((start_time =? end_time)%float = true ->
   max_translated_characters start_time end_time
     = if isfinite start_time then Ok 0 else Raise ValueError) /\
  (forall start_time' end_time' b',
     (start_time' <=? end_time')%float = true ->
     (end_time - start_time <=? end_time' - start_time')%float = true ->
     max_translated_characters start_time' end_time' = Ok b' ->
     exists b, max_translated_characters start_time end_time = Ok b /\
               b <= b') /\
  max_translated_characters 0 10 = Ok 56.
Proof.
  intros Hle. pose proof (duration_not_negative _ _ Hle) as Hd.
  assert (Hp : not_negative
                 (Prim2SF ((end_time - start_time) * chars_per_second)%float)).
  { rewrite mul_spec, chars_per_second_spec. by apply product_not_negative. }
  split; [|split; [|split; [|split; [|split; [|split]]]]].
  - unfold max_translated_characters, py_int, py_floor. by apply sf_int_floor.
  - intros b Hb Hsmall. by apply duration_budget_exact.
  - unfold isfinite, max_translated_characters, py_int. intros Hfin.
    destruct (sf_int _) as [b|] eqn:Hb.
    + exists b. split; [done|]. by apply (sf_int_not_negative _ _ Hp).
    + by destruct
        (Prim2SF ((end_time - start_time) * chars_per_second)%float).
  - intros Hshort.
    destruct (duration_budget_mono (end_time - start_time) 0x1p1000 _
                Hd I Hshort eq_refl) as (b & Hb & Hbb).
    exists b. split; [exact Hb | lia].
  - apply zero_duration_budget.
  - intros start_time' end_time' b' Hle' Hdur Hb'.
    pose proof (duration_not_negative _ _ Hle') as Hd'.
    destruct (duration_budget_mono _ _ b' Hd Hd' Hdur Hb') as (b & Hb & Hbb).
    exists b. split; [exact Hb | lia].
  - reflexivity.
Qed.

Lemma character_budget_witness :
  (2 <=? 4.5)%float = true /\
  max_translated_characters 2 4.5
    = py_floor ((4.5 - 2) * chars_per_second)%float /\
  max_translated_characters 2 4.5 = Ok 14.
Proof.
  split; [reflexivity|]. split; [|reflexivity].
  apply (character_budget 2 4.5). reflexivity.
Defined.

(** C3, as stated, fails on finite times: for the times 0 and
    0x1.9b4481cd85689p+3 (about 12.852), whose difference is the second
    of them, the exact product with 5.68 is below 73 and has the floor
    72, and the budget the code computes is 73, the binary64 product
    being rounded up to 73.0. *)
Lemma budget_above_the_exact_floor :
  (0 <=? 0x1.9b4481cd85689p+3)%float = true /\
  (0x1.9b4481cd85689p+3 - 0 =? 0x1.9b4481cd85689p+3)%float = true /\
  exact_budget 0x1.9b4481cd85689p+3 = Some 72 /\
  max_translated_characters 0 0x1.9b4481cd85689p+3 = Ok 73.
Proof. repeat split. Qed.

(** C3, as stated, fails on infinite times too: they are equal, and
    ordered, but the conversion to an integer raises instead of giving
    0. *)
Lemma infinite_times_have_no_budget :
  (infinity <=? infinity)%float = true /\
  (infinity =? infinity)%float = true /\
  max_translated_characters infinity infinity = Raise ValueError.
Proof. repeat split. Qed.

(** * The other functions of the repository

    The object keys the three handlers derive from one another, the
    variant of the filter kept in StartTranscriptionLambda.py, the rest of
    the translation loop, and the order of the storage calls. *)

From Stdlib Require Import DecimalString.

(** ** Path and string helpers of Python *)

(** [str(n)] for an integer *)
Definition str_of_int (n : Z) : str := lit (NilZero.string_of_int (Z.to_int n)).

(** [p.rfind(c)], scanning with the index [i] and the last hit so far. *)
Fixpoint rfind_from (c : N) (p : str) (i last : Z) : Z :=
  match p with
  | [] => last
  | x :: p' => rfind_from c p' (i + 1) (if (x =? c)%N then i else last)
  end.

Definition rfind (c : N) (p : str) : Z := rfind_from c p 0 (-1).

Definition slash : N := 47.
Definition dot : N := 46.

(** [os.path.basename(p)]: [i = p.rfind('/') + 1; return p[i:]]. *)
Definition basename (p : str) : str := drop (Z.to_nat (rfind slash p + 1)) p.

(** [os.path.splitext(p)]: the extension starts at the last dot, provided
    that dot comes after the last slash and after some character of the
    file name that is not a dot. *)
Definition splitext (p : str) : str * str :=
  let sep_index := rfind slash p in
  let dot_index := rfind dot p in
  if (sep_index <? dot_index)
     && existsb (fun x => negb (x =? dot)%N)
          (take (Z.to_nat (dot_index - (sep_index + 1)))
                (drop (Z.to_nat (sep_index + 1)) p))
  then (take (Z.to_nat dot_index) p, drop (Z.to_nat dot_index) p)
  else (p, []).

(** [s.startswith(old)] *)
Fixpoint starts_with (old s : str) : bool :=
  match old, s with
  | [], _ => true
  | _ :: _, [] => false
  | a :: old', b :: s' => (a =? b)%N && starts_with old' s'
  end.

(** [s.replace(old, new)] for a non-empty [old]: the occurrences are
    found from the left and do not overlap; [skip] counts the characters
    of an occurrence still to pass over. *)
Fixpoint replace_from (old new : str) (skip : nat) (s : str) : str :=
  match s with
  | [] => []
  | c :: s' =>
      match skip with
      | S k => replace_from old new k s'
      | O =>
          if starts_with old s
          then new ++ replace_from old new (length old - 1) s'
          else c :: replace_from old new 0 s'
      end
  end.

(** [s.replace(old, new)] *)
Definition replace (old new s : str) : str :=
  match old with
  | [] => new ++ flat_map (fun c => c :: new) s
  | _ :: _ => replace_from old new 0 s
  end.

(** ** Calls to the outside

    The handlers call the object store, the file system and ffmpeg. What
    such a call does is not the repository's: here every call is answered
    by the world, which is arbitrary and may answer differently as the
    run goes on. A run is recorded as the list of the calls made, each
    with its answer. The creation of the clients and the messages
    printed are left out, but for [os.path.getsize], which one message
    of [download_file_from_s3] evaluates. The requests to the translator
    are those of [bedrock] above and are not entered in the list: a
    history tells of the store, the file system, ffmpeg and the
    transcription job only. *)

(** An exception: one of those above, or one of another class. *)
Inductive error :=
| Builtin (e : exn)
| Other (class_name : string).

Inductive call :=
| download_file (bucket : str) (key : option str) (filename : str)
| upload_file (filename bucket key : str) (content_type : option str)
| path_exists (path : str)
| path_getsize (path : str)
| os_remove (path : str)
| subprocess_run (command : list str)
| json_load (path : str)
| json_dump (subtitles : list subtitle) (path : str)
| start_transcription_job (job_name media_file_uri media_format
                           language_code output_bucket_name output_key : str).

(** The answer to a call: it returns (with a truth value, read by
    [os.path.exists] only) or raises. *)
Inductive answer :=
| Returned (b : bool)
| Raised (e : error).

Definition history : Type := list (call * answer).

Inductive outcome (A : Type) :=
| Done (a : A)
| Failed (e : error).

Arguments Done {A} a.
Arguments Failed {A} e.

(** A computation that calls the outside: from the calls made so far to
    the calls made afterwards and the outcome. *)
Definition io (A : Type) : Type := history -> history * outcome A.

Global Instance io_ret : MRet io := fun A a h => (h, Done a).

Global Instance io_bind : MBind io := fun A B k m h =>
  match m h with
  | (h1, Done a) => k a h1
  | (h1, Failed e) => (h1, Failed e)
  end.

(** [raise e] *)
Definition throw {A} (e : error) : io A := fun h => (h, Failed e).

(** A computation that makes no call. *)
Definition lift {A} (r : result A) : io A :=
  match r with
  | Ok a => mret a
  | Raise e => throw (Builtin e)
  end.

(** One call, answered by the world. *)
Definition perform (outside : history -> call -> answer) (c : call)
  : io bool := fun h =>
  let a := outside h c in
  (h ++ [(c, a)],
   match a with
   | Returned b => Done b
   | Raised e => Failed e
   end).

(** The event a handler is invoked with; the keys are strings where they
    are present. *)
Record event := {
  ev_input_video_key : option str;
  ev_transcribe_result_key : option str;
  ev_merged_audio_key : option str
}.

(** ** common_utils.py *)

Module common_utils.

Record bucket_names := {
  input_bucket : str;
  output_bucket : str
}.

Section Utils.

Variable outside : history -> call -> answer.

(** [os.environ] *)
Variable environ : string -> option str.

Definition download_file_from_s3 (bucket_name : str) (key : option str)
    (local_path : str) : io unit :=
  _ ← perform outside (download_file bucket_name key local_path);
  found ← perform outside (path_exists local_path);
  if negb found then throw (Other "Exception")
  else
    _ ← perform outside (path_getsize local_path);
    mret tt.

Definition upload_file_to_s3 (bucket_name key local_path : str)
    (content_type : option str) : io unit :=
  let extra_args :=
    match content_type with
    | Some (c :: s) => Some (c :: s)
    | _ => None
    end in
  _ ← perform outside (upload_file local_path bucket_name key extra_args);
  mret tt.

Definition get_bucket_names : bucket_names :=
  {| input_bucket :=
       default (lit "cognizant-video-input") (environ "INPUT_S3_BUCKET");
     output_bucket :=
       default (lit "cognizant-video-output") (environ "OUTPUT_S3_BUCKET") |}.

End Utils.

End common_utils.

(** ** The object keys *)

Module StartTranscription.

(** [f"TranscribeResults/{os.path.basename(input_video_key).replace('.mp4', '.json')}"] *)
Definition transcribe_result_key (input_video_key : str) : str :=
  lit "TranscribeResults/"
  ++ replace (lit ".mp4") (lit ".json") (basename input_video_key).

(** [f's3://{input_bucket}/{input_video_key}'] *)
Definition media_url (input_bucket input_video_key : str) : str :=
  lit "s3://" ++ input_bucket ++ lit "/" ++ input_video_key.

Section Handler.

Variable outside : history -> call -> answer.
Variable environ : string -> option str.

(** [int(time.time())], after the calls made so far. *)
Variable clock : history -> Z.

(** [lambda_handler]; it returns the three values of the dictionary. *)
Definition lambda_handler (ev : event) : io (str * str * str) :=
  let buckets := common_utils.get_bucket_names environ in
  let input_bucket := common_utils.input_bucket buckets in
  let output_bucket := common_utils.output_bucket buckets in
  input_video_key ← lift (subscript "input_video_key" (ev_input_video_key ev));
  let transcribe_result_key := transcribe_result_key input_video_key in
  timestamp ← ((fun h => (h, Done (clock h))) : io Z);
  let job_name := lit "transcribe_job_" ++ str_of_int timestamp in
  let media_url := media_url input_bucket input_video_key in
  _ ← perform outside
        (start_transcription_job job_name media_url (lit "mp4") (lit "en-US")
           output_bucket transcribe_result_key);
  mret (input_video_key, transcribe_result_key, job_name).

End Handler.

(** *** The variant of the filter in StartTranscriptionLambda.py

    Step 1 is that of the other file. In Step 2 an id that is not
    excluded is appended before its item is looked up, and every segment
    is rewritten, whatever its new transcript. *)

Section Filter.

Context {Extra : Type}.

(** The body of [for item_id in seg["items"]]; the state is
    [(new_items, new_transcript_words)]. *)
Definition collect_step (low : gset Z) (items : list item)
    (acc : list Z * list str) (item_id : Z) : result (list Z * list str) :=
  if decide (item_id ∈ low) then Ok acc
  else
    let new_items := acc.1 ++ [item_id] in
    match matched_item items item_id with
    | None => Ok (new_items, acc.2)
    | Some m =>
        a ← first_alternative m;
        Ok (new_items, acc.2 ++ [content a])
    end.

(** The body of [for seg in segments]; the state is the list of the
    segments rewritten so far. *)
Definition segment_step (low : gset Z) (items : list item)
    (rewritten : list (@segment Extra)) (seg : @segment Extra)
  : result (list (@segment Extra)) :=
  acc ← for_each (collect_step low items) (seg_items seg) ([], []);
  Ok (rewritten ++ [set_items_transcript seg acc.1 (join_space acc.2)]).

Definition filter_low_confidence_items_and_segments
    (data : @transcript Extra) (threshold : float)
  : result (@transcript Extra) :=
  items ← subscript "items" (r_items (t_results data));
  segments ← subscript "audio_segments" (r_audio_segments (t_results data));
  low ← low_confidence_ids items threshold;
  rewritten ← for_each (segment_step low items) segments [];
  Ok (set_audio_segments data rewritten).

End Filter.

End StartTranscription.

Module TranslationSubtitles.

(** [f"TranslateSubtitles/{os.path.basename(transcribe_result_key).replace('.json', '_ja.json')}"] *)
Definition translated_subtitle_key (transcribe_result_key : str) : str :=
  lit "TranslateSubtitles/"
  ++ replace (lit ".json") (lit "_ja.json") (basename transcribe_result_key).

Definition local_transcript_file : str := lit "/tmp/transcript.json".

Definition local_translated_subtitle_file : str :=
  lit "/tmp/translated_subtitle.json".

Section Handler.

Context {Extra : Type}.
Variable lower : str -> str.
Variable bedrock : nat -> request -> reply.
Variable outside : history -> call -> answer.
Variable environ : string -> option str.

(** The document [json.load] returns, after the calls made so far. *)
Variable document : history -> @transcript Extra.

(** [with open(local_transcript_file, ...) as f: json.load(f)] *)
Definition load_transcript : io (@transcript Extra) :=
  _ ← perform outside (json_load local_transcript_file);
  ((fun h => (h, Done (document h))) : io (@transcript Extra)).

(** [lambda_handler] with its calls to the store and the file system;
    the part between [json.load] and the computation of the key is the
    function [lambda_handler] above. It returns the two values of the
    dictionary. *)
Definition lambda_handler (ev : event) : io (option str * str) :=
  let output_bucket :=
    common_utils.output_bucket (common_utils.get_bucket_names environ) in
  let transcribe_result_key := ev_transcribe_result_key ev in
  let input_video_key := ev_input_video_key ev in
  _ ← common_utils.download_file_from_s3 outside output_bucket
        transcribe_result_key local_transcript_file;
  transcript_data ← load_transcript;
  subtitles ← lift (lambda_handler lower bedrock transcript_data);
  translated_subtitle_key ←
    match transcribe_result_key with
    | Some key => mret (translated_subtitle_key key)
    | None => throw (Other "TypeError")
    end;
  _ ← perform outside (json_dump subtitles local_translated_subtitle_file);
  _ ← common_utils.upload_file_to_s3 outside output_bucket
        translated_subtitle_key local_translated_subtitle_file
        (Some (lit "application/json"));
  _ ← perform outside (os_remove local_transcript_file);
  _ ← perform outside (os_remove local_translated_subtitle_file);
  mret (input_video_key, translated_subtitle_key).

End Handler.

End TranslationSubtitles.

Module ComposeFinalVideo.

(** [os.path.splitext(os.path.basename(input_video_key))[0]] *)
Definition base_name (input_video_key : str) : str :=
  (splitext (basename input_video_key)).1.

(** [f'/tmp/{os.path.basename(key)}'] *)
Definition local_path (key : str) : str := lit "/tmp/" ++ basename key.

(** [f"FinalVideos/{base_name}_ja.mp4"] *)
Definition final_output_video_key (input_video_key : str) : str :=
  lit "FinalVideos/" ++ base_name input_video_key ++ lit "_ja.mp4".

(** [f'/tmp/{os.path.basename(final_output_video_key)}'] *)
Definition local_output_video_path (input_video_key : str) : str :=
  local_path (final_output_video_key input_video_key).

(** The command handed to [subprocess.run]. *)
Definition ffmpeg_command (input_video_key merged_audio_key : str)
  : list str :=
  [lit "ffmpeg";
   lit "-i"; local_path input_video_key;
   lit "-i"; local_path merged_audio_key;
   lit "-map"; lit "0:v:0";
   lit "-map"; lit "1:a:0";
   lit "-c:v"; lit "copy";
   lit "-c:a"; lit "aac";
   lit "-b:a"; lit "192k";
   lit "-y";
   local_output_video_path input_video_key].

Section Handler.

Variable outside : history -> call -> answer.
Variable environ : string -> option str.

(** [if not key: raise ValueError(...)] *)
Definition required (key : option str) : io str :=
  match key with
  | Some (c :: s) => mret (c :: s)
  | _ => throw (Builtin ValueError)
  end.

(** [if os.path.exists(path): os.remove(path)] *)
Definition remove_if_exists (path : str) : io unit :=
  found ← perform outside (path_exists path);
  if found : bool then
    _ ← perform outside (os_remove path);
    mret tt
  else mret tt.

(** [lambda_handler]; it returns the two values of the dictionary. *)
Definition lambda_handler (ev : event) : io (str * str) :=
  let buckets := common_utils.get_bucket_names environ in
  let output_bucket := common_utils.output_bucket buckets in
  let input_bucket := common_utils.input_bucket buckets in
  input_video_key ← required (ev_input_video_key ev);
  merged_japanese_audio_key ← required (ev_merged_audio_key ev);
  _ ← common_utils.download_file_from_s3 outside input_bucket
        (Some input_video_key) (local_path input_video_key);
  _ ← common_utils.download_file_from_s3 outside output_bucket
        (Some merged_japanese_audio_key)
        (local_path merged_japanese_audio_key);
  _ ← perform outside
        (subprocess_run
           (ffmpeg_command input_video_key merged_japanese_audio_key));
  _ ← common_utils.upload_file_to_s3 outside output_bucket
        (final_output_video_key input_video_key)
        (local_output_video_path input_video_key)
        (Some (lit "video/mp4"));
  _ ← remove_if_exists (local_path input_video_key);
  _ ← remove_if_exists (local_path merged_japanese_audio_key);
  _ ← remove_if_exists (local_output_video_path input_video_key);
  mret (input_video_key, final_output_video_key input_video_key).

End Handler.

End ComposeFinalVideo.

(** ** Properties of the path and string helpers *)

Lemma rfind_from_app c (p q : str) i last :
  rfind_from c (p ++ q) i last =
  rfind_from c q (i + Z.of_nat (length p)) (rfind_from c p i last).
Proof.
  revert i last. induction p as [|x p IH]; intros i last; simpl.
  - by rewrite Z.add_0_r.
  - rewrite IH. f_equal. lia.
Qed.

Lemma rfind_from_absent c (p : str) i last :
  c ∉ p -> rfind_from c p i last = last.
Proof.
  revert i last. induction p as [|x p IH]; intros i last H; simpl; [done|].
  apply not_elem_of_cons in H as [Hx Hp]. rewrite (IH _ _ Hp).
  destruct (N.eqb_spec x c); [congruence | done].
Qed.

Lemma rfind_absent c (p : str) : c ∉ p -> rfind c p = -1.
Proof. apply rfind_from_absent. Qed.

(** The index found is that of the last occurrence. *)
Lemma rfind_last c (p q : str) :
  c ∉ q -> rfind c (p ++ c :: q) = Z.of_nat (length p).
Proof.
  intros H. unfold rfind. rewrite rfind_from_app. simpl.
  rewrite N.eqb_refl. by rewrite rfind_from_absent.
Qed.

Lemma last_occurrence c (p : str) :
  c ∉ p \/ exists a b, p = a ++ c :: b /\ c ∉ b.
Proof.
  induction p as [|x p IH]; [left; apply not_elem_of_nil|].
  destruct IH as [H|(a & b & -> & H)].
  - destruct (decide (x = c)) as [->|Hx].
    + right. by exists [], p.
    + left. by apply not_elem_of_cons.
  - right. by exists (x :: a), b.
Qed.

Lemma basename_plain (name : str) : slash ∉ name -> basename name = name.
Proof. intros H. unfold basename. by rewrite rfind_absent. Qed.

Lemma basename_name (dir name : str) :
  slash ∉ name -> basename (dir ++ slash :: name) = name.
Proof.
  intros H. unfold basename. rewrite rfind_last by done.
  replace (Z.to_nat (Z.of_nat (length dir) + 1)) with (length dir + 1)%nat
    by lia.
  rewrite (cons_middle slash), app_assoc.
  rewrite drop_app_length'; [done|]. by rewrite length_app.
Qed.

Lemma basename_no_slash (p : str) : slash ∉ basename p.
Proof.
  destruct (last_occurrence slash p) as [H|(a & b & -> & H)].
  - by rewrite basename_plain.
  - by rewrite basename_name.
Qed.

Lemma existsb_take_app {A} (f : A -> bool) (l k : list A) :
  Exists (fun x => f x = true) l -> existsb f (take (length l) (l ++ k)) = true.
Proof.
  intros H. rewrite take_app_length. apply existsb_exists.
  apply Exists_exists in H as (x & Hx & Hf). exists x.
  by rewrite <- list_elem_of_In.
Qed.

(** The extension is split off at the last dot of a name that has some
    other character before it. *)
Lemma splitext_extension (stem ext : str) :
  slash ∉ stem -> Exists (fun x => x <> dot) stem ->
  slash ∉ ext -> dot ∉ ext ->
  splitext (stem ++ dot :: ext) = (stem, dot :: ext).
Proof.
  intros Hs Hne Hse Hde. unfold splitext.
  rewrite rfind_absent, rfind_last by
    (try done; rewrite elem_of_app, elem_of_cons; intros [?|[?|?]]; done).
  assert (Hlt : (-1 <? Z.of_nat (length stem)) = true) by (apply Z.ltb_lt; lia).
  rewrite Hlt, Nat2Z.id, take_app_length, drop_app_length.
  replace (Z.to_nat (Z.of_nat (length stem) - (-1 + 1))) with (length stem)
    by lia.
  change (Z.to_nat (-1 + 1)) with 0%nat. rewrite drop_0.
  rewrite existsb_take_app; [done|].
  eapply Exists_impl; [exact Hne|]. intros x Hx. simpl in Hx.
  destruct (N.eqb_spec x dot); [congruence | done].
Qed.

Lemma plain_name_has_a_character (stem : str) :
  dot ∉ stem -> stem <> [] -> Exists (fun x => x <> dot) stem.
Proof.
  intros Hd Hne. destruct stem as [|x stem]; [done|].
  apply not_elem_of_cons in Hd as [Hx _]. left. congruence.
Qed.

Lemma starts_with_iff (old s : str) :
  starts_with old s = true <-> exists rest, s = old ++ rest.
Proof.
  revert s. induction old as [|a old IH]; intros s; simpl.
  - split; [by exists s | done].
  - destruct s as [|b s]; [split; [done | by intros [? ?]]|].
    rewrite andb_true_iff, N.eqb_eq, IH. split.
    + intros [-> [rest ->]]. by exists rest.
    + intros [rest [= -> ->]]. split; [done | by exists rest].
Qed.

Lemma replace_from_skip (old new pre rest : str) :
  replace_from old new (length pre) (pre ++ rest) = replace_from old new 0 rest.
Proof. induction pre as [|x pre IH]; simpl; [by destruct rest | done]. Qed.

(** A character that is neither in the string nor in the replacement is
    not in the result. *)
Lemma replace_from_char c (old new : str) k (s : str) :
  c ∉ new -> c ∉ s -> c ∉ replace_from old new k s.
Proof.
  intros Hn. revert k. induction s as [|x s IH]; intros k Hs; simpl; [done|].
  apply not_elem_of_cons in Hs as [Hx Hs].
  destruct k; [|by apply IH].
  destruct (starts_with old (x :: s)).
  - rewrite elem_of_app. intros [?|?]; [done|]. by eapply IH.
  - apply not_elem_of_cons. split; [done | by apply IH].
Qed.

Lemma replace_char c (old new s : str) :
  c ∉ new -> c ∉ s -> c ∉ replace old new s.
Proof.
  intros Hn Hs. destruct old as [|a old]; simpl.
  - rewrite elem_of_app. intros [?|H]; [done|].
    induction s as [|x s IH]; simpl in H; [by apply not_elem_of_nil in H|].
    apply not_elem_of_cons in Hs as [Hx Hs].
    rewrite elem_of_cons, elem_of_app in H. destruct H as [?|[?|?]]; auto.
  - by apply replace_from_char.
Qed.

(** A string in which [old] does not occur is returned as it is. *)
Lemma replace_absent (old new s : str) :
  old <> [] -> ~ occurs_in old s -> replace old new s = s.
Proof.
  intros Hold. destruct old as [|a old]; [done|]. simpl.
  induction s as [|x s IH]; intros Hs; [done|].
  cbn [replace_from].
  destruct (starts_with (a :: old) (x :: s)) eqn:Hsw.
  - apply starts_with_iff in Hsw as [rest Hrest].
    destruct Hs. by exists [], rest.
  - f_equal. apply IH. intros (before & after & ->).
    apply Hs. by exists (x :: before), after.
Qed.

(** The first occurrence, when the first character of [old] does not
    come before it. *)
Lemma replace_first a (old new stem rest : str) :
  a ∉ stem ->
  replace (a :: old) new (stem ++ (a :: old) ++ rest) =
  stem ++ new ++ replace (a :: old) new rest.
Proof.
  intros H. cbn [replace].
  induction stem as [|x stem IH].
  - cbn [app replace_from].
    assert (Hsw : starts_with (a :: old) (a :: (old ++ rest)) = true).
    { apply starts_with_iff. by exists rest. }
    rewrite Hsw. f_equal.
    replace (length (a :: old) - 1)%nat with (length old) by (simpl; lia).
    apply replace_from_skip.
  - apply not_elem_of_cons in H as [Hx H].
    change ((x :: stem) ++ (a :: old) ++ rest)
      with (x :: (stem ++ (a :: old) ++ rest)).
    cbn [replace_from].
    assert (Hsw : starts_with (a :: old) (x :: (stem ++ (a :: old) ++ rest))
                  = false).
    { simpl. destruct (N.eqb_spec a x); [congruence | done]. }
    rewrite Hsw. simpl. f_equal. by apply IH.
Qed.

Lemma replace_suffix a (old new stem : str) :
  a ∉ stem -> replace (a :: old) new (stem ++ a :: old) = stem ++ new.
Proof.
  intros H. pose proof (replace_first a old new stem [] H) as Hr.
  cbn [replace replace_from] in Hr. rewrite !app_nil_r in Hr. exact Hr.
Qed.

(** [old in s] *)
Fixpoint contains (old s : str) : bool :=
  starts_with old s
  || match s with
     | [] => false
     | _ :: s' => contains old s'
     end.

Lemma contains_occurs (old s : str) :
  contains old s = true <-> occurs_in old s.
Proof.
  unfold occurs_in. induction s as [|x s IH]; cbn [contains].
  - rewrite orb_false_r, starts_with_iff. split.
    + intros [rest H]. by exists [], rest.
    + intros (before & after & H). symmetry in H.
      apply app_eq_nil in H as [_ H]. apply app_eq_nil in H as [-> _].
      by exists [].
  - rewrite orb_true_iff, starts_with_iff, IH. split.
    + intros [[rest H]|(before & after & ->)].
      * by exists [], rest.
      * by exists (x :: before), after.
    + intros ([|y before] & after & H).
      * left. by exists after.
      * right. injection H as -> ->. by exists before, after.
Qed.

Lemma base_name_no_slash (key : str) : slash ∉ ComposeFinalVideo.base_name key.
Proof.
  unfold ComposeFinalVideo.base_name, splitext.
  pose proof (basename_no_slash key) as H.
  destruct (_ && _); simpl; [|done].
  intros Hin. apply H. eapply elem_of_sublist; [exact Hin | apply sublist_take].
Qed.

(** ** The keys of the three stages *)

(** X1: every key a stage derives depends on the file name of its input
    only, not on the folder: the folder part of the input key, however
    deep, is discarded, and the derived key lies directly beneath the
    prefix of its stage. *)
Theorem derived_keys_ignore_the_folder (folder name : str) :
  slash ∉ name ->
  (StartTranscription.transcribe_result_key (folder ++ slash :: name) =
   lit "TranscribeResults/" ++ replace (lit ".mp4") (lit ".json") name /\
   slash ∉ replace (lit ".mp4") (lit ".json") name) /\
  (TranslationSubtitles.translated_subtitle_key (folder ++ slash :: name) =
   lit "TranslateSubtitles/" ++ replace (lit ".json") (lit "_ja.json") name /\
   slash ∉ replace (lit ".json") (lit "_ja.json") name) /\
  (ComposeFinalVideo.final_output_video_key (folder ++ slash :: name) =
   lit "FinalVideos/" ++ (splitext name).1 ++ lit "_ja.mp4" /\
   slash ∉ (splitext name).1 ++ lit "_ja.mp4").
Proof.
  intros H.
  unfold StartTranscription.transcribe_result_key,
    TranslationSubtitles.translated_subtitle_key,
    ComposeFinalVideo.final_output_video_key, ComposeFinalVideo.base_name.
  pose proof (base_name_no_slash (folder ++ slash :: name)) as Hb.
  unfold ComposeFinalVideo.base_name in Hb.
  rewrite !basename_name in * by done.
  repeat split; try (apply replace_char; [compute_done|done]).
  rewrite elem_of_app. intros [?|Hin]; [done|]. revert Hin. compute_done.
Qed.

Lemma derived_keys_ignore_the_folder_witness :
  StartTranscription.transcribe_result_key (lit "in/2024/talk.mp4") =
  lit "TranscribeResults/talk.json".
Proof.
  destruct (derived_keys_ignore_the_folder (lit "in/2024") (lit "talk.mp4"))
    as [[H _] _]; [compute_done|].
  exact H.
Defined.

(** X2: for a video whose file name is a stem followed by [.mp4], the
    stem being non-empty and free of dots, the stages name their results
    [TranscribeResults/<stem>.json], [TranslateSubtitles/<stem>_ja.json]
    (from the key of the first) and [FinalVideos/<stem>_ja.mp4], and the
    composed video is written locally to [/tmp/<stem>_ja.mp4]. *)
Theorem keys_of_an_mp4_video (video stem : str) :
  basename video = stem ++ lit ".mp4" -> dot ∉ stem -> stem <> [] ->
  StartTranscription.transcribe_result_key video =
    lit "TranscribeResults/" ++ stem ++ lit ".json" /\
  TranslationSubtitles.translated_subtitle_key
    (StartTranscription.transcribe_result_key video) =
    lit "TranslateSubtitles/" ++ stem ++ lit "_ja.json" /\
  ComposeFinalVideo.final_output_video_key video =
    lit "FinalVideos/" ++ stem ++ lit "_ja.mp4" /\
  ComposeFinalVideo.local_output_video_path video =
    lit "/tmp/" ++ stem ++ lit "_ja.mp4".
Proof.
  intros Hname Hdot Hne.
  assert (Hslash : slash ∉ stem).
  { pose proof (basename_no_slash video) as H. rewrite Hname in H.
    intros Hin. apply H, elem_of_app. by left. }
  assert (Hresult : StartTranscription.transcribe_result_key video =
                    lit "TranscribeResults/" ++ stem ++ lit ".json").
  { unfold StartTranscription.transcribe_result_key. rewrite Hname. f_equal.
    by apply (replace_suffix dot (lit "mp4")). }
  assert (Hfinal : ComposeFinalVideo.final_output_video_key video =
                   lit "FinalVideos/" ++ stem ++ lit "_ja.mp4").
  { unfold ComposeFinalVideo.final_output_video_key,
      ComposeFinalVideo.base_name.
    rewrite Hname. change (lit ".mp4") with (dot :: lit "mp4").
    rewrite splitext_extension;
      [done | done | by apply plain_name_has_a_character
       | compute_done | compute_done]. }
  split; [done|]. split; [|split; [done|]].
  - rewrite Hresult. unfold TranslationSubtitles.translated_subtitle_key.
    change (lit "TranscribeResults/") with (lit "TranscribeResults" ++ [slash]).
    rewrite <- app_assoc. cbn [app]. rewrite basename_name.
    + f_equal. by apply (replace_suffix dot (lit "json")).
    + rewrite elem_of_app. intros [?|Hin]; [done|]. revert Hin. compute_done.
  - unfold ComposeFinalVideo.local_output_video_path,
      ComposeFinalVideo.local_path.
    rewrite Hfinal.
    change (lit "FinalVideos/") with (lit "FinalVideos" ++ [slash]).
    rewrite <- app_assoc. cbn [app]. rewrite basename_name; [done|].
    rewrite elem_of_app. intros [?|Hin]; [done|]. revert Hin. compute_done.
Qed.

Lemma keys_of_an_mp4_video_witness :
  TranslationSubtitles.translated_subtitle_key
    (StartTranscription.transcribe_result_key (lit "videos/talk.mp4")) =
  lit "TranslateSubtitles/talk_ja.json" /\
  ComposeFinalVideo.final_output_video_key (lit "videos/talk.mp4") =
  lit "FinalVideos/talk_ja.mp4".
Proof.
  destruct (keys_of_an_mp4_video (lit "videos/talk.mp4") (lit "talk"))
    as (_ & H2 & H3 & _); [reflexivity | compute_done | done |].
  split; [exact H2 | exact H3].
Defined.

(** X3: a name in which [.mp4] does not occur is taken over unchanged
    into the key of the transcript, without [.json]; if [.json] does not
    occur in it either, the key of the subtitles is again the unchanged
    name, without [_ja.json]. *)
Theorem keys_of_other_names (video : str) :
  ~ occurs_in (lit ".mp4") (basename video) ->
  StartTranscription.transcribe_result_key video =
    lit "TranscribeResults/" ++ basename video /\
  (~ occurs_in (lit ".json") (basename video) ->
   TranslationSubtitles.translated_subtitle_key
     (StartTranscription.transcribe_result_key video) =
     lit "TranslateSubtitles/" ++ basename video).
Proof.
  intros Hmp4.
  assert (Hresult : StartTranscription.transcribe_result_key video =
                    lit "TranscribeResults/" ++ basename video).
  { unfold StartTranscription.transcribe_result_key.
    by rewrite replace_absent. }
  split; [done|]. intros Hjson. rewrite Hresult.
  unfold TranslationSubtitles.translated_subtitle_key.
  change (lit "TranscribeResults/") with (lit "TranscribeResults" ++ [slash]).
  rewrite <- app_assoc. cbn [app].
  rewrite basename_name by apply basename_no_slash.
  by rewrite replace_absent.
Qed.

Lemma keys_of_other_names_witness :
  StartTranscription.transcribe_result_key (lit "clips/talk.MP4") =
  lit "TranscribeResults/talk.MP4".
Proof.
  destruct (keys_of_other_names (lit "clips/talk.MP4")) as [H _];
    [|exact H].
  rewrite <- contains_occurs. by vm_compute.
Defined.

(** X4: which files of the composing stage coincide. The key of the
    final video is never the key of the input video, and the file ffmpeg
    writes is never the file the input video is downloaded to, whatever
    the key. The merged audio, however, is downloaded to the very file
    of the video exactly when the two keys have the same file name, and
    the file ffmpeg writes is the downloaded audio exactly when the file
    name of the audio key is that of the video with [_ja.mp4] for its
    extension. *)
Theorem compose_files_that_coincide (input_video_key merged_audio_key : str) :
  ComposeFinalVideo.final_output_video_key input_video_key
    <> input_video_key /\
  ComposeFinalVideo.local_output_video_path input_video_key
    <> ComposeFinalVideo.local_path input_video_key /\
  (ComposeFinalVideo.local_path merged_audio_key
     = ComposeFinalVideo.local_path input_video_key <->
   basename merged_audio_key = basename input_video_key) /\
  (ComposeFinalVideo.local_output_video_path input_video_key
     = ComposeFinalVideo.local_path merged_audio_key <->
   basename merged_audio_key
     = ComposeFinalVideo.base_name input_video_key ++ lit "_ja.mp4").
Proof.
  assert (Hroot : basename input_video_key <>
                  ComposeFinalVideo.base_name input_video_key
                  ++ lit "_ja.mp4").
  { unfold ComposeFinalVideo.base_name.
    set (name := basename input_video_key).
    set (root := (splitext name).1). intros Hname.
    assert (Hsplit : splitext name = (root ++ lit "_ja", dot :: lit "mp4")).
    { rewrite Hname.
      change (lit "_ja.mp4") with (lit "_ja" ++ dot :: lit "mp4").
      rewrite app_assoc. apply splitext_extension.
      - pose proof (basename_no_slash input_video_key) as H.
        fold name in H. rewrite Hname in H.
        rewrite elem_of_app. intros [Hin|Hin]; [|revert Hin; compute_done].
        apply H, elem_of_app. by left.
      - apply Exists_app. right. left. compute_done.
      - compute_done.
      - compute_done. }
    assert (Hlen : length root = length (root ++ lit "_ja")).
    { unfold root at 1. by rewrite Hsplit. }
    rewrite length_app in Hlen. simpl in Hlen. lia. }
  assert (Hbase : basename
                    (ComposeFinalVideo.final_output_video_key input_video_key)
                  = ComposeFinalVideo.base_name input_video_key
                    ++ lit "_ja.mp4").
  { unfold ComposeFinalVideo.final_output_video_key.
    change (lit "FinalVideos/") with (lit "FinalVideos" ++ [slash]).
    rewrite <- app_assoc. cbn [app]. rewrite basename_name; [done|].
    rewrite elem_of_app. intros [Hin|Hin]; [|revert Hin; compute_done].
    by apply base_name_no_slash in Hin. }
  split; [|split; [|split]].
  - intros H. apply Hroot. by rewrite <- H at 1.
  - unfold ComposeFinalVideo.local_output_video_path,
      ComposeFinalVideo.local_path.
    intros H. apply app_inv_head in H. apply Hroot. by rewrite <- H.
  - unfold ComposeFinalVideo.local_path.
    split; [apply app_inv_head | by intros ->].
  - unfold ComposeFinalVideo.local_output_video_path,
      ComposeFinalVideo.local_path.
    rewrite Hbase. split; [|by intros ->].
    intros H. by apply app_inv_head in H.
Qed.

(** Two keys with the same file name: the audio is downloaded to the
    file of the video, and ffmpeg is given that one file twice. *)
Example downloads_to_one_file :
  ComposeFinalVideo.local_path (lit "audio/talk.mp4")
    = ComposeFinalVideo.local_path (lit "videos/talk.mp4") /\
  ComposeFinalVideo.ffmpeg_command (lit "videos/talk.mp4")
    (lit "audio/talk.mp4") !! 2%nat = Some (lit "/tmp/talk.mp4") /\
  ComposeFinalVideo.ffmpeg_command (lit "videos/talk.mp4")
    (lit "audio/talk.mp4") !! 4%nat = Some (lit "/tmp/talk.mp4").
Proof. by vm_compute. Qed.

(** ** The variant of the filter in StartTranscriptionLambda.py *)

(** The ids the variant keeps: those that are not excluded, resolved by
    an item or not. *)
Definition kept_ids (low : gset Z) (ids : list Z) : list Z :=
  filter (fun item_id => item_id ∉ low) ids.

(** The state a completed inner loop of the variant leaves. *)
Definition kept (low : gset Z) (items : list item) (ids : list Z)
    (acc : list Z * list str) : list Z * list str :=
  (acc.1 ++ kept_ids low ids,
   acc.2 ++ map (content_of items) (retained_ids low items ids)).

Lemma kept_ids_cons low n ids :
  kept_ids low (n :: ids) = kept_ids low [n] ++ kept_ids low ids.
Proof. unfold kept_ids. by rewrite <- filter_app. Qed.

Lemma retained_kept_ids low items ids :
  retained_ids low items (kept_ids low ids) = retained_ids low items ids.
Proof.
  unfold retained_ids, kept_ids. rewrite list_filter_filter.
  apply list_filter_iff. tauto.
Qed.

Lemma kept_ids_idem low ids : kept_ids low (kept_ids low ids) = kept_ids low ids.
Proof.
  unfold kept_ids. rewrite list_filter_filter. apply list_filter_iff. tauto.
Qed.

Lemma start_collect_step_iff low items acc n acc' :
  StartTranscription.collect_step low items acc n = Ok acc' <->
  Forall (readable_at items) (retained_ids low items [n]) /\
  acc' = kept low items [n] acc.
Proof.
  unfold kept, kept_ids, retained_ids, StartTranscription.collect_step.
  rewrite !filter_cons, !filter_nil.
  destruct (decide (n ∈ low)) as [Hlow|Hlow].
  - rewrite decide_False by tauto. rewrite decide_False by tauto.
    simpl. rewrite !app_nil_r.
    destruct acc. split; [intros [= <-]; by split | by intros [_ ->]].
  - rewrite (decide_True (P := n ∉ low)) by done.
    destruct (matched_item items n) as [m|] eqn:Hm.
    + rewrite decide_True by (split; [done | by exists m]).
      rewrite Forall_singleton. unfold readable_at. rewrite Hm. simpl.
      unfold content_of, first_alternative. rewrite Hm.
      destruct m as [t [|a alts] k]; simpl.
      * split; [done|]. intros [H _]. by destruct (H _ eq_refl).
      * split; [intros [= <-]; split; [by intros ? [= <-]|done]
               | by intros [_ ->]].
    + rewrite decide_False by (intros [_ [? ?]]; done).
      simpl. rewrite !app_nil_r.
      split; [intros [= <-]; by split | by intros [_ ->]].
Qed.

Lemma start_collect_loop_iff low items ids acc acc' :
  for_each (StartTranscription.collect_step low items) ids acc = Ok acc' <->
  Forall (readable_at items) (retained_ids low items ids) /\
  acc' = kept low items ids acc.
Proof.
  revert acc. induction ids as [|n ids IH]; intros acc; simpl.
  - unfold kept, kept_ids, retained_ids. rewrite !filter_nil. simpl.
    rewrite !app_nil_r. destruct acc.
    split; [intros [= <-]; by split | by intros [_ ->]].
  - rewrite (retained_ids_cons _ _ n ids), Forall_app.
    destruct (StartTranscription.collect_step low items acc n)
      as [acc1|] eqn:Hstep; simpl.
    + apply start_collect_step_iff in Hstep as [Hr ->]. rewrite IH.
      unfold kept. simpl.
      rewrite (retained_ids_cons _ _ n ids), (kept_ids_cons _ n ids),
        map_app, <- !app_assoc.
      tauto.
    + split; [done|]. intros [[Hr _] _].
      assert (Hok : StartTranscription.collect_step low items acc n =
                    Ok (kept low items [n] acc))
        by (by apply start_collect_step_iff).
      congruence.
Qed.

Section StartFilter.

Context {Extra : Type}.
Implicit Types (seg : @segment Extra) (data : @transcript Extra).
Implicit Types (segs rewritten : list (@segment Extra)).

(** The segment as the variant rewrites it. *)
Definition rewrite_segment (low : gset Z) (items : list item) seg
  : @segment Extra :=
  set_items_transcript seg (kept_ids low (seg_items seg))
    (rebuilt_transcript low items (seg_items seg)).

Lemma start_segment_step_iff low items rewritten seg rewritten' :
  StartTranscription.segment_step low items rewritten seg = Ok rewritten' <->
  Forall (readable_at items) (retained_ids low items (seg_items seg)) /\
  rewritten' = rewritten ++ [rewrite_segment low items seg].
Proof.
  unfold StartTranscription.segment_step, rewrite_segment, rebuilt_transcript.
  destruct (for_each _ (seg_items seg) ([], [])) as [acc|] eqn:Hacc; simpl.
  - apply start_collect_loop_iff in Hacc as [Hr ->]. unfold kept. simpl.
    split; [intros [= <-]; by split | by intros [_ ->]].
  - split; [done|]. intros [Hr _].
    assert (Hok : for_each (StartTranscription.collect_step low items)
                    (seg_items seg) ([], []) =
                  Ok (kept low items (seg_items seg) ([], [])))
      by (by apply start_collect_loop_iff).
    congruence.
Qed.

Lemma start_segment_loop_iff low items segs rewritten rewritten' :
  for_each (StartTranscription.segment_step low items) segs rewritten
    = Ok rewritten' <->
  collectable low items segs /\
  rewritten' = rewritten ++ map (rewrite_segment low items) segs.
Proof.
  unfold collectable.
  revert rewritten. induction segs as [|seg segs IH]; intros rewritten; simpl.
  - rewrite app_nil_r. split; [intros [= <-]; by split | by intros [_ ->]].
  - rewrite Forall_cons.
    destruct (StartTranscription.segment_step low items rewritten seg)
      as [c1|] eqn:Hstep; simpl.
    + apply start_segment_step_iff in Hstep as [Hr ->]. rewrite IH.
      rewrite <- app_assoc. simpl. tauto.
    + split; [done|]. intros [[Hr _] _].
      assert (Hok : StartTranscription.segment_step low items rewritten seg =
                    Ok (rewritten ++ [rewrite_segment low items seg]))
        by (by apply start_segment_step_iff).
      congruence.
Qed.

(** The variant as a whole: when it returns, and what. *)
Lemma start_filter_iff data threshold data' :
  StartTranscription.filter_low_confidence_items_and_segments data threshold
    = Ok data' <->
  exists items segs low,
    r_items (t_results data) = Some items /\
    r_audio_segments (t_results data) = Some segs /\
    low_confidence_ids items threshold = Ok low /\
    collectable low items segs /\
    data' = set_audio_segments data (map (rewrite_segment low items) segs).
Proof.
  unfold StartTranscription.filter_low_confidence_items_and_segments. split.
  - intros H.
    destruct (r_items (t_results data)) as [items|]; simpl in H; [|done].
    destruct (r_audio_segments (t_results data)) as [segs|]; simpl in H;
      [|done].
    destruct (low_confidence_ids items threshold) as [low|] eqn:Hlow;
      simpl in H; [|done].
    destruct (for_each _ segs []) as [rewritten|] eqn:Hseg; simpl in H;
      [|done].
    apply start_segment_loop_iff in Hseg as [Hc ->]. simpl in H.
    inversion H; subst. by exists items, segs, low.
  - intros (items & segs & low & -> & -> & Hlow & Hc & ->). simpl.
    rewrite Hlow. simpl.
    assert (Hseg : for_each (StartTranscription.segment_step low items)
                     segs [] =
                   Ok ([] ++ map (rewrite_segment low items) segs))
      by (by apply start_segment_loop_iff).
    by rewrite Hseg.
Qed.

End StartFilter.

(** A document as the variant leaves [Sample.dangling]: the id without
    an item is kept, and so is the segment whose transcript is empty. *)
#[warnings="-inexact-float"]
Definition dangling_rewritten : @transcript unit :=
  Sample.doc [Sample.word 1 0.9 "Hello"; Sample.word 2 0.1 "ignored"]
             [Sample.seg [1; 99] "Hello" 0 1; Sample.seg [] "" 1 2].

(** A document with a punctuation mark that has no alternative. *)
#[warnings="-inexact-float"]
Definition bare_comma : @transcript unit :=
  Sample.doc [Sample.word 1 0.9 "Hello";
              {| i_type := lit "punctuation"; i_alternatives := [];
                 i_id := 2 |}]
             [Sample.seg [1; 2] "Hello," 0 1].

Lemma for_each_raises {S A} (body : S -> A -> result S) (e0 : exn) :
  (forall s x e, body s x = Raise e -> e = e0) ->
  forall l s e, for_each body l s = Raise e -> e = e0.
Proof.
  intros Hbody l. induction l as [|x l IH]; intros s e H; simpl in H; [done|].
  destruct (body s x) as [s1|e1] eqn:Hstep; simpl in H.
  - by eapply IH.
  - injection H as <-. by eapply Hbody.
Qed.

Lemma first_alternative_raises it e :
  first_alternative it = Raise e -> e = IndexError /\ i_alternatives it = [].
Proof.
  unfold first_alternative. destruct (i_alternatives it); [|done].
  by intros [= <-].
Qed.

Lemma low_confidence_ids_raises items threshold e :
  low_confidence_ids items threshold = Raise e -> e = IndexError.
Proof.
  apply for_each_raises. intros low it e'. unfold low_confidence_step.
  destruct (decide _); [|done].
  destruct (first_alternative it) as [a|e1] eqn:Ha; simpl.
  - by destruct (_ <? _)%float.
  - intros [= <-]. by apply first_alternative_raises in Ha as [-> _].
Qed.

Lemma collect_loop_raises low items ids acc e :
  for_each (collect_step low items) ids acc = Raise e -> e = IndexError.
Proof.
  apply for_each_raises. intros acc' n e'. unfold collect_step.
  destruct (decide _); [done|]. destruct (matched_item items n); [|done].
  destruct (first_alternative i) as [a|e1] eqn:Ha; simpl; [done|].
  intros [= <-]. by apply first_alternative_raises in Ha as [-> _].
Qed.

Lemma start_collect_loop_raises low items ids acc e :
  for_each (StartTranscription.collect_step low items) ids acc = Raise e ->
  e = IndexError.
Proof.
  apply for_each_raises. intros acc' n e'.
  unfold StartTranscription.collect_step.
  destruct (decide _); [done|]. destruct (matched_item items n); [|done].
  destruct (first_alternative i) as [a|e1] eqn:Ha; simpl; [done|].
  intros [= <-]. by apply first_alternative_raises in Ha as [-> _].
Qed.

Section Variants.

Context {Extra : Type}.
Implicit Types (seg : @segment Extra) (data : @transcript Extra).
Implicit Types (segs : list (@segment Extra)).

Lemma segment_loop_raises low items segs cleaned e :
  for_each (segment_step low items) segs cleaned = Raise e -> e = IndexError.
Proof.
  revert segs cleaned e. apply for_each_raises. intros cleaned' seg e'.
  unfold segment_step.
  destruct (for_each _ (seg_items seg) ([], [])) as [acc|e1] eqn:Hacc; simpl.
  - by destruct (truthy _).
  - intros [= <-]. by apply collect_loop_raises in Hacc.
Qed.

Lemma start_segment_loop_raises low items segs rewritten e :
  for_each (StartTranscription.segment_step low items) segs rewritten
    = Raise e ->
  e = IndexError.
Proof.
  revert segs rewritten e. apply for_each_raises. intros rewritten' seg e'.
  unfold StartTranscription.segment_step.
  destruct (for_each _ (seg_items seg) ([], [])) as [acc|e1] eqn:Hacc; simpl.
  - done.
  - intros [= <-]. by apply start_collect_loop_raises in Hacc.
Qed.

Lemma rewrite_segment_idem low items seg :
  rewrite_segment low items (rewrite_segment low items seg) =
  rewrite_segment low items seg.
Proof.
  unfold rewrite_segment, set_items_transcript, rebuilt_transcript. simpl.
  by rewrite kept_ids_idem, retained_kept_ids.
Qed.

Lemma rebuild_rewrite_segment low items seg :
  rebuild low items (rewrite_segment low items seg) = rebuild low items seg.
Proof.
  unfold rebuild, rewrite_segment, rebuilt_transcript. simpl.
  by rewrite retained_kept_ids.
Qed.

Lemma omap_rebuild_rewritten low items segs :
  omap (rebuild low items) (map (rewrite_segment low items) segs) =
  omap (rebuild low items) segs.
Proof.
  induction segs as [|seg segs IH]; [done|]. cbn [map omap list_omap].
  change (list_omap _ _ (rebuild low items) ?l)
    with (omap (rebuild low items) l).
  by rewrite rebuild_rewrite_segment, IH.
Qed.

Lemma collectable_rewritten low items segs :
  collectable low items segs ->
  collectable low items (map (rewrite_segment low items) segs).
Proof.
  unfold collectable. rewrite Forall_map. intros H.
  eapply Forall_impl; [exact H|].
  intros seg Hseg. simpl. by rewrite retained_kept_ids.
Qed.

(** X5: when the variant of the filter in StartTranscriptionLambda.py
    returns, the document has as many segments as before, in the same
    order. Each one keeps every id that is not excluded, the ids no item
    carries included; its transcript is the space-joined content of the
    kept ids that an item resolves, empty or not; its times and other
    fields are unchanged. *)
Theorem start_variant_keeps_every_segment data threshold data' :
  StartTranscription.filter_low_confidence_items_and_segments data threshold
    = Ok data' ->
  exists items segs low rewritten,
    r_items (t_results data) = Some items /\
    r_audio_segments (t_results data) = Some segs /\
    low_confidence_ids items threshold = Ok low /\
    r_items (t_results data') = Some items /\
    r_audio_segments (t_results data') = Some rewritten /\
    length rewritten = length segs /\
    Forall2 (fun seg seg' =>
               seg_items seg' =
                 filter (fun item_id => item_id ∉ low) (seg_items seg) /\
               seg_transcript seg' =
                 Some (join_space
                         (map (content_of items)
                              (retained_ids low items (seg_items seg)))) /\
               seg_start_time seg' = seg_start_time seg /\
               seg_end_time seg' = seg_end_time seg /\
               seg_alternatives seg' = seg_alternatives seg /\
               seg_rest seg' = seg_rest seg)
            segs rewritten.
Proof.
  intros H.
  apply start_filter_iff in H as (items & segs & low & Hi & Hs & Hl & _ & ->).
  exists items, segs, low, (map (rewrite_segment low items) segs).
  repeat split; try done.
  - by rewrite length_map.
  - apply Forall2_fmap_r, Forall_Forall2_diag, Forall_forall. by intros.
Qed.

(** X6: the variant is idempotent: applied to a document it has
    returned, with the same threshold, it returns that document
    unchanged. *)
Theorem start_variant_idempotent data threshold data' :
  StartTranscription.filter_low_confidence_items_and_segments data threshold
    = Ok data' ->
  StartTranscription.filter_low_confidence_items_and_segments data' threshold
    = Ok data'.
Proof.
  intros H.
  apply start_filter_iff in H as (items & segs & low & Hi & Hs & Hl & Hc & ->).
  apply start_filter_iff.
  exists items, (map (rewrite_segment low items) segs), low.
  repeat split; try done.
  - by apply collectable_rewritten.
  - unfold set_audio_segments. simpl. do 3 f_equal.
    rewrite <- list_fmap_compose. apply list_fmap_ext.
    intros i seg _. simpl. by rewrite rewrite_segment_idem.
Qed.

(** X7: the filter of TranslationSubtitlesLambda.py gives the same
    result on a document the variant has returned as on the document the
    variant was given: what the variant keeps beyond the other filter,
    unresolved ids and blank segments, the other filter removes. *)
Theorem filter_after_start_variant data threshold data' :
  StartTranscription.filter_low_confidence_items_and_segments data threshold
    = Ok data' ->
  filter_low_confidence_items_and_segments data' threshold =
  filter_low_confidence_items_and_segments data threshold.
Proof.
  intros H.
  apply start_filter_iff in H as (items & segs & low & Hi & Hs & Hl & Hc & ->).
  assert (H1 : filter_low_confidence_items_and_segments data threshold =
               Ok (set_audio_segments data (omap (rebuild low items) segs))).
  { apply filter_iff. by exists items, segs, low. }
  rewrite H1. apply filter_iff.
  exists items, (map (rewrite_segment low items) segs), low.
  repeat split; try done.
  - by apply collectable_rewritten.
  - unfold set_audio_segments. simpl. do 3 f_equal.
    symmetry. apply omap_rebuild_rewritten.
Qed.

(** X8: the two filters fail on the same documents, with the same
    exception: the variant raises an exception exactly when the filter
    of TranslationSubtitlesLambda.py raises it. *)
Theorem filters_fail_alike data threshold e :
  StartTranscription.filter_low_confidence_items_and_segments data threshold
    = Raise e <->
  filter_low_confidence_items_and_segments data threshold = Raise e.
Proof.
  unfold StartTranscription.filter_low_confidence_items_and_segments,
    filter_low_confidence_items_and_segments.
  destruct (r_items (t_results data)) as [items|]; simpl; [|done].
  destruct (r_audio_segments (t_results data)) as [segs|]; simpl; [|done].
  destruct (low_confidence_ids items threshold) as [low|e1]; simpl; [|done].
  destruct (for_each (StartTranscription.segment_step low items) segs [])
    as [rewritten|e1] eqn:H1;
    destruct (for_each (segment_step low items) segs [])
    as [cleaned|e2] eqn:H2; simpl.
  - done.
  - apply start_segment_loop_iff in H1 as [Hc _].
    assert (Hok : for_each (segment_step low items) segs [] =
                  Ok ([] ++ omap (rebuild low items) segs))
      by (by apply segment_loop_iff).
    congruence.
  - apply segment_loop_iff in H2 as [Hc _].
    assert (Hok : for_each (StartTranscription.segment_step low items)
                    segs [] =
                  Ok ([] ++ map (rewrite_segment low items) segs))
      by (by apply start_segment_loop_iff).
    congruence.
  - apply start_segment_loop_raises in H1 as ->.
    by apply segment_loop_raises in H2 as ->.
Qed.

(** An id of a segment on which the inner loop fails: it is not excluded
    and the first item carrying it has no alternative. *)
Definition unreadable_id (low : gset Z) (items : list item) (item_id : Z)
  : Prop :=
  (item_id ∉ low) /\
  exists m, matched_item items item_id = Some m /\ i_alternatives m = [].

(** An item on which Step 1 fails. *)
Definition unreadable_word (it : item) : Prop :=
  i_type it = lit "pronunciation" /\ i_alternatives it = [].

#[local] Instance readable_at_dec items n : Decision (readable_at items n).
Proof.
  unfold readable_at. destruct (matched_item items n) as [m|].
  - destruct (i_alternatives m) as [|a alts] eqn:Ha.
    + right. intros H. by apply (H m).
    + left. intros ? [= <-]. by rewrite Ha.
  - by left.
Defined.

Lemma low_confidence_step_raises threshold low it :
  match low_confidence_step threshold low it with
  | Ok _ => ~ unreadable_word it
  | Raise e => e = IndexError /\ unreadable_word it
  end.
Proof.
  unfold low_confidence_step, unreadable_word, first_alternative.
  destruct (decide (i_type it = lit "pronunciation")) as [Ht|Ht].
  - destruct (i_alternatives it) as [|a alts]; simpl; [done|].
    destruct (_ <? _)%float; by intros [_ ?].
  - by intros [? _].
Qed.

Lemma low_confidence_loop_raises threshold items low e :
  for_each (low_confidence_step threshold) items low = Raise e <->
  e = IndexError /\ Exists unreadable_word items.
Proof.
  revert low. induction items as [|it items IH]; intros low; simpl.
  - rewrite Exists_nil. split; [done | tauto].
  - rewrite Exists_cons.
    pose proof (low_confidence_step_raises threshold low it) as Hstep.
    destruct (low_confidence_step threshold low it) as [low1|e1]; simpl.
    + rewrite IH. tauto.
    + destruct Hstep as [-> Hw].
      split; [intros [= <-]; tauto | by intros [-> _]].
Qed.

Lemma not_collectable_iff low items segs :
  ~ collectable low items segs <->
  Exists (fun seg => Exists (unreadable_id low items) (seg_items seg)) segs.
Proof.
  unfold collectable.
  assert (Hid : forall ids,
             ~ Forall (readable_at items) (retained_ids low items ids) <->
             Exists (unreadable_id low items) ids).
  { intros ids. unfold retained_ids, unreadable_id, readable_at.
    induction ids as [|n ids IH].
    - rewrite filter_nil, Exists_nil. split; [intros H; by destruct H | done].
    - rewrite filter_cons, Exists_cons, <- IH.
      destruct (decide _) as [[Hlow [m Hm]]|Hn].
      + rewrite Forall_cons. rewrite Hm.
        destruct (i_alternatives m) as [|a alts] eqn:Ha.
        * split; [intros _; left; split; [done | by exists m]|].
          intros _ [H _]. by apply (H m).
        * split.
          -- intros H. right. intros Hall. apply H. split; [|done].
             intros ? [= <-]. by rewrite Ha.
          -- intros [(_ & m' & [= <-] & Hm')|H]; [congruence|].
             intros [_ Hall]. by apply H.
      + split; [by right|]. intros [(Hlow & m & Hm & _)|H]; [|done].
        destruct Hn. split; [done | by exists m]. }
  induction segs as [|seg segs IH].
  - rewrite Exists_nil. split; [intros H; by destruct H | done].
  - rewrite Forall_cons, Exists_cons, <- IH, <- Hid.
    destruct (decide (Forall (readable_at items)
                             (retained_ids low items (seg_items seg))));
      tauto.
Qed.

(** X9: the failures of the filter of TranslationSubtitlesLambda.py on
    a document of the shape the transcription service writes: every item
    has a type, an id and a list of alternatives, every alternative a
    content and, if any, a confidence that [float] converts, every
    segment a list of items (a document of another shape, which the
    records above do not hold, makes the code raise KeyError, ValueError
    or TypeError at the key or value that is wrong). On such a
    document: without the list of items the filter raises KeyError for
    "items", whether or not there are segments; with items and without
    the list of segments, KeyError for "audio_segments"; with both lists
    it raises nothing but IndexError, and that exactly when a
    pronunciation item has no alternative, or else when a segment names
    an id that is not excluded and the first item carrying that id has
    no alternative. *)
Theorem filter_failures data threshold e :
  filter_low_confidence_items_and_segments data threshold = Raise e <->
  match r_items (t_results data), r_audio_segments (t_results data) with
  | None, _ => e = KeyError "items"
  | Some _, None => e = KeyError "audio_segments"
  | Some items, Some segs =>
      e = IndexError /\
      (Exists unreadable_word items \/
       exists low,
         low_confidence_ids items threshold = Ok low /\
         Exists (fun seg => Exists (unreadable_id low items) (seg_items seg))
                segs)
  end.
Proof.
  unfold filter_low_confidence_items_and_segments.
  destruct (r_items (t_results data)) as [items|]; simpl;
    [|split; congruence].
  destruct (r_audio_segments (t_results data)) as [segs|]; simpl;
    [|split; congruence].
  destruct (low_confidence_ids items threshold) as [low|e1] eqn:Hlow; simpl.
  - assert (Hwords : ~ Exists unreadable_word items).
    { intros Hw.
      assert (Hr : low_confidence_ids items threshold = Raise IndexError)
        by (by apply low_confidence_loop_raises).
      congruence. }
    destruct (for_each (segment_step low items) segs []) as [cleaned|e2]
      eqn:Hseg; simpl.
    + apply segment_loop_iff in Hseg as [Hc _].
      split; [done|]. intros (_ & [Hw|(low' & [= <-] & Hex)]); [done|].
      by apply not_collectable_iff in Hex.
    + assert (Hnc : ~ collectable low items segs).
      { intros Hc.
        assert (Hok : for_each (segment_step low items) segs [] =
                      Ok ([] ++ omap (rebuild low items) segs))
          by (by apply segment_loop_iff).
        congruence. }
      apply segment_loop_raises in Hseg as ->.
      split; [|by intros [-> _]].
      intros [= <-]. split; [done|]. right. exists low.
      split; [done | by apply not_collectable_iff].
  - apply low_confidence_loop_raises in Hlow as [-> Hw].
    split; [intros [= <-]; tauto | by intros [-> _]].
Qed.

End Variants.

Lemma start_variant_keeps_every_segment_witness :
  exists rewritten,
    r_audio_segments (t_results dangling_rewritten) = Some rewritten /\
    length rewritten = 2%nat.
Proof.
  destruct (start_variant_keeps_every_segment Sample.dangling 0.25
              dangling_rewritten)
    as (items & segs & low & rewritten & _ & Hs & _ & _ & Hr & Hlen & _);
    [by vm_compute|].
  exists rewritten. split; [exact Hr|].
  injection Hs as <-. exact Hlen.
Defined.

Lemma start_variant_idempotent_witness :
  StartTranscription.filter_low_confidence_items_and_segments
    dangling_rewritten 0.25
  = Ok dangling_rewritten.
Proof.
  apply (start_variant_idempotent Sample.dangling). by vm_compute.
Defined.

Lemma filter_after_start_variant_witness :
  filter_low_confidence_items_and_segments dangling_rewritten 0.25 =
  Ok Sample.dangling_cleaned.
Proof.
  rewrite (filter_after_start_variant Sample.dangling); by vm_compute.
Defined.

Example bare_comma_fails :
  filter_low_confidence_items_and_segments bare_comma 0.25 = Raise IndexError /\
  StartTranscription.filter_low_confidence_items_and_segments bare_comma 0.25
    = Raise IndexError.
Proof. by vm_compute. Qed.

(** ** The requests of the translation loop *)

(** A segment that never ends. *)
Definition endless : @transcript unit :=
  Sample.doc Sample.items [Sample.seg [1] "Hello" 0 infinity].

Section Requests.

Context {Extra : Type}.
Variable lower : str -> str.
Variable bedrock : nat -> request -> reply.
Implicit Types (entry seg : @segment Extra) (data : @transcript Extra).
Implicit Types (segs cleaned : list (@segment Extra)).
Implicit Types (st : list subtitle * nat).

Lemma rebuilt_segments_have_text low items segs :
  Forall (fun seg => is_Some (seg_transcript seg))
         (omap (rebuild low items) segs).
Proof.
  apply Forall_forall. intros seg' Hin.
  apply list_elem_of_omap in Hin as (seg & _ & Hseg).
  apply rebuild_Some in Hseg as [_ ->]. by eexists.
Qed.

(** A completed loop over entries that all have a transcript: one
    subtitle and one request for each, numbered in the order of the
    entries. *)
Lemma translate_loop_indexed segs st st' :
  Forall (fun seg => is_Some (seg_transcript seg)) segs ->
  for_each (translate_step lower bedrock) segs st = Ok st' ->
  st'.2 = (st.2 + length segs)%nat /\
  exists new,
    st'.1 = st.1 ++ new /\
    length new = length segs /\
    forall (i : nat) seg, segs !! i = Some seg ->
      exists limit english_text,
        seg_transcript seg = Some english_text /\
        timed seg limit /\
        new !! i =
          Some (subtitle_of lower bedrock (st.2 + i) seg limit english_text).
Proof.
  intros Htext. revert st.
  induction Htext as [|seg segs [english Hseg] _ IH]; intros st H; simpl in H.
  - injection H as <-. split; [simpl; lia|]. exists [].
    rewrite app_nil_r. repeat split. intros i seg Hi.
    by rewrite lookup_nil in Hi.
  - destruct (translate_step lower bedrock st seg) as [st1|] eqn:Hstep;
      simpl in H; [|done].
    apply translate_step_ok in Hstep as (limit & Hl & Hst1).
    unfold english_text_of in Hst1. rewrite Hseg in Hst1. subst st1.
    apply IH in H as (Hn & new & Hnew & Hlen & Hall). simpl in Hn, Hnew, Hall.
    split; [simpl; lia|].
    exists (subtitle_of lower bedrock st.2 seg limit english :: new).
    split; [by rewrite Hnew, <- app_assoc|].
    split; [simpl; by rewrite Hlen|].
    intros [|i] seg' Hi; simpl in Hi.
    + injection Hi as <-. exists limit, english.
      by rewrite Nat.add_0_r.
    + destruct (Hall i seg' Hi) as (limit' & english' & ? & ? & Hsub).
      exists limit', english'. repeat split; try done.
      simpl. by rewrite Hsub, Nat.add_succ_r.
Qed.

(** The loop is left only by the budget of an entry. *)
Lemma translate_loop_raises segs st e :
  for_each (translate_step lower bedrock) segs st = Raise e ->
  exists seg,
    seg ∈ segs /\
    max_translated_characters (default 0%float (seg_start_time seg))
                              (default 0%float (seg_end_time seg))
      = Raise e /\
    (e = OverflowError \/ e = ValueError).
Proof.
  revert st. induction segs as [|seg segs IH]; intros st H; simpl in H;
    [done|].
  destruct (translate_step lower bedrock st seg) as [st1|e1] eqn:Hstep;
    simpl in H.
  - destruct (IH st1 H) as (seg' & Hin & ?).
    exists seg'. split; [by right | done].
  - injection H as <-. exists seg. split; [by left|].
    unfold translate_step in Hstep.
    destruct (max_translated_characters _ _) as [limit|e2] eqn:Hl;
      simpl in Hstep.
    + by destruct (english_text_of seg).
    + injection Hstep as <-. split; [done|].
      unfold max_translated_characters, py_int in Hl.
      destruct (Prim2SF _); simpl in Hl; try done;
        injection Hl as <-; tauto.
Qed.

(** X10: when [lambda_handler] returns, it has sent exactly one request
    for every segment the filter kept, in the order of the segments, and
    has emitted exactly one subtitle for it: the i-th subtitle has the
    times of the i-th kept segment (0 for a missing one), its rebuilt
    transcript as source text, and as target text what the i-th reply
    gives, the request carrying the budget of that segment and that
    transcript. *)
Theorem one_request_per_kept_segment data subs :
  lambda_handler lower bedrock data = Ok subs ->
  exists data' cleaned,
    filter_low_confidence_items_and_segments data 0.25 = Ok data' /\
    r_audio_segments (t_results data') = Some cleaned /\
    length subs = length cleaned /\
    forall (i : nat) seg, cleaned !! i = Some seg ->
      exists limit english_text,
        seg_transcript seg = Some english_text /\
        max_translated_characters (default 0%float (seg_start_time seg))
                                  (default 0%float (seg_end_time seg))
          = Ok limit /\
        subs !! i =
          Some {| start_time := default 0%float (seg_start_time seg);
                  end_time := default 0%float (seg_end_time seg);
                  sub_text := english_text;
                  ja_text :=
                    translated_text lower english_text
                      (bedrock i {| req_max_characters := limit;
                                    req_english_text := english_text |}) |}.
Proof.
  intros H.
  apply lambda_handler_ok in H as (data' & cleaned & k & Hf & Hc & Hloop).
  exists data', cleaned. split; [done|]. split; [done|].
  apply filter_ok in Hf as (items & segs & low & _ & _ & _ & ->).
  simpl in Hc. injection Hc as <-.
  apply translate_loop_indexed in Hloop
    as (_ & new & Hnew & Hlen & Hall);
    [|apply rebuilt_segments_have_text].
  simpl in Hnew. subst new. split; [done|]. exact Hall.
Qed.

(** X11: on a document of the shape the transcription service writes
    (as for the filter, and the times of a segment, where it has them,
    being values that [float] converts: the records above hold no
    other), an exception of [lambda_handler] is either the exception of
    the filter, or OverflowError or ValueError raised by [int] in the
    budget of a segment the filter kept; no reply of the translator and
    no choice of the segment list raises one. *)
Theorem handler_failures data e :
  lambda_handler lower bedrock data = Raise e ->
  filter_low_confidence_items_and_segments data 0.25 = Raise e \/
  exists data' cleaned seg,
    filter_low_confidence_items_and_segments data 0.25 = Ok data' /\
    r_audio_segments (t_results data') = Some cleaned /\
    seg ∈ cleaned /\
    max_translated_characters (default 0%float (seg_start_time seg))
                              (default 0%float (seg_end_time seg))
      = Raise e /\
    (e = OverflowError \/ e = ValueError).
Proof.
  unfold lambda_handler. intros H.
  destruct (filter_low_confidence_items_and_segments data 0.25)
    as [data'|e1] eqn:Hf; simpl in H; [|left; congruence].
  right. pose proof Hf as Hf'.
  apply filter_ok in Hf' as (items & segs & low & _ & _ & _ & ->).
  unfold segments_to_translate in H. simpl in H.
  exists (set_audio_segments data (omap (rebuild low items) segs)),
    (omap (rebuild low items) segs).
  destruct (for_each _ _ _) as [st|e1] eqn:Hloop; simpl in H; [done|].
  injection H as <-. apply translate_loop_raises in Hloop as (seg & ? & ? & ?).
  by exists seg.
Qed.

End Requests.

Lemma one_request_per_kept_segment_witness :
  exists data' cleaned,
    filter_low_confidence_items_and_segments Sample.hello_goodbye 0.25
      = Ok data' /\
    r_audio_segments (t_results data') = Some cleaned /\
    length cleaned = 2%nat.
Proof.
  destruct (@one_request_per_kept_segment unit ascii_lower Sample.echo
              Sample.hello_goodbye
              [{| start_time := 0; end_time := 2;
                  sub_text := lit "Hello"; ja_text := lit "Hello" |};
               {| start_time := 2; end_time := 4;
                  sub_text := lit "Goodbye"; ja_text := lit "Goodbye" |}])
    as (data' & cleaned & Hf & Hc & Hlen & _); [reflexivity|].
  exists data', cleaned. split; [exact Hf|]. split; [exact Hc|].
  symmetry. exact Hlen.
Defined.

Lemma handler_failures_witness :
  lambda_handler ascii_lower Sample.echo endless = Raise OverflowError /\
  exists data', filter_low_confidence_items_and_segments endless 0.25
                = Ok data'.
Proof.
  assert (H : lambda_handler ascii_lower Sample.echo endless
              = Raise OverflowError) by reflexivity.
  split; [exact H|].
  destruct (@handler_failures unit ascii_lower Sample.echo endless
              OverflowError H) as [Hf|(data' & _ & _ & Hf & _)].
  - discriminate Hf.
  - exists data'. exact Hf.
Defined.

(** ** A segment that ends before it starts *)

(** Two binary64 numbers of which one is the other with the sign changed
    (a zero of either sign for a zero). *)
Definition negated (a b : spec_float) : Prop :=
  match a, b with
  | S754_zero _, S754_zero _ => True
  | S754_infinity s, S754_infinity s' => s = negb s'
  | S754_nan, S754_nan => True
  | S754_finite s m e, S754_finite s' m' e' => s = negb s' /\ m = m' /\ e = e'
  | _, _ => False
  end.

Lemma binary_round_aux_negated (s : bool) (mx ex : Z) (lx : location) :
  negated (binary_round_aux prec emax (negb s) mx ex lx)
          (binary_round_aux prec emax s mx ex lx).
Proof.
  unfold binary_round_aux. destruct (shr_fexp _ _ _ _ _) as [mrs' e'].
  destruct (shr_fexp _ _ _ _ _) as [mrs'' e''].
  destruct (shr_m mrs''); [done| |done]. by destruct (_ <=? _).
Qed.

Lemma binary_normalize_negated (m e : Z) :
  negated (binary_normalize prec emax (- m) e false)
          (binary_normalize prec emax m e false).
Proof.
  destruct m as [|p|p]; [done| |].
  - change (- Z.pos p) with (Z.neg p).
    unfold binary_normalize, binary_round.
    destruct (shl_align p e _) as [mz ez].
    apply (binary_round_aux_negated false).
  - change (- Z.neg p) with (Z.pos p).
    unfold binary_normalize, binary_round.
    destruct (shl_align p e _) as [mz ez].
    apply (binary_round_aux_negated true).
Qed.

Lemma sub_negated (x y : spec_float) : negated (SF64sub y x) (SF64sub x y).
Proof.
  destruct x as [sx|sx| |sx mx ex], y as [sy|sy| |sy my ey];
    try done; try (by destruct sx, sy); try (by destruct sx);
    try (by destruct sy).
  unfold SF64sub, SFsub. rewrite (Z.min_comm ey ex).
  set (a := cond_Zopp sx _). set (b := cond_Zopp sy _).
  replace (b - a) with (- (a - b)) by lia. apply binary_normalize_negated.
Qed.

Lemma product_negated (a b r : spec_float) :
  negated a b -> negated (SF64mul a r) (SF64mul b r).
Proof.
  destruct a as [sa|sa| |sa ma ea], b as [sb|sb| |sb mb eb]; try done;
    destruct r as [sr|sr| |sr mr er]; try done; simpl;
    try (intros ->; by destruct sb, sr).
  - intros (-> & _). by destruct sb, sr.
  - intros (-> & -> & ->). destruct sb, sr; cbn [negb xorb].
    + apply (binary_round_aux_negated false).
    + apply (binary_round_aux_negated true).
    + apply (binary_round_aux_negated true).
    + apply (binary_round_aux_negated false).
Qed.

Lemma sf_int_negated (a b : spec_float) :
  negated a b ->
  sf_int a = match sf_int b with
             | Ok n => Ok (- n)
             | Raise e => Raise e
             end.
Proof.
  destruct a as [sa|sa| |sa ma ea], b as [sb|sb| |sb mb eb]; try done.
  intros (-> & -> & ->). simpl. f_equal. destruct sb; simpl; lia.
Qed.

(** X12: exchanging the two times changes the sign of the budget, and
    leaves its exception as it is: the budget is truncated toward zero.
    So a segment that ends before it starts, or has a start time and no
    end time, has a budget of zero or less. *)
Theorem reversed_times_negate_the_budget (start_time end_time : float) :
  max_translated_characters end_time start_time =
    match max_translated_characters start_time end_time with
    | Ok b => Ok (- b)
    | Raise e => Raise e
    end /\
  ((end_time <=? start_time)%float = true ->
   forall b, max_translated_characters start_time end_time = Ok b -> b <= 0).
Proof.
  assert (Hrev : forall s e,
             max_translated_characters e s =
             match max_translated_characters s e with
             | Ok b => Ok (- b)
             | Raise x => Raise x
             end).
  { intros s e. unfold max_translated_characters, py_int.
    rewrite !mul_spec, !sub_spec.
    apply sf_int_negated, product_negated, sub_negated. }
  split; [apply Hrev|]. intros Hle b Hb.
  pose proof (duration_not_negative _ _ Hle) as Hd.
  pose proof (Hrev start_time end_time) as H. rewrite Hb in H.
  unfold max_translated_characters, py_int in H.
  rewrite mul_spec, chars_per_second_spec in H.
  apply sf_int_not_negative in H; [lia|]. by apply product_not_negative.
Qed.

Lemma reversed_times_negate_the_budget_witness :
  max_translated_characters 5 0 = Ok (- 28) /\ - 28 <= 0.
Proof.
  split; [reflexivity|].
  apply (proj2 (reversed_times_negate_the_budget 5 0)); reflexivity.
Defined.

(** ** The order of the calls *)

Lemma io_bind_inv {A B} (m : io A) (k : A -> io B) (h h' : history)
    (out : outcome B) :
  (m ≫= k) h = (h', out) ->
  (exists e, m h = (h', Failed e) /\ out = Failed e) \/
  (exists a h1, m h = (h1, Done a) /\ k a h1 = (h', out)).
Proof.
  unfold mbind, io_bind. destruct (m h) as [h1 [a|e]]; intros H.
  - right. by exists a, h1.
  - left. exists e. by injection H as <- <-.
Qed.

Lemma perform_inv outside (c : call) (h h' : history) (out : outcome bool) :
  perform outside c h = (h', out) ->
  (exists b, h' = h ++ [(c, Returned b)] /\ out = Done b) \/
  (exists e, h' = h ++ [(c, Raised e)] /\ out = Failed e).
Proof.
  unfold perform. destruct (outside h c) as [b|e]; intros [= <- <-].
  - left. by exists b.
  - right. by exists e.
Qed.

Lemma io_ret_inv {A} (a : A) (h h' : history) (out : outcome A) :
  (mret a : io A) h = (h', out) -> h' = h /\ out = Done a.
Proof. by intros [= <- <-]. Qed.

Lemma throw_inv {A} (e : error) (h h' : history) (out : outcome A) :
  throw e h = (h', out) -> h' = h /\ out = Failed e.
Proof. by intros [= <- <-]. Qed.

Lemma perform_Done outside (c : call) (h h' : history) (b : bool) :
  perform outside c h = (h', Done b) -> h' = h ++ [(c, Returned b)].
Proof.
  intros H. apply perform_inv in H as [(b' & -> & [= ->])|(e & _ & [=])].
  done.
Qed.

Lemma perform_Failed outside (c : call) (h h' : history) (e : error) :
  perform outside c h = (h', Failed e) -> h' = h ++ [(c, Raised e)].
Proof.
  intros H. apply perform_inv in H as [(b' & _ & [=])|(e' & -> & [= ->])].
  done.
Qed.

(** Taking a run apart, call by call. *)
Ltac io_inv :=
  repeat match goal with
  | H : (_ ≫= _) _ = (_, _) |- _ =>
      apply io_bind_inv in H as [(? & ? & ?)|(? & ? & ? & ?)]; simplify_eq
  | H : perform _ _ _ = (_, _) |- _ =>
      apply perform_inv in H as [(? & ? & ?)|(? & ? & ?)]; simplify_eq
  | H : @mret io _ _ _ _ = (_, _) |- _ =>
      apply io_ret_inv in H as [? ?]; simplify_eq
  | H : throw _ _ = (_, _) |- _ =>
      apply throw_inv in H as [? ?]; simplify_eq
  | H : (if negb ?b then _ else _) _ = (_, _) |- _ => destruct b; simpl in H
  | H : (if ?b then _ else _) _ = (_, _) |- _ => destruct b; simpl in H
  end.

(** The key is present and is not the empty string. *)
Definition given (key : option str) : bool :=
  match key with
  | Some (_ :: _) => true
  | _ => false
  end.

Lemma required_inv key (h h' : history) (out : outcome str) :
  ComposeFinalVideo.required key h = (h', out) ->
  h' = h /\
  match out with
  | Done k => key = Some k /\ given key = true
  | Failed e => e = Builtin ValueError /\ given key = false
  end.
Proof. destruct key as [[|c s]|]; by intros [= <- <-]. Qed.

(** A world in which every call returns. *)
Definition obliging (h : history) (c : call) : answer := Returned true.

(** A world in which ffmpeg fails. *)
Definition without_ffmpeg (h : history) (c : call) : answer :=
  match c with
  | subprocess_run _ => Raised (Other "FileNotFoundError")
  | _ => Returned true
  end.

Definition no_environ (name : string) : option str := None.

Definition talk : event :=
  {| ev_input_video_key := Some (lit "videos/talk.mp4");
     ev_transcribe_result_key := Some (lit "TranscribeResults/talk.json");
     ev_merged_audio_key := Some (lit "MergedAudio/talk.mp3") |}.

#[local] Arguments lit : simpl never.

(** The runs of the composing handler, taken apart. *)
Ltac compose_runs H :=
  unfold ComposeFinalVideo.lambda_handler,
    common_utils.download_file_from_s3, common_utils.upload_file_to_s3,
    ComposeFinalVideo.remove_if_exists in H;
  io_inv;
  repeat match goal with
  | H : ComposeFinalVideo.required _ _ = (_, _) |- _ =>
      apply required_inv in H as [-> H]; simpl in H; destruct H as [? ?]
  end;
  try done.

(** Looking up an entry of a run. *)
Ltac entries i H :=
  simpl in H;
  repeat match type of H with
  | None = Some _ => discriminate H
  | [] !! _ = Some _ => by rewrite lookup_nil in H
  | Some _ = Some _ => first [discriminate H | simplify_eq]
  | (_ :: _) !! i = Some _ => destruct i as [|i]; simpl in H
  end.

Section Calls.

Variable outside : history -> call -> answer.
Variable environ : string -> option str.

(** X13: without a video key, or with an empty one, the composing handler
    raises ValueError before it calls the store, the file system or
    ffmpeg; and likewise, the video key being given, without the key of
    the merged audio. *)
Theorem compose_requires_both_keys (ev : event) (h : history) :
  given (ev_input_video_key ev) = false \/
  given (ev_merged_audio_key ev) = false ->
  ComposeFinalVideo.lambda_handler outside environ ev h =
  (h, Failed (Builtin ValueError)).
Proof.
  unfold ComposeFinalVideo.lambda_handler, ComposeFinalVideo.required.
  destruct (ev_input_video_key ev) as [[|c s]|]; try done.
  destruct (ev_merged_audio_key ev) as [[|c' s']|]; try done.
  by intros [?|?].
Qed.

(** X14: whatever the composing handler uploads is the file that ffmpeg
    was told to write, sent to the output bucket under the key
    FinalVideos/<name>_ja.mp4 with the content type video/mp4; and it is
    uploaded only after ffmpeg has returned without an exception. A run
    that returns has made this upload, and returns the key of the video
    and the key of the upload. *)
Theorem compose_uploads_what_ffmpeg_wrote (ev : event) (tr : history)
    (out : outcome (str * str)) :
  ComposeFinalVideo.lambda_handler outside environ ev [] = (tr, out) ->
  (forall (i : nat) filename bucket key content_type a,
     tr !! i = Some (upload_file filename bucket key content_type, a) ->
     exists video audio,
       ev_input_video_key ev = Some video /\
       ev_merged_audio_key ev = Some audio /\
       filename = ComposeFinalVideo.local_output_video_path video /\
       bucket = common_utils.output_bucket
                  (common_utils.get_bucket_names environ) /\
       key = ComposeFinalVideo.final_output_video_key video /\
       content_type = Some (lit "video/mp4") /\
       exists (j : nat) b,
         (j < i)%nat /\
         tr !! j =
           Some (subprocess_run (ComposeFinalVideo.ffmpeg_command video audio),
                 Returned b)) /\
  (forall video final, out = Done (video, final) ->
     ev_input_video_key ev = Some video /\
     final = ComposeFinalVideo.final_output_video_key video /\
     exists (i : nat) b,
       tr !! i =
         Some (upload_file (ComposeFinalVideo.local_output_video_path video)
                 (common_utils.output_bucket
                    (common_utils.get_bucket_names environ))
                 final (Some (lit "video/mp4")),
               Returned b)).
Proof.
  intros H. compose_runs H.
  all: split; [intros i filename bucket key content_type ans Hi; entries i Hi
              | intros video final Hout; try discriminate Hout].
  all: try (injection Hout as <- <-).
  all: try (eexists _, _; repeat split; try done; exists 6%nat; eexists;
            split; [lia | done]).
  all: try (repeat split; try done; exists 7%nat; by eexists).
Qed.

(** X15: the composing handler runs ffmpeg at most once, with the
    command built from the two keys, and only after the video has been
    downloaded from the input bucket and the merged audio from the
    output bucket, each to /tmp/<file name of the key>, and each has
    been found there. *)
Theorem compose_runs_ffmpeg_on_the_downloads (ev : event) (tr : history)
    (out : outcome (str * str)) :
  ComposeFinalVideo.lambda_handler outside environ ev [] = (tr, out) ->
  forall (i : nat) command a,
    tr !! i = Some (subprocess_run command, a) ->
    exists video audio b1 b2 b3 b4,
      ev_input_video_key ev = Some video /\
      ev_merged_audio_key ev = Some audio /\
      command = ComposeFinalVideo.ffmpeg_command video audio /\
      i = 6%nat /\
      take 6 tr =
        [(download_file
            (common_utils.input_bucket (common_utils.get_bucket_names environ))
            (Some video) (ComposeFinalVideo.local_path video), Returned b1);
         (path_exists (ComposeFinalVideo.local_path video), Returned true);
         (path_getsize (ComposeFinalVideo.local_path video), Returned b2);
         (download_file
            (common_utils.output_bucket
               (common_utils.get_bucket_names environ))
            (Some audio) (ComposeFinalVideo.local_path audio), Returned b3);
         (path_exists (ComposeFinalVideo.local_path audio), Returned true);
         (path_getsize (ComposeFinalVideo.local_path audio), Returned b4)].
Proof.
  intros H. compose_runs H.
  all: intros i command ans Hi; entries i Hi.
  all: by eexists _, _, _, _, _, _.
Qed.

(** X16: the composing handler removes a file only after the upload has
    returned without an exception, and only a file that
    [os.path.exists] has just reported: so a run in which a download,
    ffmpeg or the upload raises leaves every file it has written to /tmp
    where it is. The files removed are the two downloads and the output
    of ffmpeg. *)
Theorem compose_cleans_up_after_the_upload (ev : event) (tr : history)
    (out : outcome (str * str)) :
  ComposeFinalVideo.lambda_handler outside environ ev [] = (tr, out) ->
  forall (i : nat) path a,
    tr !! i = Some (os_remove path, a) ->
    exists video audio (j : nat) filename bucket key content_type b,
      ev_input_video_key ev = Some video /\
      ev_merged_audio_key ev = Some audio /\
      path ∈ [ComposeFinalVideo.local_path video;
              ComposeFinalVideo.local_path audio;
              ComposeFinalVideo.local_output_video_path video] /\
      (j < i)%nat /\
      tr !! j =
        Some (upload_file filename bucket key content_type, Returned b) /\
      tr !! pred i = Some (path_exists path, Returned true).
Proof.
  intros H. compose_runs H.
  all: intros i path ans Hi; entries i Hi.
  all: eexists _, _, 7%nat, _, _, _, _, _.
  all: split; [done|]; split; [done|]; split; [set_solver|].
  all: split; [lia|]; by split.
Qed.

End Calls.

Section TranslationCalls.

Context {Extra : Type}.
Variable lower : str -> str.
Variable bedrock : nat -> request -> reply.
Variable outside : history -> call -> answer.
Variable environ : string -> option str.
Variable document : history -> @transcript Extra.

Lemma load_transcript_inv (h h' : history) (out : outcome (@transcript Extra)) :
  TranslationSubtitles.load_transcript outside document h = (h', out) ->
  (exists b,
     h' = h ++ [(json_load TranslationSubtitles.local_transcript_file,
                 Returned b)] /\
     out = Done (document h')) \/
  (exists e,
     h' = h ++ [(json_load TranslationSubtitles.local_transcript_file,
                 Raised e)] /\
     out = Failed e).
Proof.
  unfold TranslationSubtitles.load_transcript. intros H. io_inv.
  - right. by eexists.
  - left. by eexists.
Qed.

Lemma lift_inv {A} (r : result A) (h h' : history) (out : outcome A) :
  lift r h = (h', out) ->
  h' = h /\
  match r with
  | Ok a => out = Done a
  | Raise e => out = Failed (Builtin e)
  end.
Proof. destruct r; by intros [= <- <-]. Qed.

(** The runs of the translating handler, taken apart. *)
Ltac translation_runs H :=
  unfold TranslationSubtitles.lambda_handler,
    common_utils.download_file_from_s3, common_utils.upload_file_to_s3 in H;
  repeat first
    [ progress io_inv
    | match goal with
      | H : TranslationSubtitles.load_transcript _ _ _ = (_, _) |- _ =>
          apply load_transcript_inv in H
            as [(? & ? & ?)|(? & ? & ?)]; simplify_eq
      | H : lift ?r _ = (_, _) |- _ =>
          let Hr := fresh "Hcore" in
          apply lift_inv in H as [? H]; destruct r eqn:Hr; simplify_eq
      | H : match ?k with Some _ => _ | None => _ end _ = (_, _) |- _ =>
          let Hk := fresh "Hkey" in
          destruct k eqn:Hk
      end ].

(** X17: what the translating handler writes to
    /tmp/translated_subtitle.json is the list of subtitles that
    [lambda_handler] above computes from the document loaded from
    /tmp/transcript.json, and it is written only after the transcript
    has been downloaded from the output bucket with the key of the
    event, found on disk and loaded. *)
Theorem translation_writes_the_subtitles (ev : event) (tr : history)
    (out : outcome (option str * str)) :
  TranslationSubtitles.lambda_handler lower bedrock outside environ document
    ev [] = (tr, out) ->
  forall (i : nat) subtitles path a,
    tr !! i = Some (json_dump subtitles path, a) ->
    path = TranslationSubtitles.local_translated_subtitle_file /\
    i = 4%nat /\
    lambda_handler lower bedrock (document (take 4 tr)) = Ok subtitles /\
    exists b1 b2 b3,
      take 4 tr =
        [(download_file
            (common_utils.output_bucket
               (common_utils.get_bucket_names environ))
            (ev_transcribe_result_key ev)
            TranslationSubtitles.local_transcript_file, Returned b1);
         (path_exists TranslationSubtitles.local_transcript_file,
          Returned true);
         (path_getsize TranslationSubtitles.local_transcript_file,
          Returned b2);
         (json_load TranslationSubtitles.local_transcript_file,
          Returned b3)].
Proof.
  intros H. translation_runs H.
  all: intros i subtitles path ans Hi; entries i Hi.
  all: repeat split; try done; by eexists _, _, _.
Qed.

(** X18: whatever the translating handler uploads is the file it has
    just written, sent to the output bucket under the key
    TranslateSubtitles/<name> derived from the key of the transcript,
    with the content type application/json. A run that returns has made
    this upload, has then removed the transcript and the subtitle file
    from /tmp, and returns the video key of the event and the key of the
    upload. *)
Theorem translation_uploads_the_subtitles (ev : event) (tr : history)
    (out : outcome (option str * str)) :
  TranslationSubtitles.lambda_handler lower bedrock outside environ document
    ev [] = (tr, out) ->
  (forall (i : nat) filename bucket key content_type a,
     tr !! i = Some (upload_file filename bucket key content_type, a) ->
     exists transcribe_result_key subtitles b,
       ev_transcribe_result_key ev = Some transcribe_result_key /\
       filename = TranslationSubtitles.local_translated_subtitle_file /\
       bucket = common_utils.output_bucket
                  (common_utils.get_bucket_names environ) /\
       key = TranslationSubtitles.translated_subtitle_key
               transcribe_result_key /\
       content_type = Some (lit "application/json") /\
       tr !! pred i =
         Some (json_dump subtitles
                 TranslationSubtitles.local_translated_subtitle_file,
               Returned b)) /\
  (forall video key, out = Done (video, key) ->
     video = ev_input_video_key ev /\
     exists b1 b2 b3,
       drop 5 tr =
         [(upload_file TranslationSubtitles.local_translated_subtitle_file
             (common_utils.output_bucket
                (common_utils.get_bucket_names environ))
             key (Some (lit "application/json")), Returned b1);
          (os_remove TranslationSubtitles.local_transcript_file,
           Returned b2);
          (os_remove TranslationSubtitles.local_translated_subtitle_file,
           Returned b3)]).
Proof.
  intros H. translation_runs H.
  all: split; [intros i filename bucket key content_type ans Hi; entries i Hi
              | intros video key Hout; try discriminate Hout].
  all: try (injection Hout as <- <-).
  all: try (eexists _, _, _; by repeat split).
  all: split; [done|]; by eexists _, _, _.
Qed.

(** X19: when [lambda_handler] above raises on the document loaded, the
    filter or a budget failing, the translating handler raises the same
    exception, and [json.load] is the last call it has made to the store
    or the file system: it has not written the subtitle file, has
    uploaded nothing and has removed nothing, so that
    /tmp/transcript.json stays. The requests to the translator are not
    among the calls of a history; some may have been sent, for the
    segments before the one whose budget fails. *)
Theorem translation_failure_leaves_the_transcript (ev : event)
    (tr : history) (out : outcome (option str * str)) (b : bool) (e : exn) :
  TranslationSubtitles.lambda_handler lower bedrock outside environ document
    ev [] = (tr, out) ->
  tr !! 3%nat =
    Some (json_load TranslationSubtitles.local_transcript_file, Returned b) ->
  lambda_handler lower bedrock (document (take 4 tr)) = Raise e ->
  out = Failed (Builtin e) /\
  length tr = 4%nat /\
  forall (i : nat) c a,
    tr !! i = Some (c, a) ->
    match c with
    | json_dump _ _ | upload_file _ _ _ _ | os_remove _ => False
    | _ => True
    end.
Proof.
  intros H. translation_runs H.
  all: intros Hload Hraise; simpl in Hload; try discriminate Hload.
  all: simpl in Hraise; try congruence.
  all: split; [congruence|]; split; [done|].
  all: intros i c a Hi; entries i Hi; done.
Qed.

(** X20: the stages agree on where the files are, as far as their
    environments agree. The key the transcription job is told to write
    is the key the translating handler, invoked with the key the first
    stage returned, downloads as the transcript; and the key of the
    object the job is started on is the key the composing handler
    downloads as the video. Every handler takes the buckets from its
    own environment: the job's output bucket is the bucket of the
    transcript download when the first two environments give
    OUTPUT_S3_BUCKET the same value, or both none, and the bucket in the
    job's media address is the bucket of the video download when the
    first and the third give INPUT_S3_BUCKET the same value, or both
    none. *)
Theorem stages_agree_on_locations
    (outside1 outside3 : history -> call -> answer)
    (environ1 environ3 : string -> option str)
    (clock : history -> Z) (ev : event) (tr1 tr2 tr3 : history)
    (video result_key job_name audio : str)
    (out2 : outcome (option str * str)) (out3 : outcome (str * str)) :
  StartTranscription.lambda_handler outside1 environ1 clock ev []
    = (tr1, Done (video, result_key, job_name)) ->
  TranslationSubtitles.lambda_handler lower bedrock outside environ document
    {| ev_input_video_key := Some video;
       ev_transcribe_result_key := Some result_key;
       ev_merged_audio_key := None |} []
    = (tr2, out2) ->
  ComposeFinalVideo.lambda_handler outside3 environ3
    {| ev_input_video_key := Some video;
       ev_transcribe_result_key := None;
       ev_merged_audio_key := Some audio |} []
    = (tr3, out3) ->
  given (Some video) = true -> given (Some audio) = true ->
  exists a1 a2 a3,
    tr1 = [(start_transcription_job job_name
              (lit "s3://"
               ++ common_utils.input_bucket
                    (common_utils.get_bucket_names environ1)
               ++ lit "/" ++ video)
              (lit "mp4") (lit "en-US")
              (common_utils.output_bucket
                 (common_utils.get_bucket_names environ1))
              result_key, a1)] /\
    tr2 !! 0%nat =
      Some (download_file
              (common_utils.output_bucket
                 (common_utils.get_bucket_names environ))
              (Some result_key)
              TranslationSubtitles.local_transcript_file, a2) /\
    tr3 !! 0%nat =
      Some (download_file
              (common_utils.input_bucket
                 (common_utils.get_bucket_names environ3))
              (Some video) (ComposeFinalVideo.local_path video), a3) /\
    (environ1 "OUTPUT_S3_BUCKET"%string = environ "OUTPUT_S3_BUCKET"%string ->
     common_utils.output_bucket (common_utils.get_bucket_names environ1)
     = common_utils.output_bucket (common_utils.get_bucket_names environ)) /\
    (environ1 "INPUT_S3_BUCKET"%string = environ3 "INPUT_S3_BUCKET"%string ->
     common_utils.input_bucket (common_utils.get_bucket_names environ1)
     = common_utils.input_bucket (common_utils.get_bucket_names environ3)).
Proof.
  intros H1 H2 H3 Hvideo Haudio.
  unfold StartTranscription.lambda_handler in H1.
  destruct (ev_input_video_key ev) as [key|]; simpl in H1; [|done].
  unfold mbind, io_bind, mret, io_ret, perform in H1. simpl in H1.
  assert (exists a1, tr1 = [(start_transcription_job
             (lit "transcribe_job_" ++ str_of_int (clock []))
             (StartTranscription.media_url
                (common_utils.input_bucket
                   (common_utils.get_bucket_names environ1)) key)
             (lit "mp4") (lit "en-US")
             (common_utils.output_bucket
                (common_utils.get_bucket_names environ1))
             (StartTranscription.transcribe_result_key key), a1)] /\
           video = key /\
           result_key = StartTranscription.transcribe_result_key key /\
           job_name = lit "transcribe_job_" ++ str_of_int (clock []))
    as (a1 & -> & -> & -> & ->).
  { destruct (outside1 _ _) as [b|e] eqn:Ha; [|done].
    injection H1 as <- <- <- <-. by eexists. }
  assert (exists a2, tr2 !! 0%nat =
            Some (download_file
                    (common_utils.output_bucket
                       (common_utils.get_bucket_names environ))
                    (Some (StartTranscription.transcribe_result_key key))
                    TranslationSubtitles.local_transcript_file, a2))
    as [a2 Ha2].
  { clear H3. translation_runs H2; by eexists. }
  assert (exists a3, tr3 !! 0%nat =
            Some (download_file
                    (common_utils.input_bucket
                       (common_utils.get_bucket_names environ3))
                    (Some key) (ComposeFinalVideo.local_path key), a3))
    as [a3 Ha3].
  { clear H2 Ha2.
    compose_runs H3; simpl in *; simplify_eq; try congruence; by eexists. }
  exists a1, a2, a3. repeat split; try done.
  - unfold common_utils.get_bucket_names. simpl. by intros ->.
  - unfold common_utils.get_bucket_names. simpl. by intros ->.
Qed.

End TranslationCalls.

Lemma compose_requires_both_keys_witness :
  ComposeFinalVideo.lambda_handler obliging no_environ
    {| ev_input_video_key := Some (lit "videos/talk.mp4");
       ev_transcribe_result_key := None;
       ev_merged_audio_key := Some [] |} []
  = ([], Failed (Builtin ValueError)).
Proof. apply compose_requires_both_keys. by right. Defined.

(** The run for [talk] in a world in which every call returns. *)
Definition talk_composed : history * outcome (str * str) :=
  ComposeFinalVideo.lambda_handler obliging no_environ talk [].

Lemma compose_uploads_what_ffmpeg_wrote_witness :
  exists (i : nat) b,
    talk_composed.1 !! i =
    Some (upload_file (lit "/tmp/talk_ja.mp4") (lit "cognizant-video-output")
            (lit "FinalVideos/talk_ja.mp4") (Some (lit "video/mp4")),
          Returned b).
Proof.
  destruct (compose_uploads_what_ffmpeg_wrote obliging no_environ talk
              talk_composed.1 talk_composed.2 eq_refl) as [_ H].
  destruct (H (lit "videos/talk.mp4") (lit "FinalVideos/talk_ja.mp4") eq_refl)
    as (_ & _ & i & b & Hi).
  exists i, b. exact Hi.
Defined.

Lemma compose_runs_ffmpeg_on_the_downloads_witness :
  exists video audio,
    talk_composed.1 !! 6%nat =
    Some (subprocess_run (ComposeFinalVideo.ffmpeg_command video audio),
          Returned true).
Proof.
  destruct (compose_runs_ffmpeg_on_the_downloads obliging no_environ talk
              talk_composed.1 talk_composed.2 eq_refl 6%nat
              (ComposeFinalVideo.ffmpeg_command (lit "videos/talk.mp4")
                 (lit "MergedAudio/talk.mp3"))
              (Returned true) eq_refl)
    as (video & audio & _ & _ & _ & _ & _ & _ & Hc & _).
  exists video, audio. rewrite <- Hc. reflexivity.
Defined.

Lemma compose_cleans_up_after_the_upload_witness :
  exists (j : nat) filename bucket key content_type b,
    (j < 9)%nat /\
    talk_composed.1 !! j =
    Some (upload_file filename bucket key content_type, Returned b).
Proof.
  destruct (compose_cleans_up_after_the_upload obliging no_environ talk
              talk_composed.1 talk_composed.2 eq_refl 9%nat
              (lit "/tmp/talk.mp4") (Returned true) eq_refl)
    as (_ & _ & j & filename & bucket & key & content_type & b
        & _ & _ & _ & Hj & Hu & _).
  by exists j, filename, bucket, key, content_type, b.
Defined.

(** When ffmpeg is missing, the two downloads stay in /tmp and nothing
    is uploaded. *)
Example compose_without_ffmpeg :
  ComposeFinalVideo.lambda_handler without_ffmpeg no_environ talk [] =
  ([(download_file (lit "cognizant-video-input")
       (Some (lit "videos/talk.mp4")) (lit "/tmp/talk.mp4"), Returned true);
    (path_exists (lit "/tmp/talk.mp4"), Returned true);
    (path_getsize (lit "/tmp/talk.mp4"), Returned true);
    (download_file (lit "cognizant-video-output")
       (Some (lit "MergedAudio/talk.mp3")) (lit "/tmp/talk.mp3"),
     Returned true);
    (path_exists (lit "/tmp/talk.mp3"), Returned true);
    (path_getsize (lit "/tmp/talk.mp3"), Returned true);
    (subprocess_run
       (map lit ["ffmpeg"; "-i"; "/tmp/talk.mp4"; "-i"; "/tmp/talk.mp3";
                 "-map"; "0:v:0"; "-map"; "1:a:0"; "-c:v"; "copy";
                 "-c:a"; "aac"; "-b:a"; "192k"; "-y";
                 "/tmp/talk_ja.mp4"]%string),
     Raised (Other "FileNotFoundError"))],
   Failed (Other "FileNotFoundError")).
Proof. reflexivity. Qed.

(** The subtitles of the scenario when the translator echoes. *)
Definition hello_goodbye_subtitles : list subtitle :=
  [{| start_time := 0; end_time := 2;
      sub_text := lit "Hello"; ja_text := lit "Hello" |};
   {| start_time := 2; end_time := 4;
      sub_text := lit "Goodbye"; ja_text := lit "Goodbye" |}].

(** The run for [talk] when every call returns and the transcript is the
    scenario. *)
Definition talk_translated : history * outcome (option str * str) :=
  TranslationSubtitles.lambda_handler ascii_lower Sample.echo obliging
    no_environ (fun _ => Sample.hello_goodbye) talk [].

(** The run for [talk] when the transcript has an item without
    alternatives. *)
Definition talk_untranslated : history * outcome (option str * str) :=
  TranslationSubtitles.lambda_handler ascii_lower Sample.echo obliging
    no_environ (fun _ => bare_comma) talk [].

Lemma translation_writes_the_subtitles_witness :
  lambda_handler ascii_lower Sample.echo Sample.hello_goodbye =
  Ok hello_goodbye_subtitles.
Proof.
  destruct (@translation_writes_the_subtitles unit ascii_lower Sample.echo
              obliging no_environ (fun _ => Sample.hello_goodbye) talk
              talk_translated.1 talk_translated.2 eq_refl 4%nat
              hello_goodbye_subtitles
              TranslationSubtitles.local_translated_subtitle_file
              (Returned true) eq_refl)
    as (_ & _ & H & _).
  exact H.
Defined.

Lemma translation_uploads_the_subtitles_witness :
  exists b1 b2 b3,
    drop 5 talk_translated.1 =
    [(upload_file (lit "/tmp/translated_subtitle.json")
        (lit "cognizant-video-output")
        (lit "TranslateSubtitles/talk_ja.json")
        (Some (lit "application/json")), Returned b1);
     (os_remove (lit "/tmp/transcript.json"), Returned b2);
     (os_remove (lit "/tmp/translated_subtitle.json"), Returned b3)].
Proof.
  destruct (@translation_uploads_the_subtitles unit ascii_lower Sample.echo
              obliging no_environ (fun _ => Sample.hello_goodbye) talk
              talk_translated.1 talk_translated.2 eq_refl) as [_ H].
  destruct (H (Some (lit "videos/talk.mp4"))
              (lit "TranslateSubtitles/talk_ja.json") eq_refl)
    as (_ & b1 & b2 & b3 & Hd).
  exists b1, b2, b3. exact Hd.
Defined.

Lemma translation_failure_leaves_the_transcript_witness :
  talk_untranslated.2 = Failed (Builtin IndexError) /\
  length talk_untranslated.1 = 4%nat.
Proof.
  destruct (@translation_failure_leaves_the_transcript unit ascii_lower
              Sample.echo obliging no_environ (fun _ => bare_comma) talk
              talk_untranslated.1 talk_untranslated.2 true IndexError eq_refl
              eq_refl eq_refl) as (Hout & Hlen & _).
  split; [exact Hout | exact Hlen].
Defined.

(** The first stage for [talk], started at a given second. *)
Definition talk_started : history * outcome (str * str * str) :=
  StartTranscription.lambda_handler obliging no_environ
    (fun _ => 1730000000) talk [].

Lemma stages_agree_on_locations_witness :
  talk_started.1 =
    [(start_transcription_job (lit "transcribe_job_1730000000")
        (lit "s3://cognizant-video-input/videos/talk.mp4")
        (lit "mp4") (lit "en-US") (lit "cognizant-video-output")
        (lit "TranscribeResults/talk.json"), Returned true)] /\
  exists bucket a,
    talk_translated.1 !! 0%nat =
    Some (download_file bucket (Some (lit "TranscribeResults/talk.json"))
            (lit "/tmp/transcript.json"), a).
Proof.
  split; [reflexivity|].
  destruct (@stages_agree_on_locations unit ascii_lower Sample.echo obliging
              no_environ (fun _ => Sample.hello_goodbye) obliging obliging
              no_environ no_environ (fun _ => 1730000000) talk
              talk_started.1 talk_translated.1 talk_composed.1
              (lit "videos/talk.mp4") (lit "TranscribeResults/talk.json")
              (lit "transcribe_job_1730000000") (lit "MergedAudio/talk.mp3")
              talk_translated.2 talk_composed.2
              eq_refl eq_refl eq_refl eq_refl eq_refl)
    as (_ & a & _ & _ & H & _).
  eexists _, a. exact H.
Defined.

(** A first stage configured with another output bucket than the second:
    the job writes where the translating handler does not read. *)
Definition other_output (name : string) : option str :=
  if String.eqb name "OUTPUT_S3_BUCKET" then Some (lit "elsewhere") else None.

Example stages_configured_apart :
  (StartTranscription.lambda_handler obliging other_output
     (fun _ => 1730000000) talk []).1 =
    [(start_transcription_job (lit "transcribe_job_1730000000")
        (lit "s3://cognizant-video-input/videos/talk.mp4")
        (lit "mp4") (lit "en-US") (lit "elsewhere")
        (lit "TranscribeResults/talk.json"), Returned true)] /\
  talk_translated.1 !! 0%nat =
    Some (download_file (lit "cognizant-video-output")
            (Some (lit "TranscribeResults/talk.json"))
            (lit "/tmp/transcript.json"), Returned true).
Proof. split; reflexivity. Qed.
